(** * todos.py: schema rules, records, change log and collection

    A shallow embedding of [todos.py] and the properties its design
    document states about it.

    Python objects that the program mutates in place live in a store:
    every [Record] instance and every list holding a modifications log
    has an address, and attributes that refer to a list hold its address.
    Exceptions are outcomes of a state-and-exception monad; a raised
    exception keeps the store as it was at the raise. Text is [string]
    (a sequence of characters with codes below 256). *)

From Stdlib Require Import ZArith String Ascii.
From stdpp Require Import gmap strings list fin_maps.

Open Scope string_scope.
Open Scope list_scope.
Open Scope nat_scope.

(** ** Text helpers *)

Definition chars (s : string) : list ascii := list_ascii_of_string s.
Definition text (l : list ascii) : string := string_of_list_ascii l.

(** [s.split(sep)] for a one-character separator: always at least one
    segment, an empty one between adjacent separators. *)
Fixpoint split (sep : ascii) (s : string) : list string :=
  match s with
  | EmptyString => [EmptyString]
  | String c s' =>
      if Ascii.eqb c sep then EmptyString :: split sep s'
      else match split sep s' with
           | seg :: segs => String c seg :: segs
           | [] => [String c EmptyString]
           end
  end.

(** [sep.join(segments)], the inverse reading of [split]. *)
Fixpoint join (sep : ascii) (segs : list string) : string :=
  match segs with
  | [] => EmptyString
  | [seg] => seg
  | seg :: segs' => seg +:+ String sep (join sep segs')
  end.

Fixpoint contains (c : ascii) (s : string) : bool :=
  match s with
  | EmptyString => false
  | String c' s' => Ascii.eqb c' c || contains c s'
  end.

Definition newline : ascii := "010".

(** [for line in f]: the lines of a file's text, each with the newline
    that ends it; a last line without one is a line too, and an empty
    text has no lines. *)
Fixpoint readlines (s : string) : list string :=
  match s with
  | EmptyString => []
  | String c s' =>
      if Ascii.eqb c newline then String c EmptyString :: readlines s'
      else match readlines s' with
           | line :: lines => String c line :: lines
           | [] => [String c EmptyString]
           end
  end.

(** ** The library call [datetime.datetime.strptime(target, '%Y/%m/%d')]

    The program delegates date validation to Python's [strptime]. The
    library turns the format into the regular expression
    [(\d\d\d\d)/(1[0-2]|0[1-9]|[1-9])/(3[0-1]|[1-2]\d|0[1-9]|[1-9]| [1-9])],
    takes the first match found by backtracking at the start of the text,
    raises [ValueError] if there is none or if text remains after it, and
    then builds the date, which raises [ValueError] for a year below 1 or a
    day the month does not have. *)
Module datetime.

(** A backtracking matcher: all the ways to match a prefix, in the order
    the regex engine tries them. *)
Definition matcher (A : Type) : Type := list ascii → list (A * list ascii).

Definition ret {A} (a : A) : matcher A := λ s, [(a, s)].
Definition seq_ {A B} (p : matcher A) (k : A → matcher B) : matcher B :=
  λ s, '(a, r) ← p s; k a r.
Definition alt {A} (p q : matcher A) : matcher A := λ s, p s ++ q s.

Definition digit (c : ascii) : option Z :=
  let n := Z.of_N (N_of_ascii c) in
  if bool_decide (48 ≤ n ≤ 57)%Z then Some (n - 48)%Z else None.

(** The character class [[lo-hi]] over decimal digits. *)
Definition cls (lo hi : Z) : matcher Z := λ s,
  match s with
  | c :: r =>
      match digit c with
      | Some d => if bool_decide (lo ≤ d ≤ hi)%Z then [(d, r)] else []
      | None => []
      end
  | [] => []
  end.

Definition lit (c : ascii) : matcher unit := λ s,
  match s with
  | c' :: r => if Ascii.eqb c' c then [(tt, r)] else []
  | [] => []
  end.

Definition two (lo1 hi1 lo2 hi2 : Z) : matcher Z :=
  seq_ (cls lo1 hi1) (λ a, seq_ (cls lo2 hi2) (λ b, ret (10 * a + b)%Z)).

(** [%Y]: [\d\d\d\d] *)
Definition re_Y : matcher Z :=
  seq_ (cls 0 9) (λ a, seq_ (cls 0 9) (λ b, seq_ (cls 0 9) (λ c,
  seq_ (cls 0 9) (λ d, ret (1000 * a + 100 * b + 10 * c + d)%Z)))).

(** [%m]: [1[0-2]|0[1-9]|[1-9]] *)
Definition re_m : matcher Z :=
  alt (two 1 1 0 2) (alt (two 0 0 1 9) (cls 1 9)).

(** [%d]: [3[0-1]|[1-2]\d|0[1-9]|[1-9]| [1-9]] *)
Definition re_d : matcher Z :=
  alt (two 3 3 0 1) (alt (two 1 2 0 9) (alt (two 0 0 1 9)
  (alt (cls 1 9) (seq_ (lit " ") (λ _, cls 1 9))))).

Definition re_Ymd : matcher (Z * Z * Z) :=
  seq_ re_Y (λ y, seq_ (lit "/") (λ _, seq_ re_m (λ m,
  seq_ (lit "/") (λ _, seq_ re_d (λ d, ret (y, m, d)))))).

Definition is_leap (y : Z) : bool :=
  bool_decide (y mod 4 = 0)%Z
  && (negb (bool_decide (y mod 100 = 0)%Z) || bool_decide (y mod 400 = 0)%Z).

Definition days_in_month (y m : Z) : Z :=
  if bool_decide (m = 2)%Z then (if is_leap y then 29 else 28)%Z
  else if bool_decide (m ∈ [4; 6; 9; 11]%Z) then 30%Z
  else 31%Z.

(** [None] stands for [ValueError]. *)
Definition strptime_Ymd (target : string) : option (Z * Z * Z) :=
  match head (re_Ymd (chars target)) with
  | None => None
  | Some ((y, m, d), rest) =>
      match rest with
      | _ :: _ => None
      | [] =>
          if bool_decide (1 ≤ y ∧ 1 ≤ d ≤ days_in_month y m)%Z
          then Some (y, m, d) else None
      end
  end.

End datetime.

(** ** Validation rules *)

Inductive Rule : Type :=
| String' (max_length : nat)
| Date
| Priority.

Definition Priority_types : list string := ["minor"; "major"].

Definition String_check (max_length : nat) (target : string) : bool :=
  bool_decide (String.length target ≤ max_length).

Definition Date_check (target : string) : bool :=
  let parsed := datetime.strptime_Ymd target in
  bool_decide (parsed ≠ None).

Definition Priority_check (target : string) : bool :=
  bool_decide (target ∈ Priority_types).

Definition Rule_check (rule : Rule) (target : string) : bool :=
  match rule with
  | String' max_length => String_check max_length target
  | Date => Date_check target
  | Priority => Priority_check target
  end.

(** ** The library calls [json.dumps] and [json.loads]

    The JSON this program meets. [dumps] produces Python's default layout
    ([", "] between items, [": "] after a key, every character outside
    the printable ASCII range escaped). A byte string that has a byte
    above 127 is decoded as UTF-8 first, which raises
    [UnicodeDecodeError] at a byte that starts no sequence; what a
    well-formed sequence is written as is outside this model. [loads] is
    the library's reader for input that is ASCII: it skips white space
    between tokens, reads numbers and the words [NaN], [Infinity] and
    [-Infinity] (kept as their text), rejects control characters and
    unknown escapes in strings, and rejects text after the value; a
    string with an escape above [\u007f], and nesting beyond what the
    interpreter's stack is sure to take, are outside this model. An
    object is read as its members in textual order; the program side
    turns them into a dictionary. *)
Module json.

#[warnings="-register-all"]
Inductive value : Type :=
| Null
| Bool (b : bool)
| Number (literal : string)
| Str (s : string)
| Array (items : list value)
| Object (members : list (string * value)).

(** What a call gives: a result, the exception of the call
    ([UnicodeDecodeError] from [dumps], [ValueError] from [loads]), or
    [Beyond] for an argument that is outside what is modelled. *)
Inductive result (A : Type) : Type :=
| Ok (a : A)
| Error
| Beyond.
Arguments Ok {A} a.
Arguments Error {A}.
Arguments Beyond {A}.

#[global] Instance result_ret : MRet result := λ A a, Ok a.
#[global] Instance result_bind : MBind result := λ A B k r,
  match r with
  | Ok a => k a
  | Error => Error
  | Beyond => Beyond
  end.

Definition dquote : ascii := "034".
Definition bslash : ascii := "092".

Definition code (c : ascii) : N := N_of_ascii c.

Definition is_ascii (c : ascii) : bool := (code c <? 128)%N.

(** A byte that starts no UTF-8 sequence. *)
Definition never_starts (c : ascii) : bool :=
  ((128 <=? code c) && (code c <=? 193) || (245 <=? code c))%N.

Definition hex_digit (n : N) : ascii :=
  if (n <? 10)%N then ascii_of_N (48 + n) else ascii_of_N (87 + n).

Definition hex_value (c : ascii) : option N :=
  let n := code c in
  if ((48 <=? n) && (n <=? 57))%N then Some (n - 48)%N
  else if ((97 <=? n) && (n <=? 102))%N then Some (n - 87)%N
  else if ((65 <=? n) && (n <=? 70))%N then Some (n - 55)%N
  else None.

(** The two-character escapes of the encoder's table. *)
Definition short_escape (c : ascii) : option ascii :=
  if Ascii.eqb c dquote then Some dquote
  else if Ascii.eqb c bslash then Some bslash
  else if Ascii.eqb c "008" then Some "b"%char
  else if Ascii.eqb c "012" then Some "f"%char
  else if Ascii.eqb c "010" then Some "n"%char
  else if Ascii.eqb c "013" then Some "r"%char
  else if Ascii.eqb c "009" then Some "t"%char
  else None.

Definition short_unescape (e : ascii) : option ascii :=
  if Ascii.eqb e dquote then Some dquote
  else if Ascii.eqb e bslash then Some bslash
  else if Ascii.eqb e "/" then Some "/"%char
  else if Ascii.eqb e "b" then Some "008"%char
  else if Ascii.eqb e "f" then Some "012"%char
  else if Ascii.eqb e "n" then Some "010"%char
  else if Ascii.eqb e "r" then Some "013"%char
  else if Ascii.eqb e "t" then Some "009"%char
  else None.

Definition escape_char (c : ascii) : list ascii :=
  match short_escape c with
  | Some e => [bslash; e]
  | None =>
      let n := code c in
      if ((32 <=? n) && (n <=? 126))%N then [c]
      else [bslash; "u"; "0"; "0"; hex_digit (n / 16); hex_digit (n mod 16)]%char
  end.

Definition quote (s : list ascii) : list ascii :=
  dquote :: concat (map escape_char s) ++ [dquote].

Fixpoint sep_by (sep : list ascii) (parts : list (list ascii)) : list ascii :=
  match parts with
  | [] => []
  | [p] => p
  | p :: parts' => p ++ sep ++ sep_by sep parts'
  end.

Definition comma : list ascii := chars ", ".
Definition colon : list ascii := chars ": ".

(** The text of a value whose strings are all ASCII. *)
Fixpoint dumps_chars (v : value) : list ascii :=
  match v with
  | Null => chars "null"
  | Bool true => chars "true"
  | Bool false => chars "false"
  | Number literal => chars literal
  | Str s => quote (chars s)
  | Array items =>
      "["%char :: sep_by comma (map dumps_chars items) ++ ["]"%char]
  | Object members =>
      "{"%char
      :: sep_by comma
           (map (λ m, quote (chars (fst m)) ++ colon ++ dumps_chars (snd m))
                members)
      ++ ["}"%char]
  end.

(** A byte string with a byte above 127 is decoded as UTF-8 before it is
    written: that raises at a byte that starts no sequence; what a
    well-formed sequence is written as is not modelled. *)
Fixpoint encodable_text (s : list ascii) : result unit :=
  match s with
  | [] => Ok tt
  | c :: r =>
      if is_ascii c then encodable_text r
      else if never_starts c then Error
      else Beyond
  end.

(** The strings of a value in the order the encoder meets them; numbers
    are not written by this program. *)
Fixpoint encodable (v : value) : result unit :=
  match v with
  | Null | Bool _ => Ok tt
  | Number _ => Beyond
  | Str s => encodable_text (chars s)
  | Array items =>
      (fix all (l : list value) : result unit :=
         match l with
         | [] => Ok tt
         | x :: l' => encodable x;; all l'
         end) items
  | Object members =>
      (fix all (l : list (string * value)) : result unit :=
         match l with
         | [] => Ok tt
         | m :: l' => encodable_text (chars (fst m));; encodable (snd m);; all l'
         end) members
  end.

Definition dumps (v : value) : result string :=
  encodable v;; Ok (text (dumps_chars v)).

Definition is_ws (c : ascii) : bool :=
  Ascii.eqb c " " || Ascii.eqb c "009" || Ascii.eqb c "010" || Ascii.eqb c "013".

Fixpoint skip_ws (s : list ascii) : list ascii :=
  match s with
  | c :: r => if is_ws c then skip_ws r else s
  | [] => []
  end.

Fixpoint strip (p s : list ascii) : option (list ascii) :=
  match p, s with
  | [], _ => Some s
  | c :: p', c' :: s' => if Ascii.eqb c c' then strip p' s' else None
  | _ :: _, [] => None
  end.

(** The code point of [\uXXXX]. *)
Definition hex4 (a b c d : ascii) : option N :=
  ha ← hex_value a; hb ← hex_value b; hc ← hex_value c; hd ← hex_value d;
  Some (4096 * ha + 256 * hb + 16 * hc + hd)%N.

(** The text after an opening quote, up to and including the closing
    one. A control character, an unknown escape and the end of the input
    are errors; an escape of a code point above 127 gives a string that
    is not modelled. *)
Fixpoint scan_string (s : list ascii) : result (list ascii * list ascii) :=
  match s with
  | [] => Error
  | c :: r =>
      if Ascii.eqb c dquote then Ok ([], r)
      else if Ascii.eqb c bslash then
        match r with
        | [] => Error
        | e :: r1 =>
            if Ascii.eqb e "u" then
              match r1 with
              | a :: b :: c' :: d :: r2 =>
                  match hex4 a b c' d with
                  | Some n =>
                      if (n <? 128)%N then
                        '(str, rest) ← scan_string r2;
                        Ok (ascii_of_N n :: str, rest)
                      else Beyond
                  | None => Error
                  end
              | _ => Error
              end
            else
              match short_unescape e with
              | Some ch => '(str, rest) ← scan_string r1; Ok (ch :: str, rest)
              | None => Error
              end
        end
      else if (code c <? 32)%N then Error
      else '(str, rest) ← scan_string r; Ok (c :: str, rest)
  end.

Definition is_digit (c : ascii) : bool := ((48 <=? code c) && (code c <=? 57))%N.

Fixpoint digits (s : list ascii) : list ascii * list ascii :=
  match s with
  | c :: r => if is_digit c then let '(ds, rest) := digits r in (c :: ds, rest)
              else ([], s)
  | [] => ([], [])
  end.

(** The number pattern: an optional minus, then 0 or a digit 1-9 followed
    by digits, then optionally a point and one or more digits, then
    optionally e or E, an optional sign and one or more digits. The text
    it matches at the start of the input, and the rest. *)
Definition scan_int (s : list ascii) : option (list ascii * list ascii) :=
  match s with
  | c :: r =>
      if Ascii.eqb c "0" then Some ([c], r)
      else if is_digit c then let '(ds, rest) := digits r in Some (c :: ds, rest)
      else None
  | [] => None
  end.

Definition scan_frac (s : list ascii) : list ascii * list ascii :=
  match s with
  | c :: d :: r =>
      if Ascii.eqb c "." && is_digit d then
        let '(ds, rest) := digits r in (c :: d :: ds, rest)
      else ([], s)
  | _ => ([], s)
  end.

Definition scan_sign (s : list ascii) : list ascii * list ascii :=
  match s with
  | c :: r => if Ascii.eqb c "+" || Ascii.eqb c "-" then ([c], r) else ([], s)
  | [] => ([], s)
  end.

Definition scan_exp (s : list ascii) : list ascii * list ascii :=
  match s with
  | e :: r =>
      if Ascii.eqb e "e" || Ascii.eqb e "E" then
        let '(sign, r1) := scan_sign r in
        match r1 with
        | d :: r2 =>
            if is_digit d then
              let '(ds, rest) := digits r2 in (e :: sign ++ d :: ds, rest)
            else ([], s)
        | [] => ([], s)
        end
      else ([], s)
  | [] => ([], s)
  end.

Definition scan_number (s : list ascii) : option (list ascii * list ascii) :=
  let '(minus, s1) :=
    match s with
    | c :: r => if Ascii.eqb c "-" then ([c], r) else ([], s)
    | [] => ([], s)
    end in
  '(int, s2) ← scan_int s1;
  let '(frac, s3) := scan_frac s2 in
  let '(exp, s4) := scan_exp s3 in
  Some (minus ++ int ++ frac ++ exp, s4).

(** The words that are read as numbers. *)
Definition scan_constant (s : list ascii) : option (list ascii * list ascii) :=
  match strip (chars "NaN") s with
  | Some r => Some (chars "NaN", r)
  | None =>
  match strip (chars "Infinity") s with
  | Some r => Some (chars "Infinity", r)
  | None =>
  match strip (chars "-Infinity") s with
  | Some r => Some (chars "-Infinity", r)
  | None => None
  end end end.

(** The reader. [fuel] bounds the work and is never used up by [loads];
    [depth] is the nesting the interpreter's stack is sure to take. *)
Fixpoint parse_value (fuel depth : nat) (s : list ascii)
    : result (value * list ascii) :=
  match fuel with
  | 0 => Beyond
  | S fuel =>
      let s := skip_ws s in
      match strip (chars "null") s with
      | Some r => Ok (Null, r)
      | None =>
      match strip (chars "true") s with
      | Some r => Ok (Bool true, r)
      | None =>
      match strip (chars "false") s with
      | Some r => Ok (Bool false, r)
      | None =>
      match s with
      | [] => Error
      | c :: r =>
          if Ascii.eqb c dquote then
            '(str, rest) ← scan_string r; Ok (Str (text str), rest)
          else if Ascii.eqb c "[" then
            match depth with
            | 0 => Beyond
            | S depth =>
                match strip ["]"%char] (skip_ws r) with
                | Some rest => Ok (Array [], rest)
                | None =>
                    '(items, rest) ← parse_items fuel depth r;
                    Ok (Array items, rest)
                end
            end
          else if Ascii.eqb c "{" then
            match depth with
            | 0 => Beyond
            | S depth =>
                match strip ["}"%char] (skip_ws r) with
                | Some rest => Ok (Object [], rest)
                | None =>
                    '(members, rest) ← parse_members fuel depth r;
                    Ok (Object members, rest)
                end
            end
          else
            match scan_number s with
            | Some (literal, rest) => Ok (Number (text literal), rest)
            | None =>
                match scan_constant s with
                | Some (literal, rest) => Ok (Number (text literal), rest)
                | None => Error
                end
            end
      end end end end
  end
with parse_items (fuel depth : nat) (s : list ascii)
    : result (list value * list ascii) :=
  match fuel with
  | 0 => Beyond
  | S fuel =>
      '(v, r) ← parse_value fuel depth s;
      match skip_ws r with
      | c :: r1 =>
          if Ascii.eqb c "," then
            '(items, rest) ← parse_items fuel depth r1; Ok (v :: items, rest)
          else if Ascii.eqb c "]" then Ok ([v], r1)
          else Error
      | [] => Error
      end
  end
with parse_members (fuel depth : nat) (s : list ascii)
    : result (list (string * value) * list ascii) :=
  match fuel with
  | 0 => Beyond
  | S fuel =>
      match skip_ws s with
      | c :: r =>
          if Ascii.eqb c dquote then
            '(key, r1) ← scan_string r;
            match skip_ws r1 with
            | c1 :: r2 =>
                if Ascii.eqb c1 ":" then
                  '(v, r3) ← parse_value fuel depth r2;
                  match skip_ws r3 with
                  | c3 :: r4 =>
                      if Ascii.eqb c3 "," then
                        '(members, rest) ← parse_members fuel depth r4;
                        Ok ((text key, v) :: members, rest)
                      else if Ascii.eqb c3 "}" then Ok ([(text key, v)], r4)
                      else Error
                  | [] => Error
                  end
                else Error
            | [] => Error
            end
          else Error
      | [] => Error
      end
  end.

Definition max_depth : nat := 900.

(** [loads] of a byte string. Input with a byte above 127 is not
    modelled. [Error] is [ValueError]. *)
Definition loads (s : string) : result value :=
  let cs := chars s in
  if forallb is_ascii cs then
    '(v, rest) ← parse_value (S (length cs)) max_depth cs;
    match skip_ws rest with
    | [] => Ok v
    | _ :: _ => Error
    end
  else Beyond.

(** [obj[key]] on a decoded object: the last member of that name. *)
Fixpoint get (key : string) (members : list (string * value)) : option value :=
  match members with
  | [] => None
  | (k, v) :: members' =>
      match get key members' with
      | Some v' => Some v'
      | None => if decide (k = key) then Some v else None
      end
  end.

End json.



(** ** Python values, exceptions and the store *)

(** What a dictionary of this program holds: text, or a boolean. *)
Inductive value : Type :=
| VStr (s : string)
| VBool (b : bool).

Global Instance value_eq_dec : EqDecision value.
Proof. solve_decision. Defined.

Abbreviation dict := (gmap string value).

(** Python's truth value: [if value:]. *)
Definition truthy (v : value) : bool :=
  match v with
  | VStr s => negb (String.eqb s "")
  | VBool b => b
  end.

(** [str(value)], as [format] shows it. *)
Definition str (v : value) : string :=
  match v with
  | VStr s => s
  | VBool true => "True"
  | VBool false => "False"
  end.

Inductive exn : Type :=
| SchemaError (msg : string)
| KeyError (key : string)
| IndexError
| ValueError
| TypeError
| UnicodeDecodeError
| Unmodelled.   (* a step the typed model cannot represent *)

Definition addr := nat.

(** The attributes of one [Record] instance. [modifications] is a
    reference to a list object; [done] holds whatever was assigned to it;
    [attrs] holds attributes that [setattr] adds under other names. *)
Record RecordInstance : Type := mkRecord {
  name : string;
  due_date : string;
  priority : string;
  done : value;
  modifications : addr;
  original : dict;
  attrs : gmap string string
}.

Definition with_name (v : string) (r : RecordInstance) : RecordInstance :=
  mkRecord v (due_date r) (priority r) (done r) (modifications r) (original r) (attrs r).
Definition with_due_date (v : string) (r : RecordInstance) : RecordInstance :=
  mkRecord (name r) v (priority r) (done r) (modifications r) (original r) (attrs r).
Definition with_priority (v : string) (r : RecordInstance) : RecordInstance :=
  mkRecord (name r) (due_date r) v (done r) (modifications r) (original r) (attrs r).
Definition with_done (v : value) (r : RecordInstance) : RecordInstance :=
  mkRecord (name r) (due_date r) (priority r) v (modifications r) (original r) (attrs r).
Definition with_attr (key v : string) (r : RecordInstance) : RecordInstance :=
  mkRecord (name r) (due_date r) (priority r) (done r) (modifications r) (original r)
           (<[key := v]> (attrs r)).

(** The store: every [Record] object and every list object created so
    far, by address; the [records] list of the one [Records] collection;
    and the lines printed. *)
Record store : Type := mkStore {
  objects : list RecordInstance;
  lists : list (list dict);
  records : list addr;
  stdout : list string
}.

(** The list that the default argument [modifications=[]] of
    [Record.__init__] denotes: one object, created when the function is
    defined. *)
Definition default_modifications : addr := 0.

Definition initial : store :=
  mkStore [] [ [] ] [] [].

Inductive outcome (A : Type) : Type :=
| Return (a : A)
| Raise (e : exn).
Arguments Return {A} a.
Arguments Raise {A} e.

Definition M (A : Type) : Type := store → outcome A * store.

Global Instance M_ret : MRet M := λ A a σ, (Return a, σ).
Global Instance M_bind : MBind M := λ A B f m σ,
  match m σ with
  | (Return a, σ') => f a σ'
  | (Raise e, σ') => (Raise e, σ')
  end.

Definition raise {A} (e : exn) : M A := λ σ, (Raise e, σ).

Definition get_object (a : addr) : M RecordInstance := λ σ,
  match objects σ !! a with
  | Some r => (Return r, σ)
  | None => (Raise Unmodelled, σ)
  end.

Definition set_object (a : addr) (r : RecordInstance) : M unit := λ σ,
  (Return tt, mkStore (<[a := r]> (objects σ)) (lists σ) (records σ) (stdout σ)).

Definition new_object (r : RecordInstance) : M addr := λ σ,
  (Return (length (objects σ)),
   mkStore (objects σ ++ [r]) (lists σ) (records σ) (stdout σ)).

Definition get_list (l : addr) : M (list dict) := λ σ,
  match lists σ !! l with
  | Some entries => (Return entries, σ)
  | None => (Raise Unmodelled, σ)
  end.

Definition new_list (entries : list dict) : M addr := λ σ,
  (Return (length (lists σ)),
   mkStore (objects σ) (lists σ ++ [entries]) (records σ) (stdout σ)).

(** [l.append(entry)] *)
Definition append (l : addr) (entry : dict) : M unit := λ σ,
  match lists σ !! l with
  | Some entries =>
      (Return tt,
       mkStore (objects σ) (<[l := entries ++ [entry]]> (lists σ)) (records σ) (stdout σ))
  | None => (Raise Unmodelled, σ)
  end.

Definition get_records : M (list addr) := λ σ, (Return (records σ), σ).

Definition set_records (rs : list addr) : M unit := λ σ,
  (Return tt, mkStore (objects σ) (lists σ) rs (stdout σ)).

Definition print (line : string) : M unit := λ σ,
  (Return tt, mkStore (objects σ) (lists σ) (records σ) (stdout σ ++ [line])).

(** [for x in l: body(x)] *)
Fixpoint for_each {A} (body : A → M unit) (l : list A) : M unit :=
  match l with
  | [] => mret tt
  | x :: l' => body x;; for_each body l'
  end.

(** A loop that carries a local variable. *)
Fixpoint for_fold {A B} (body : B → A → M B) (b : B) (l : list A) : M B :=
  match l with
  | [] => mret b
  | x :: l' => b' ← body b x; for_fold body b' l'
  end.

(** [xrange(start, stop, -1)] *)
Definition xrange_down (start stop : Z) : list Z :=
  map (λ k, (start - Z.of_nat k)%Z) (seq 0 (Z.to_nat (start - stop))).

(** [l[i]], with Python's reading of a negative index. *)
Definition index {A} (l : list A) (i : Z) : M A :=
  let n := Z.of_nat (length l) in
  let j := if bool_decide (i < 0)%Z then (n + i)%Z else i in
  if bool_decide (0 ≤ j < n)%Z then
    match l !! Z.to_nat j with
    | Some x => mret x
    | None => raise IndexError
    end
  else raise IndexError.

(** [d[key]] *)
Definition item {V} (d : gmap string V) (key : string) : M V :=
  match d !! key with
  | Some v => mret v
  | None => raise (KeyError key)
  end.

(** A value the typed model can hold, or [Unmodelled]. *)
Definition modelled {A} (o : option A) : M A :=
  match o with
  | Some a => mret a
  | None => raise Unmodelled
  end.

(** ** Dictionaries and JSON *)

Definition value_to_json (v : value) : json.value :=
  match v with
  | VStr s => json.Str s
  | VBool b => json.Bool b
  end.

(** *** The order of a dictionary

    The order in which [iteritems] and [json.dumps] go through a
    dictionary is the interpreter's: it depends on the hashes of the keys
    and on how the dictionary came to be, and is fixed for a dictionary
    that is no longer changed. The dictionaries this program goes
    through are the entries of a log, the original of a record and the
    dictionary that [write] builds; none is changed once it is reached.
    The order is a parameter of the model, one for each of them, and
    every statement holds whatever it is. *)
Inductive dict_id : Type :=
| Entry (l : addr) (i : nat)    (* entry [i] of the list at [l] *)
| Original (a : addr)           (* [self.original] of the record at [a] *)
| Written (a : addr).           (* the dictionary [write] builds for [a] *)

Class Interpreter : Type := {
  iteritems : ∀ {V : Type}, dict_id → gmap string V → list (string * V);
  iteritems_Permutation :
    ∀ {V : Type} (id : dict_id) (d : gmap string V), iteritems id d ≡ₚ map_to_list d
}.

(** Two interpreters to try things on: one goes through every dictionary
    in the order of its keys, the other in the opposite order. *)
Definition key_order : Interpreter :=
  Build_Interpreter (λ V _ d, map_to_list d) (λ V _ d, reflexivity _).

Definition reverse_key_order : Interpreter :=
  Build_Interpreter (λ V _ d, reverse (map_to_list d))
                    (λ V _ d, reverse_Permutation _).

Definition dict_to_json `{Interpreter} (id : dict_id) (d : dict) : json.value :=
  json.Object (map (λ kv, (kv.1, value_to_json kv.2)) (iteritems id d)).

Definition json_to_value (j : json.value) : option value :=
  match j with
  | json.Str s => Some (VStr s)
  | json.Bool b => Some (VBool b)
  | _ => None
  end.

(** A decoded object as a dictionary: the last member of a name wins. *)
Definition members_to_dict (members : list (string * json.value)) : option dict :=
  kvs ← mapM (λ m, v ← json_to_value m.2; Some (m.1, v)) members;
  Some (list_to_map (reverse kvs)).

Definition json_to_dict (j : json.value) : option dict :=
  match j with
  | json.Object members => members_to_dict members
  | _ => None
  end.

(** ** class Record *)
Module Record.

Inductive schema_value : Type :=
| keys (ordered : list string)
| rule (r : Rule).

Definition schema : gmap string schema_value :=
  list_to_map
    [ ("ordered_keys", keys ["name"; "due_date"; "priority"]);
      ("name", rule (String' 20));
      ("due_date", rule Date);
      ("priority", rule Priority) ].

(** [schema.keys()] *)
Definition schema_keys : list string := (map_to_list schema).*1.

Definition snapshot (name due_date priority : string) (done : value) : dict :=
  list_to_map
    [ ("name", VStr name); ("due_date", VStr due_date);
      ("priority", VStr priority); ("done", done) ].

(** [not original]: the argument is [None] or an empty dictionary. *)
Definition falsy (original : option dict) : bool :=
  match original with
  | None => true
  | Some o => bool_decide (o = ∅)
  end.

Definition __init__ (name due_date priority : string) (done : value)
    (modifications : addr) (original : option dict) : M addr :=
  new_object
    (mkRecord name due_date priority done modifications
       (if falsy original then snapshot name due_date priority done
        else default ∅ original)
       ∅).

(** [self.modifications] *)
Definition self_modifications (self : addr) : M addr :=
  r ← get_object self; mret (modifications r).

Definition mark_done (self : addr) : M unit :=
  r ← get_object self;
  set_object self (with_done (VBool true) r);;
  l ← self_modifications self;
  append l {[ "done" := VBool true ]}.

(** [setattr(self, key, value)] for a text [value]: what the assignment
    makes of the instance. The attributes [modifications] and [original]
    hold a list and a dictionary in this model, so assigning text to them
    is outside it ([None]). *)
Definition assign (key value : string) (r : RecordInstance) : option RecordInstance :=
  if decide (key = "name") then Some (with_name value r)
  else if decide (key = "due_date") then Some (with_due_date value r)
  else if decide (key = "priority") then Some (with_priority value r)
  else if decide (key = "done") then Some (with_done (VStr value) r)
  else if decide (key = "modifications" ∨ key = "original") then None
  else Some (with_attr key value r).

Definition setattr (self : addr) (key value : string) : M unit :=
  r ← get_object self;
  r' ← modelled (assign key value r);
  set_object self r'.

Definition check (item : string) : option (string * string) :=
  let parts := split ":" item in
  if decide (length parts ≠ 2) then None
  else
    match parts with
    | [key; value] =>
        if decide (key ∈ schema_keys) then Some (key, value) else None
    | _ => None
    end.

Definition modify (self : addr) (modifications : list string) : M unit :=
  _modifications ←
    for_fold (λ (_modifications : dict) modification,
      let checked := check modification in
      match checked with
      | Some (key, value) =>
          let _modifications := <[key := VStr value]> _modifications in
          setattr self key value;;
          mret _modifications
      | None => mret _modifications
      end) ∅ modifications;
  l ← self_modifications self;
  append l _modifications.

Definition ESC : string := String "027" "".

(** [{0: <20}]: left-aligned in a field of 20, never cut. *)
Definition pad (width : nat) (s : string) : string :=
  s +:+ text (replicate (width - String.length s) " "%char).

Definition print_wo_changes (self : addr) : M unit :=
  r ← get_object self;
  if truthy (done r) then
    print (ESC +:+ "[32m" +:+ pad 20 (name r) +:+ " " +:+ due_date r +:+ " "
           +:+ priority r +:+ ESC +:+ "[0m")
  else
    print (ESC +:+ "[31m" +:+ pad 20 (name r) +:+ " " +:+ due_date r +:+ " "
           +:+ priority r +:+ ESC +:+ "[0m").

Fixpoint _value_before_loop (self : addr) (key : string) (range : list Z)
    : M (option value) :=
  match range with
  | [] => mret None
  | i :: range' =>
      l ← self_modifications self;
      entries ← get_list l;
      entry ← index entries i;
      match entry !! key with
      | Some value =>
          if truthy value then mret (Some value)
          else _value_before_loop self key range'
      | None => _value_before_loop self key range'
      end
  end.

Definition _value_before (self : addr) (key : string) (index : Z) : M value :=
  found ← _value_before_loop self key (xrange_down index (-1));
  match found with
  | Some value => mret value
  | None => r ← get_object self; item (original r) key
  end.

Definition change_line (key : string) (before value : value) : string :=
  "  " +:+ key +:+ ": " +:+ ESC +:+ "[31m" +:+ str before +:+ " " +:+ ESC
  +:+ "[0m-> " +:+ ESC +:+ "[32m" +:+ str value +:+ ESC +:+ "[0m".

Definition _print_changes `{Interpreter} (self : addr) : M unit :=
  l ← self_modifications self;
  entries ← get_list l;
  for_each (λ i,
    l ← self_modifications self;
    entries ← get_list l;
    after ← index entries i;
    for_each (λ kv,
      before ← _value_before self kv.1 (i - 1);
      print (change_line kv.1 before kv.2))
      (iteritems (Entry l (Z.to_nat i)) after))
    (xrange_down (Z.of_nat (length entries) - 1) (-1)).

Definition print_w_changes `{Interpreter} (self : addr) : M unit :=
  print_wo_changes self;; _print_changes self.

(** The log as [json.dumps] takes it: each entry in its own order. *)
Definition log_to_json `{Interpreter} (l : addr) (entries : list dict) : json.value :=
  json.Array (imap (λ i entry, dict_to_json (Entry l i) entry) entries).

(** [write]: the JSON line of the record's current state, of the
    dictionary that it builds; [UnicodeDecodeError] when [json.dumps]
    raises it. *)
Definition write_dict `{Interpreter} (self : addr) (r : RecordInstance)
    (entries : list dict) : gmap string json.value :=
  list_to_map
    [ ("name", json.Str (name r));
      ("due_date", json.Str (due_date r));
      ("priority", json.Str (priority r));
      ("done", value_to_json (done r));
      ("original", dict_to_json (Original self) (original r));
      ("modifications", log_to_json (modifications r) entries) ].

Definition write `{Interpreter} (self : addr) : M string :=
  r ← get_object self;
  entries ← get_list (modifications r);
  match json.dumps (json.Object (iteritems (Written self) (write_dict self r entries))) with
  | json.Ok line => mret line
  | json.Error => raise UnicodeDecodeError
  | json.Beyond => raise Unmodelled
  end.

(** [obj[key]] on the decoded line. *)
Definition member (obj : json.value) (key : string) : M json.value :=
  match obj with
  | json.Object members =>
      match json.get key members with
      | Some v => mret v
      | None => raise (KeyError key)
      end
  | _ => raise TypeError
  end.

Definition json_to_text (j : json.value) : option string :=
  match j with
  | json.Str s => Some s
  | _ => None
  end.

Definition json_to_entries (j : json.value) : option (list dict) :=
  match j with
  | json.Array items => mapM json_to_dict items
  | _ => None
  end.

(** The [original] argument: [None] for [null], else a dictionary. *)
Definition json_to_original (j : json.value) : option (option dict) :=
  match j with
  | json.Null => Some None
  | _ => o ← json_to_dict j; Some (Some o)
  end.

(** [load]: no validation; the decoder creates the list that becomes the
    record's modifications log. Lines whose members are not of the types
    the record holds are outside the model. *)
Definition load (item : string) : M addr :=
  match json.loads item with
  | json.Error => raise ValueError
  | json.Beyond => raise Unmodelled
  | json.Ok obj =>
      name ← member obj "name";
      due_date ← member obj "due_date";
      priority ← member obj "priority";
      done ← member obj "done";
      modifications ← member obj "modifications";
      original ← member obj "original";
      name ← modelled (json_to_text name);
      due_date ← modelled (json_to_text due_date);
      priority ← modelled (json_to_text priority);
      done ← modelled (json_to_value done);
      entries ← modelled (json_to_entries modifications);
      original ← modelled (json_to_original original);
      l ← new_list entries;
      __init__ name due_date priority done l original
  end.

(** [cls.schema['ordered_keys']] *)
Definition schema_ordered_keys : M (list string) :=
  v ← item schema "ordered_keys";
  match v with
  | keys ordered => mret ordered
  | rule _ => raise TypeError
  end.

(** [cls.schema[key].check(field)] *)
Definition schema_check (key field : string) : M bool :=
  v ← item schema key;
  match v with
  | rule r => mret (Rule_check r field)
  | keys _ => raise TypeError
  end.

Definition parse (item_ : string) : M addr :=
  let splitted := split ";" item_ in
  if decide (length splitted ≠ length schema_keys - 1) then
    raise (SchemaError ("Item does not fit schema: " +:+ item_))
  else
    ordered_keys ← schema_ordered_keys;
    parsed ←
      for_fold (λ (parsed : gmap string string) i,
        field ← index splitted (Z.of_nat i);
        key ← index ordered_keys (Z.of_nat i);
        ok ← schema_check key field;
        if (ok : bool) then mret (<[key := field]> parsed)
        else raise (SchemaError ("Rule check failed on field: " +:+ field)))
        ∅ (seq 0 (length splitted));
    name ← item parsed "name";
    due_date ← item parsed "due_date";
    priority ← item parsed "priority";
    __init__ name due_date priority (VBool false) default_modifications None.

End Record.

(** ** class Records *)
Module Records.

Fixpoint find_loop (name_ : string) (rs : list addr) : M (option addr) :=
  match rs with
  | [] => mret None
  | record :: rs' =>
      r ← get_object record;
      if decide (name r = name_) then mret (Some record)
      else find_loop name_ rs'
  end.

Definition find (name_ : string) : M (option addr) :=
  rs ← get_records; find_loop name_ rs.

Definition add (record : addr) : M unit :=
  rs ← get_records; set_records (rs ++ [record]).

Definition add_all (items : list string) : M unit :=
  for_each (λ item, record ← Record.parse item; add record) items.

(** [list.remove(x)]: drops the first element equal to [x]; two [Record]
    objects are equal when they are the same object. *)
Fixpoint list_remove (x : addr) (l : list addr) : option (list addr) :=
  match l with
  | [] => None
  | y :: l' => if decide (y = x) then Some l' else cons y <$> list_remove x l'
  end.

Definition remove (record : addr) : M unit :=
  rs ← get_records;
  match list_remove record rs with
  | Some rs' => set_records rs'
  | None => raise ValueError
  end.

(** [None] stands for Python's [None]; [not max_len] holds for an omitted
    bound and for 0. *)
Definition _split (item : string) (max_len : option nat) : option (list string) :=
  let splitted := split ";" item in
  if bool_decide (max_len = None ∨ max_len = Some 0)
     || bool_decide (length splitted ≤ default 0 max_len)
  then Some splitted else None.

Definition remove_all (items : list string) : M unit :=
  for_each (λ item,
    let parts := _split item (Some 1) in
    match parts with
    | Some (part0 :: _) =>
        record ← find part0;
        match record with
        | Some record => remove record
        | None => mret tt
        end
    | _ => mret tt
    end) items.

Definition mark_done_all (items : list string) : M unit :=
  for_each (λ item,
    let parts := _split item (Some 1) in
    match parts with
    | Some (part0 :: _) =>
        record ← find part0;
        match record with
        | Some record => Record.mark_done record
        | None => mret tt
        end
    | _ => mret tt
    end) items.

Definition modify_all (items : list string) : M unit :=
  for_each (λ item,
    let parts := _split item None in
    match parts with
    | Some (part0 :: parts') =>
        record ← find part0;
        match record with
        | Some record => Record.modify record parts'
        | None => mret tt
        end
    | Some [] => raise IndexError
    | None => raise TypeError
    end) items.

Definition list_w_changes `{Interpreter} : M unit :=
  rs ← get_records; for_each Record.print_w_changes rs.

Definition list_wo_changes : M unit :=
  rs ← get_records; for_each Record.print_wo_changes rs.

(** [save]: the text written to the file, which replaces what the file
    held: one JSON line per record, in the order of the collection. *)
Definition save `{Interpreter} : M string :=
  rs ← get_records;
  for_fold (λ (f : string) record,
    line ← Record.write record;
    mret (f +:+ line +:+ String newline EmptyString)) EmptyString rs.

(** [Records.load()], given the text of the file, [None] when there is no
    file: a new, empty collection, to which each line's record is added.
    The store holds the one collection of an invocation. *)
Definition load (file : option string) : M unit :=
  set_records [];;
  match file with
  | Some f => for_each (λ line, record ← Record.load line; add record) (readlines f)
  | None => mret tt
  end.

End Records.

(** ** main

    The arguments as [cli().parse_args()] returns them; the parsing of the
    command line itself is the library's. *)
Record Namespace : Type := mkNamespace {
  args_list : bool;
  args_changes : bool;
  args_add : list string;
  args_remove : list string;
  args_done : list string;
  args_modify : list string
}.

(** [main], given the arguments and the text of the file: the text it
    leaves in the file. *)
Definition main `{Interpreter} (args : Namespace) (file : option string) : M string :=
  Records.load file;;
  Records.add_all (args_add args);;
  Records.remove_all (args_remove args);;
  Records.modify_all (args_modify args);;
  Records.mark_done_all (args_done args);;
  (if args_list args then
     if args_changes args then Records.list_w_changes
     else Records.list_wo_changes
   else mret tt);;
  Records.save.

(** ** Dates as text

    The formats a date text can be held to. [number] reads a run of
    decimal digits; a field of a date is such a run of a given width, or,
    when the format is not strict, a shorter one. *)

Fixpoint number_from (acc : Z) (t : list ascii) : option Z :=
  match t with
  | [] => Some acc
  | c :: t' => d ← datetime.digit c; number_from (10 * acc + d)%Z t'
  end.

Definition number (t : list ascii) : option Z :=
  match t with
  | [] => None
  | _ :: _ => number_from 0 t
  end.

Definition field_text (strict : bool) (width : nat) (t : list ascii) (n : Z) : Prop :=
  number t = Some n
  ∧ (length t = width ∨ (strict = false ∧ length t ≤ width)).

(** The day may also be written as a space and one digit when the format
    is not strict. *)
Definition day_text (strict : bool) (t : list ascii) (d : Z) : Prop :=
  field_text strict 2 t d
  ∨ (strict = false ∧ ∃ c, t = [" "%char; c] ∧ datetime.digit c = Some d).

Definition calendar_date (y m d : Z) : Prop :=
  (1 ≤ y ∧ 1 ≤ m ≤ 12 ∧ 1 ≤ d ≤ datetime.days_in_month y m)%Z.

(** [date_text true s]: [s] is a calendar date written [YYYY/MM/DD] with a
    4-digit year, a 2-digit month and a 2-digit day. [date_text false s]
    lets the month and the day drop their leading zero. *)
Definition date_text (strict : bool) (s : string) : Prop :=
  ∃ Y M D y m d,
    chars s = Y ++ "/"%char :: M ++ "/"%char :: D
    ∧ field_text true 4 Y y ∧ field_text strict 2 M m ∧ day_text strict D d
    ∧ calendar_date y m d.

(** ** The design's words, for comparison with the code *)

(** Parsing a line (design, 4.2): fail unless the split yields exactly 3
    segments; check each segment in the order name, due date, priority
    against its rule and fail on the first that does not pass, naming it;
    else a record that is not done, whose original snapshot is taken from
    the three fields. *)
Definition parse_outcome (line : string) : exn + RecordInstance :=
  match split ";" line with
  | [n; d; p] =>
      if negb (String_check 20 n) then
        inl (SchemaError ("Rule check failed on field: " +:+ n))
      else if negb (Date_check d) then
        inl (SchemaError ("Rule check failed on field: " +:+ d))
      else if negb (Priority_check p) then
        inl (SchemaError ("Rule check failed on field: " +:+ p))
      else
        inr (mkRecord n d p (VBool false) default_modifications
               (Record.snapshot n d p (VBool false)) ∅)
  | _ => inl (SchemaError ("Item does not fit schema: " +:+ line))
  end.

(** The store after [Record(...)] has created the instance [r]. *)
Definition with_object (r : RecordInstance) (σ : store) : store :=
  mkStore (objects σ ++ [r]) (lists σ) (records σ) (stdout σ).

(** The (key, value) pairs of a list of field specs that [check] accepts,
    in order. *)
Definition accepted (specs : list string) : list (string * string) :=
  omap Record.check specs.

(** The value a list of pairs gives a key: that of its last pair of that
    key. *)
Fixpoint last_value (key : string) (pairs : list (string * string)) : option string :=
  match pairs with
  | [] => None
  | (k, v) :: pairs' =>
      match last_value key pairs' with
      | Some v' => Some v'
      | None => if decide (k = key) then Some v else None
      end
  end.

(** Change history (design, 4.4): the value of [key] before entry [i] is
    the first non-empty value of that key found in the strictly earlier
    entries, most recent first, and the original's value when there is
    none. *)
Definition earlier_value (key : string) (earlier : list dict) : option value :=
  head (filter (λ v, truthy v = true) (omap (λ e : dict, e !! key) (reverse earlier))).

Definition value_before (entries : list dict) (original_ : dict) (i : nat)
    (key : string) : option value :=
  match earlier_value key (take i entries) with
  | Some v => Some v
  | None => original_ !! key
  end.

(** The change history of one entry, and of a whole log, newest entry
    first: for each field of an entry, in the order in which the
    interpreter goes through the entry, its key and its line, [None]
    where the field has no value before. [l] is the list that holds the
    log. *)
Definition entry_history `{Interpreter} (l : addr) (entries : list dict)
    (original_ : dict) (i : nat) : list (string * option string) :=
  match entries !! i with
  | Some after =>
      map (λ kv, (kv.1, before ← value_before entries original_ i kv.1;
                        Some (Record.change_line kv.1 before kv.2)))
          (iteritems (Entry l i) after)
  | None => []
  end.

Definition history `{Interpreter} (l : addr) (entries : list dict) (original_ : dict)
    : list (string * option string) :=
  i ← reverse (seq 0 (length entries)); entry_history l entries original_ i.

(** Printing a history: the lines in order, up to the first field that
    has no value before, which is a [KeyError]. *)
Fixpoint show (lines : list (string * option string)) : M unit :=
  match lines with
  | [] => mret tt
  | (_, Some line) :: rest => print line;; show rest
  | (key, None) :: _ => raise (KeyError key)
  end.

(** The store with [lines] printed. *)
Definition with_printed (lines : list string) (σ : store) : store :=
  mkStore (objects σ) (lists σ) (records σ) (stdout σ ++ lines).

(** The operations that act on existing records. *)
Inductive operation : Type :=
| op_modify (self : addr) (specs : list string)
| op_mark_done (self : addr)
| op_remove_all (items : list string)
| op_mark_done_all (items : list string)
| op_modify_all (items : list string).

Definition perform (op : operation) : M unit :=
  match op with
  | op_modify self specs => Record.modify self specs
  | op_mark_done self => Record.mark_done self
  | op_remove_all items => Records.remove_all items
  | op_mark_done_all items => Records.mark_done_all items
  | op_modify_all items => Records.modify_all items
  end.

(** The store after a sequence of operations, whatever each one returns
    or raises. *)
Definition after (ops : list operation) (σ : store) : store :=
  foldl (λ σ op, (perform op σ).2) σ ops.

(** The modifications log of the record at [a]. *)
Definition log_of (σ : store) (a : addr) : option (list dict) :=
  r ← objects σ !! a; lists σ !! modifications r.

(** The store after the instances [rs] have been created and added to the
    collection, in order. *)
Definition with_added (rs : list RecordInstance) (σ : store) : store :=
  mkStore (objects σ ++ rs) (lists σ)
          (records σ ++ seq (length (objects σ)) (length rs)) (stdout σ).

(** A store to try things on: three records, two of them of the same
    name, all created by [parse], and so all with the same modifications
    list. *)
Definition example_store : store :=
  with_added
    [ mkRecord "a" "2024/01/01" "minor" (VBool false) default_modifications
        (Record.snapshot "a" "2024/01/01" "minor" (VBool false)) ∅;
      mkRecord "b" "2024/01/02" "minor" (VBool false) default_modifications
        (Record.snapshot "b" "2024/01/02" "minor" (VBool false)) ∅;
      mkRecord "b" "2024/01/03" "major" (VBool false) default_modifications
        (Record.snapshot "b" "2024/01/03" "major" (VBool false)) ∅ ]
    initial.

(** The dictionary that assigning the pairs in order builds, and the
    instance that assigning them in order leaves. *)
Definition entry_of (pairs : list (string * string)) : dict :=
  foldl (λ (e : dict) kv, <[kv.1 := VStr kv.2]> e) ∅ pairs.

Definition assign_all (pairs : list (string * string)) (r : RecordInstance)
    : RecordInstance :=
  foldl (λ r kv, default r (Record.assign kv.1 kv.2 r)) r pairs.

(** ** What an operation keeps

    [kept P σ σ']: every object of [σ] is still an object of [σ'], at the
    same address, and is related to what it was by [P]. *)
Definition kept (P : RecordInstance → RecordInstance → Prop) (σ σ' : store) : Prop :=
  ∀ a r, objects σ !! a = Some r → ∃ r', objects σ' !! a = Some r' ∧ P r r'.

(** [Keeps P m]: running [m] keeps [P], whether it returns or raises. *)
Definition Keeps {A} (P : RecordInstance → RecordInstance → Prop) (m : M A) : Prop :=
  ∀ σ, kept P σ (m σ).2.

Definition same_done_and_original (r r' : RecordInstance) : Prop :=
  done r' = done r ∧ original r' = original r.

Definition still_done_same_original (r r' : RecordInstance) : Prop :=
  (done r = VBool true → done r' = VBool true) ∧ original r' = original r.

(** A line of the file whose ["original"] is an empty object; [write]
    produces no such line. *)
Definition line_without_original : string :=
  text (json.dumps_chars (json.Object
    [ ("name", json.Str "a");
      ("due_date", json.Str "2024/01/01");
      ("priority", json.Str "minor");
      ("done", json.Bool true);
      ("original", json.Object []);
      ("modifications", json.Array []) ])).

(** The members [write] hands to [json.dumps], in the interpreter's
    order. *)
Definition write_members `{Interpreter} (self : addr) (r : RecordInstance)
    (entries : list dict) : list (string * json.value) :=
  iteritems (Written self) (Record.write_dict self r entries).

(** Text that is ASCII, and values, dictionaries and records whose text
    is. *)
Definition ascii_text (s : string) : Prop :=
  Forall (λ c, json.is_ascii c = true) (chars s).

Definition ascii_value (v : value) : Prop :=
  match v with
  | VStr s => ascii_text s
  | VBool _ => True
  end.

Definition ascii_dict (d : dict) : Prop :=
  map_Forall (λ key v, ascii_text key ∧ ascii_value v) d.

Definition ascii_record (r : RecordInstance) (entries : list dict) : Prop :=
  ascii_text (name r) ∧ ascii_text (due_date r) ∧ ascii_text (priority r)
  ∧ ascii_value (done r) ∧ ascii_dict (original r) ∧ Forall ascii_dict entries.

(** The stores in which [self] is the instance [r] and its log holds
    [entries]. *)
Definition holds (self : addr) (r : RecordInstance) (entries : list dict)
    (σ : store) : Prop :=
  objects σ !! self = Some r ∧ lists σ !! modifications r = Some entries.


(** The line that shows the current state of an instance: green when it
    is done, red when not; the name fills 20 columns or more. *)
Definition current_line (r : RecordInstance) : string :=
  Record.ESC +:+ (if truthy (done r) then "[32m" else "[31m")
  +:+ Record.pad 20 (name r)
  +:+ " " +:+ due_date r +:+ " " +:+ priority r +:+ Record.ESC +:+ "[0m".

(** The records of the collection, in order, when each is an object. *)
Definition collection (σ : store) : option (list RecordInstance) :=
  mapM (λ a, objects σ !! a) (records σ).

(** What listing with changes shows of one record: its line, then the
    history of its log. *)
Definition record_listing `{Interpreter} (σ : store) (r : RecordInstance)
    : list (string * option string) :=
  ("", Some (current_line r))
  :: match lists σ !! modifications r with
     | Some entries => history (modifications r) entries (original r)
     | None => []
     end.

(** The text of a file of the given lines. *)
Definition file_text (lines : list string) : string :=
  foldr (λ line f, line +:+ String newline f) EmptyString lines.

(** The records of the collection in order, each with the entries of its
    log, when every record and every log is in the store. *)
Definition contents (σ : store) : option (list (RecordInstance * list dict)) :=
  mapM (λ a, r ← objects σ !! a;
             entries ← lists σ !! modifications r;
             Some (r, entries)) (records σ).

(** What [write] persists of a record. *)
Definition persisted (re : RecordInstance * list dict)
    : string * string * string * value * dict * list dict :=
  (name re.1, due_date re.1, priority re.1, done re.1, original re.1, re.2).

(** The store after the records [res] have been loaded, each into a new
    object with a new list, and added to the collection. *)
Fixpoint loaded (res : list (RecordInstance * list dict)) (σ : store) : store :=
  match res with
  | [] => σ
  | (r, entries) :: res' =>
      loaded res'
        (mkStore
           (objects σ ++
            [mkRecord (name r) (due_date r) (priority r) (done r) (length (lists σ))
               (original r) ∅])
           (lists σ ++ [entries]) (records σ ++ [length (objects σ)]) (stdout σ))
  end.

(** No object of the store has an empty original. *)
Definition originals_set (σ : store) : Prop :=
  ∀ a r, objects σ !! a = Some r → original r ≠ ∅.

(** [m] keeps the originals set, whether it returns or raises. *)
Definition keeps_originals {A} (m : M A) : Prop :=
  ∀ σ, originals_set σ → originals_set (m σ).2.

(** An invocation without requests. *)
Definition no_requests : Namespace := mkNamespace false false [] [] [] [].

(** [σ] is [σb] with an empty collection after [k] records have been
    loaded: the collection holds [k] new objects, the [i]-th with the
    [i]-th of [k] new lists as its log. *)
Definition loaded_on (σb : store) (k : nat) (σ : store) : Prop :=
  length (objects σ) = length (objects σb) + k
  ∧ length (lists σ) = length (lists σb) + k
  ∧ records σ = seq (length (objects σb)) k
  ∧ ∀ i, i < k →
      ∃ r, objects σ !! (length (objects σb) + i) = Some r
           ∧ modifications r = length (lists σb) + i.

(** How deep the arrays and objects of a value are nested. *)
Fixpoint nesting (v : json.value) : nat :=
  match v with
  | json.Array items => S (foldr (λ x n, nesting x `max` n) 0 items)
  | json.Object members => S (foldr (λ m n, nesting (snd m) `max` n) 0 members)
  | _ => 0
  end.

(** A member as [dumps] writes it. *)
Definition dumps_member (m : string * json.value) : list ascii :=
  json.quote (chars (fst m)) ++ json.colon ++ json.dumps_chars (snd m).

(** The characters [json.dumps] writes as they are. *)
Definition printable (c : ascii) : bool :=
  ((32 <=? json.code c) && (json.code c <=? 126))%N.

(** * Properties *)

Example Date_check_ex1 : Date_check "2024/01/15" = true.
Proof. reflexivity. Qed.
Example Date_check_ex2 : Date_check "2024/13/40" = false.
Proof. reflexivity. Qed.
Example Date_check_ex3 : Date_check "2024/1/5" = true.
Proof. reflexivity. Qed.
Example Date_check_ex4 : Date_check "2024/02/30" = false.
Proof. reflexivity. Qed.
Example Date_check_ex5 : Date_check "2024/01/311" = false.
Proof. reflexivity. Qed.
Example Date_check_ex6 : Date_check "2024/01/ 5" = true.
Proof. reflexivity. Qed.
Example Date_check_ex7 : Date_check "0000/01/01" = false.
Proof. reflexivity. Qed.
Example split_ex : split ";" "a;;b;" = ["a"; ""; "b"; ""].
Proof. reflexivity. Qed.


(** *** [loads] inverts [dumps] *)

Module json_facts.
Import json.
#[local] Set Warnings "-clear-no-such-hyp".

Lemma chars_text l : chars (text l) = l.
Proof. apply list_ascii_of_string_of_list_ascii. Qed.

Lemma text_chars s : text (chars s) = s.
Proof. apply string_of_list_ascii_of_string. Qed.

Lemma length_chars s : length (chars s) = String.length s.
Proof. induction s; simpl; congruence. Qed.

(** Induction over a value and the values nested in it. *)
Lemma value_nested_ind (P : value → Prop) :
  P Null →
  (∀ b, P (Bool b)) →
  (∀ literal, P (Number literal)) →
  (∀ s, P (Str s)) →
  (∀ items, Forall P items → P (Array items)) →
  (∀ members, Forall (λ m, P (snd m)) members → P (Object members)) →
  ∀ v, P v.
Proof.
  intros HN HB HNum HS HA HO.
  fix IH 1. intros [ | b | literal | s | items | members ].
  - exact HN.
  - apply HB.
  - apply HNum.
  - apply HS.
  - apply HA. induction items as [ | x items IHitems ]; constructor.
    + apply IH.
    + exact IHitems.
  - apply HO. induction members as [ | [k x] members IHm ]; constructor.
    + apply IH.
    + exact IHm.
Qed.

Lemma bind_Ok {A B} (r : result A) (k : A → result B) b :
  r ≫= k = Ok b ↔ ∃ a, r = Ok a ∧ k a = Ok b.
Proof.
  destruct r as [ a | | ]; cbn; split; try done.
  - eauto.
  - by intros (a' & [= <-] & H).
  - by intros (a' & ? & _).
  - by intros (a' & ? & _).
Qed.

(** *** What can be written *)

Lemma encodable_text_Ok s :
  encodable_text s = Ok tt ↔ Forall (λ c, is_ascii c = true) s.
Proof.
  induction s as [ | c s IH ]; cbn [encodable_text].
  - split; [ constructor | done ].
  - rewrite Forall_cons. destruct (is_ascii c).
    + rewrite IH. naive_solver.
    + split; [ by destruct (never_starts c) | by intros [? _] ].
Qed.

Lemma encodable_Array items :
  encodable (Array items) = Ok tt ↔ Forall (λ x, encodable x = Ok tt) items.
Proof.
  induction items as [ | x items IH ].
  - split; [ constructor | done ].
  - rewrite Forall_cons, <- IH. cbn [encodable].
    destruct (encodable x) as [ [] | | ]; cbn; naive_solver.
Qed.

Lemma encodable_Object members :
  encodable (Object members) = Ok tt ↔
  Forall (λ m, encodable_text (chars (fst m)) = Ok tt ∧ encodable (snd m) = Ok tt)
         members.
Proof.
  induction members as [ | [k x] members IH ].
  - split; [ constructor | done ].
  - rewrite Forall_cons, <- IH. cbn [encodable fst snd].
    destruct (encodable_text (chars k)) as [ [] | | ]; cbn; [ | naive_solver.. ].
    destruct (encodable x) as [ [] | | ]; cbn; naive_solver.
Qed.

(** *** Reading back what was written *)

Lemma scan_escape_char c r :
  is_ascii c = true →
  scan_string (escape_char c ++ r)
  = '(str, rest) ← scan_string r; Ok (c :: str, rest).
Proof.
  destruct c as [[] [] [] [] [] [] [] []]; intros H; try discriminate H;
    reflexivity.
Qed.

Lemma scan_quoted s rest :
  Forall (λ c, is_ascii c = true) s →
  scan_string (concat (map escape_char s) ++ dquote :: rest) = Ok (s, rest).
Proof.
  induction 1 as [ | c s Hc _ IH ]; cbn [map concat app].
  - reflexivity.
  - rewrite <- app_assoc, scan_escape_char, IH by done. reflexivity.
Qed.

Lemma parse_value_S fuel depth s :
  parse_value (S fuel) depth s =
    let s := skip_ws s in
    match strip (chars "null") s with
    | Some r => Ok (Null, r)
    | None =>
    match strip (chars "true") s with
    | Some r => Ok (Bool true, r)
    | None =>
    match strip (chars "false") s with
    | Some r => Ok (Bool false, r)
    | None =>
    match s with
    | [] => Error
    | c :: r =>
        if Ascii.eqb c dquote then
          '(str, rest) ← scan_string r; Ok (Str (text str), rest)
        else if Ascii.eqb c "[" then
          match depth with
          | 0 => Beyond
          | S depth =>
              match strip ["]"%char] (skip_ws r) with
              | Some rest => Ok (Array [], rest)
              | None =>
                  '(items, rest) ← parse_items fuel depth r;
                  Ok (Array items, rest)
              end
          end
        else if Ascii.eqb c "{" then
          match depth with
          | 0 => Beyond
          | S depth =>
              match strip ["}"%char] (skip_ws r) with
              | Some rest => Ok (Object [], rest)
              | None =>
                  '(members, rest) ← parse_members fuel depth r;
                  Ok (Object members, rest)
              end
          end
        else
          match scan_number s with
          | Some (literal, rest) => Ok (Number (text literal), rest)
          | None =>
              match scan_constant s with
              | Some (literal, rest) => Ok (Number (text literal), rest)
              | None => Error
              end
          end
    end end end end.
Proof. reflexivity. Qed.

Lemma parse_items_S fuel depth s :
  parse_items (S fuel) depth s =
    '(v, r) ← parse_value fuel depth s;
    match skip_ws r with
    | c :: r1 =>
        if Ascii.eqb c "," then
          '(items, rest) ← parse_items fuel depth r1; Ok (v :: items, rest)
        else if Ascii.eqb c "]" then Ok ([v], r1)
        else Error
    | [] => Error
    end.
Proof. reflexivity. Qed.

Lemma parse_members_S fuel depth s :
  parse_members (S fuel) depth s =
    match skip_ws s with
    | c :: r =>
        if Ascii.eqb c dquote then
          '(key, r1) ← scan_string r;
          match skip_ws r1 with
          | c1 :: r2 =>
              if Ascii.eqb c1 ":" then
                '(v, r3) ← parse_value fuel depth r2;
                match skip_ws r3 with
                | c3 :: r4 =>
                    if Ascii.eqb c3 "," then
                      '(members, rest) ← parse_members fuel depth r4;
                      Ok ((text key, v) :: members, rest)
                    else if Ascii.eqb c3 "}" then Ok ([(text key, v)], r4)
                    else Error
                | [] => Error
                end
              else Error
          | [] => Error
          end
        else Error
    | [] => Error
    end.
Proof. reflexivity. Qed.

Lemma parse_value_space fuel depth s :
  parse_value fuel depth (" "%char :: s) = parse_value fuel depth s.
Proof.
  destruct fuel; [ done | ]. rewrite !parse_value_S.
  change (skip_ws (" "%char :: s)) with (skip_ws s). reflexivity.
Qed.

Lemma parse_items_space fuel depth s :
  parse_items fuel depth (" "%char :: s) = parse_items fuel depth s.
Proof.
  destruct fuel; [ done | ]. by rewrite !parse_items_S, parse_value_space.
Qed.

Lemma parse_members_space fuel depth s :
  parse_members fuel depth (" "%char :: s) = parse_members fuel depth s.
Proof. destruct fuel; [ done | ]. reflexivity. Qed.

Lemma dumps_chars_opens v :
  encodable v = Ok tt →
  ∃ c t, dumps_chars v = c :: t ∧ is_ws c = false ∧ Ascii.eqb "]" c = false.
Proof.
  destruct v as [ | [] | literal | s | items | members ]; intros H; try done;
    simpl; eexists _, _; (split; [ reflexivity | done ]).
Qed.

Lemma parse_items_dumps items closing depth :
  items ≠ [] →
  Forall (λ x, ∀ fuel rest, length (dumps_chars x) ≤ fuel →
               parse_value fuel depth (dumps_chars x ++ rest) = Ok (x, rest)) items →
  ∀ fuel, length (sep_by comma (map dumps_chars items)) < fuel →
    parse_items fuel depth (sep_by comma (map dumps_chars items) ++ "]"%char :: closing)
    = Ok (items, closing).
Proof.
  intros Hne Hall. induction Hall as [ | x items Hx Hall IH ]; [ done | ].
  intros fuel Hfuel. destruct fuel as [ | fuel ]; [ lia | ].
  rewrite parse_items_S. destruct items as [ | y items ].
  - simpl in *. rewrite (Hx fuel) by lia. reflexivity.
  - change (sep_by comma (map dumps_chars (x :: y :: items)))
      with (dumps_chars x ++ comma ++ sep_by comma (map dumps_chars (y :: items))) in *.
    rewrite !length_app in Hfuel. rewrite <- !app_assoc.
    rewrite (Hx fuel) by lia. simpl.
    rewrite parse_items_space. rewrite IH; [ done | done | simpl in *; lia ].
Qed.

Lemma parse_members_dumps members closing depth :
  members ≠ [] →
  Forall (λ m, Forall (λ c, is_ascii c = true) (chars (fst m))
               ∧ ∀ fuel rest, length (dumps_chars (snd m)) ≤ fuel →
                   parse_value fuel depth (dumps_chars (snd m) ++ rest)
                   = Ok (snd m, rest)) members →
  ∀ fuel, length (sep_by comma (map dumps_member members)) < fuel →
    parse_members fuel depth
      (sep_by comma (map dumps_member members) ++ "}"%char :: closing)
    = Ok (members, closing).
Proof.
  intros Hne Hall. induction Hall as [ | [k x] members [Hk Hx] Hall IH ]; [ done | ].
  intros fuel Hfuel. destruct fuel as [ | fuel ]; [ lia | ].
  rewrite parse_members_S. simpl in Hk, Hx. destruct members as [ | m members ].
  - simpl in *. unfold dumps_member, quote in *. simpl in *.
    rewrite <- !app_assoc. simpl. rewrite scan_quoted by done. simpl.
    rewrite parse_value_space.
    rewrite !length_app in Hfuel. simpl in Hfuel.
    rewrite (Hx fuel) by lia. simpl. by rewrite text_chars.
  - change (sep_by comma (map dumps_member ((k, x) :: m :: members)))
      with (dumps_member (k, x) ++ comma ++ sep_by comma (map dumps_member (m :: members))) in *.
    remember (sep_by comma (map dumps_member (m :: members))) as tl eqn:Htl.
    unfold dumps_member, quote in *. simpl fst in *; simpl snd in *.
    rewrite !length_app in Hfuel. simpl in Hfuel. rewrite !length_app in Hfuel.
    simpl in Hfuel.
    rewrite <- !app_assoc. simpl. rewrite <- !app_assoc. simpl.
    rewrite scan_quoted by done. simpl. rewrite parse_value_space.
    rewrite (Hx fuel) by lia. simpl.
    rewrite parse_members_space. subst tl. rewrite IH; [ | done | lia ].
    simpl. by rewrite text_chars.
Qed.

Lemma nesting_Array x items depth :
  nesting (Array (x :: items)) ≤ S depth ↔
  nesting x ≤ depth ∧ nesting (Array items) ≤ S depth.
Proof. cbn [nesting foldr]. lia. Qed.

Lemma nesting_Object m members depth :
  nesting (Object (m :: members)) ≤ S depth ↔
  nesting (snd m) ≤ depth ∧ nesting (Object members) ≤ S depth.
Proof. cbn [nesting foldr]. lia. Qed.

Lemma nesting_items items depth :
  nesting (Array items) ≤ S depth → Forall (λ x, nesting x ≤ depth) items.
Proof.
  induction items as [ | x items IH ]; [ constructor | ].
  intros [Hx Hitems]%nesting_Array. constructor; auto.
Qed.

Lemma nesting_members members depth :
  nesting (Object members) ≤ S depth → Forall (λ m, nesting (snd m) ≤ depth) members.
Proof.
  induction members as [ | m members IH ]; [ constructor | ].
  intros [Hx Hitems]%nesting_Object. constructor; auto.
Qed.

(** A value that can be written is read back from its text, by a reader
    with enough fuel and depth, whatever follows the text. *)
Lemma parse_value_dumps v :
  encodable v = Ok tt →
  ∀ fuel depth rest,
    length (dumps_chars v) ≤ fuel → nesting v ≤ depth →
    parse_value fuel depth (dumps_chars v ++ rest) = Ok (v, rest).
Proof.
  induction v as [ | b | literal | s | items IH | members IH ] using value_nested_ind;
    intros Hv fuel depth rest Hfuel Hdepth; [ | | done | | | ];
    (destruct fuel as [ | fuel ];
     [ unfold quote in Hfuel; simpl in Hfuel; try destruct b; simpl in Hfuel; lia | ]).
  - reflexivity.
  - destruct b; reflexivity.
  - rewrite parse_value_S. simpl. unfold quote. simpl.
    rewrite <- app_assoc. simpl. rewrite scan_quoted by by apply encodable_text_Ok.
    simpl. by rewrite text_chars.
  - destruct depth as [ | depth ]; [ cbn in Hdepth; lia | ].
    apply encodable_Array in Hv. apply nesting_items in Hdepth.
    rewrite parse_value_S. destruct items as [ | x items ]; [ reflexivity | ].
    change (dumps_chars (Array (x :: items)))
      with ("["%char :: sep_by comma (map dumps_chars (x :: items)) ++ ["]"%char]) in *.
    assert (Hopen : ∃ c t, sep_by comma (map dumps_chars (x :: items)) = c :: t
                           ∧ is_ws c = false ∧ Ascii.eqb "]" c = false).
    { apply Forall_cons in Hv as [Hx _].
      destruct (dumps_chars_opens x Hx) as (c & t & Hc & Ho). simpl.
      rewrite Hc. destruct items; simpl; eauto. }
    assert (Hitems : Forall (λ x, ∀ fuel rest, length (dumps_chars x) ≤ fuel →
                parse_value fuel depth (dumps_chars x ++ rest) = Ok (x, rest))
              (x :: items)).
    { apply Forall_forall. intros y Hy fuel' rest' Hfuel'.
      rewrite Forall_forall in IH, Hv, Hdepth. apply IH; auto. }
    remember (sep_by comma (map dumps_chars (x :: items))) as body eqn:Hb.
    destruct Hopen as (c & t & Hbody & Hws & Hcl).
    simpl in Hfuel. rewrite length_app in Hfuel. simpl in Hfuel.
    simpl. rewrite <- app_assoc. simpl. rewrite Hbody. simpl. rewrite Hws.
    simpl. simpl in Hcl. rewrite Hcl.
    change (c :: t ++ "]"%char :: rest) with ((c :: t) ++ "]"%char :: rest).
    rewrite <- Hbody. subst body.
    rewrite parse_items_dumps; [ done | done | done | lia ].
  - destruct depth as [ | depth ]; [ cbn in Hdepth; lia | ].
    apply encodable_Object in Hv. apply nesting_members in Hdepth.
    rewrite parse_value_S. destruct members as [ | m members ]; [ reflexivity | ].
    change (dumps_chars (Object (m :: members)))
      with ("{"%char :: sep_by comma (map dumps_member (m :: members)) ++ ["}"%char]) in *.
    assert (Hopen : ∃ t, sep_by comma (map dumps_member (m :: members)) = dquote :: t).
    { simpl. unfold dumps_member at 1, quote. simpl.
      destruct members; simpl; eauto. }
    assert (Hmembers :
              Forall (λ m, Forall (λ c, is_ascii c = true) (chars (fst m))
                ∧ ∀ fuel rest, length (dumps_chars (snd m)) ≤ fuel →
                    parse_value fuel depth (dumps_chars (snd m) ++ rest)
                    = Ok (snd m, rest)) (m :: members)).
    { apply Forall_forall. intros y Hy.
      rewrite Forall_forall in IH, Hv, Hdepth. destruct (Hv y Hy) as [Hk Hx].
      split; [ by apply encodable_text_Ok | ].
      intros fuel' rest' Hfuel'. apply IH; auto. }
    remember (sep_by comma (map dumps_member (m :: members))) as body eqn:Hb.
    destruct Hopen as (t & Hbody).
    simpl in Hfuel. rewrite length_app in Hfuel. simpl in Hfuel.
    simpl. rewrite <- app_assoc. simpl. rewrite Hbody. simpl.
    change (dquote :: t ++ "}"%char :: rest) with ((dquote :: t) ++ "}"%char :: rest).
    rewrite <- Hbody. subst body.
    rewrite parse_members_dumps; [ done | done | done | lia ].
Qed.

(** *** The characters of a written text *)

Lemma escape_char_printable c :
  is_ascii c = true → forallb printable (escape_char c) = true.
Proof.
  destruct c as [[] [] [] [] [] [] [] []]; intros H; try discriminate H;
    vm_compute; reflexivity.
Qed.

Lemma quote_printable s :
  Forall (λ c, is_ascii c = true) s → Forall (λ x, printable x = true) (quote s).
Proof.
  intros Hs. unfold quote. constructor; [ done | ]. apply Forall_app. split.
  - induction Hs as [ | c s Hc _ IH ]; [ constructor | ].
    cbn [map concat]. apply Forall_app. split; [ | done ].
    apply Forall_forall. intros x Hx.
    pose proof (escape_char_printable c Hc) as H. rewrite forallb_forall in H.
    apply H. by apply list_elem_of_In.
  - by repeat constructor.
Qed.

Lemma sep_by_printable sep parts :
  Forall (λ x, printable x = true) sep →
  Forall (Forall (λ x, printable x = true)) parts →
  Forall (λ x, printable x = true) (sep_by sep parts).
Proof.
  intros Hsep. induction 1 as [ | p parts Hp Hparts IH ]; [ constructor | ].
  destruct parts as [ | q parts ]; [ done | ].
  change (sep_by sep (p :: q :: parts)) with (p ++ sep ++ sep_by sep (q :: parts)).
  rewrite !Forall_app. done.
Qed.

Lemma dumps_chars_printable v :
  encodable v = Ok tt → Forall (λ x, printable x = true) (dumps_chars v).
Proof.
  induction v as [ | b | literal | s | items IH | members IH ] using value_nested_ind;
    intros Hv.
  - by repeat constructor.
  - destruct b; by repeat constructor.
  - done.
  - apply quote_printable. by apply encodable_text_Ok.
  - apply encodable_Array in Hv.
    cbn [dumps_chars]. constructor; [ done | ]. apply Forall_app. split.
    + apply sep_by_printable; [ by repeat constructor | ].
      apply Forall_fmap, Forall_forall. intros x Hx.
      rewrite Forall_forall in IH, Hv. by apply IH; [ | apply Hv ].
    + by repeat constructor.
  - apply encodable_Object in Hv.
    cbn [dumps_chars]. constructor; [ done | ]. apply Forall_app. split.
    + apply sep_by_printable; [ by repeat constructor | ].
      apply Forall_fmap, Forall_forall. intros [k x] Hm.
      rewrite Forall_forall in IH, Hv. destruct (Hv _ Hm) as [Hk Hx].
      unfold compose. cbn [fst snd] in *. rewrite !Forall_app.
      split; [ by apply quote_printable, encodable_text_Ok | ].
      split; [ by repeat constructor | ]. by apply (IH _ Hm).
    + by repeat constructor.
Qed.

Lemma printable_is_ascii l :
  Forall (λ x, printable x = true) l → forallb is_ascii l = true.
Proof.
  induction 1 as [ | c l Hc _ IH ]; [ done | ]. cbn [forallb]. rewrite IH.
  destruct c as [[] [] [] [] [] [] [] []]; try reflexivity; by vm_compute in Hc.
Qed.

(** [loads] reads back what [dumps] returns, also with white space after
    it. *)
Lemma loads_dumps v s ws :
  dumps v = Ok s → nesting v ≤ max_depth → forallb is_ws ws = true →
  loads (s +:+ text ws) = Ok v.
Proof.
  unfold dumps. intros Hs Hdepth Hws.
  destruct (encodable v) as [ [] | | ] eqn:Hv; [ | done.. ]. injection Hs as <-.
  unfold loads.
  assert (Hchars : chars (text (dumps_chars v) +:+ text ws) = dumps_chars v ++ ws).
  { rewrite <- (chars_text (dumps_chars v ++ ws)). f_equal.
    generalize (dumps_chars v) as l. induction l as [ | c l IH ]; [ done | ].
    change (String c (text l +:+ text ws) = String c (text (l ++ ws))).
    by rewrite IH. }
  rewrite Hchars.
  assert (Hall : forallb is_ascii (dumps_chars v ++ ws) = true).
  { rewrite forallb_app, (printable_is_ascii _ (dumps_chars_printable v Hv)).
    cbn [andb]. clear -Hws. induction ws as [ | c ws IH ]; [ done | ].
    cbn [forallb] in *. apply andb_prop in Hws as [Hc Hws]. rewrite (IH Hws).
    destruct c as [[] [] [] [] [] [] [] []]; try reflexivity; by vm_compute in Hc. }
  rewrite Hall, (parse_value_dumps v Hv) by (rewrite ?length_app; lia || done).
  cbn. clear -Hws. induction ws as [ | c ws IH ]; [ done | ].
  cbn [forallb skip_ws] in *. apply andb_prop in Hws as [Hc Hws].
  rewrite Hc. by apply IH.
Qed.

End json_facts.

(** ** The date rule *)
Module datetime_facts.
Import datetime.

#[local] Set Warnings "-clear-no-such-hyp".

Lemma digit_range c d : digit c = Some d → (0 ≤ d ≤ 9)%Z.
Proof.
  unfold digit. case_bool_decide; [ | done ]. intros [= <-]. lia.
Qed.

Lemma digit_not_slash c d : digit c = Some d → Ascii.eqb c "/" = false.
Proof.
  intros H. destruct (Ascii.eqb_spec c "/") as [-> | ]; [ | done ]. done.
Qed.

Lemma digit_not_space c d : digit c = Some d → Ascii.eqb c " " = false.
Proof.
  intros H. destruct (Ascii.eqb_spec c " ") as [-> | ]; [ | done ]. done.
Qed.

Lemma elem_of_ret {A} (a : A) s x : x ∈ ret a s ↔ x = (a, s).
Proof. unfold ret. apply list_elem_of_singleton. Qed.

Lemma elem_of_seq {A B} (p : matcher A) (k : A → matcher B) s x :
  x ∈ seq_ p k s ↔ ∃ a r, (a, r) ∈ p s ∧ x ∈ k a r.
Proof.
  unfold seq_. rewrite list_elem_of_bind. split.
  - intros ([a r] & Hx & Ha). eauto.
  - intros (a & r & Ha & Hx). exists (a, r). eauto.
Qed.

Lemma elem_of_alt {A} (p q : matcher A) s x :
  x ∈ alt p q s ↔ x ∈ p s ∨ x ∈ q s.
Proof. unfold alt. apply elem_of_app. Qed.

Lemma elem_of_cls lo hi s d r :
  (d, r) ∈ cls lo hi s ↔ ∃ c, s = c :: r ∧ digit c = Some d ∧ (lo ≤ d ≤ hi)%Z.
Proof.
  unfold cls. destruct s as [ | c s ].
  - rewrite elem_of_nil. naive_solver.
  - destruct (digit c) as [ d' | ] eqn:Hd.
    + case_bool_decide.
      * rewrite list_elem_of_singleton. naive_solver.
      * rewrite elem_of_nil. naive_solver.
    + rewrite elem_of_nil. naive_solver.
Qed.

Lemma elem_of_lit c s r : (tt, r) ∈ lit c s ↔ s = c :: r.
Proof.
  unfold lit. destruct s as [ | c' s ].
  - rewrite elem_of_nil. naive_solver.
  - destruct (Ascii.eqb_spec c' c) as [-> | Hne].
    + rewrite list_elem_of_singleton. naive_solver.
    + rewrite elem_of_nil. naive_solver.
Qed.

Lemma elem_of_two lo1 hi1 lo2 hi2 s n r :
  (n, r) ∈ two lo1 hi1 lo2 hi2 s ↔
  ∃ a b da db, s = a :: b :: r ∧ digit a = Some da ∧ digit b = Some db
    ∧ (lo1 ≤ da ≤ hi1)%Z ∧ (lo2 ≤ db ≤ hi2)%Z ∧ n = (10 * da + db)%Z.
Proof.
  unfold two. rewrite elem_of_seq. split.
  - intros (da & r1 & H1 & H2). apply elem_of_seq in H2 as (db & r2 & H2 & H3).
    apply elem_of_ret in H3 as [= -> ->].
    apply elem_of_cls in H1 as (a & -> & Ha & ?).
    apply elem_of_cls in H2 as (b & -> & Hb & ?).
    naive_solver.
  - intros (a & b & da & db & -> & Ha & Hb & ? & ? & ->).
    exists da, (b :: r). split; [ apply elem_of_cls; eauto | ].
    apply elem_of_seq. exists db, r. split; [ apply elem_of_cls; eauto | ].
    by apply elem_of_ret.
Qed.


Ltac digits :=
  repeat match goal with
  | H : digit ?c = Some ?d |- _ =>
      lazymatch goal with
      | _ : (0 ≤ d ≤ 9)%Z |- _ => fail
      | _ => pose proof (digit_range c d H)
      end
  end.

Ltac run1 :=
  match goal with
  | H : digit ?c = Some _ |- context [digit ?c] => rewrite H
  | |- context [bool_decide (?lo ≤ ?d ≤ ?hi)%Z] =>
      first [ rewrite (bool_decide_eq_true_2 (lo ≤ d ≤ hi)%Z) by lia
            | rewrite (bool_decide_eq_false_2 (lo ≤ d ≤ hi)%Z) by lia ]
  | H : digit ?c = Some _ |- context [Ascii.eqb ?c "/"] =>
      rewrite (digit_not_slash c _ H)
  | H : digit ?c = Some _ |- context [Ascii.eqb ?c " "] =>
      rewrite (digit_not_space c _ H)
  end.

Ltac run := unfold two, seq_, alt, cls, lit, ret; simpl; repeat (run1; simpl).

Lemma re_Y_run a b c d va vb vc vd r :
  digit a = Some va → digit b = Some vb → digit c = Some vc → digit d = Some vd →
  re_Y (a :: b :: c :: d :: r) = [((1000 * va + 100 * vb + 10 * vc + vd)%Z, r)].
Proof. intros. digits. unfold re_Y. run. reflexivity. Qed.


Lemma number_1 a n : number [a] = Some n ↔ digit a = Some n.
Proof.
  simpl. destruct (digit a) as [ da | ]; simpl; [ | done ].
  split; intros [= <-]; f_equal; lia.
Qed.

Lemma number_2 a b n :
  number [a; b] = Some n ↔
  ∃ da db, digit a = Some da ∧ digit b = Some db ∧ n = (10 * da + db)%Z.
Proof.
  simpl. destruct (digit a) as [ da | ]; simpl; [ | naive_solver ].
  destruct (digit b) as [ db | ]; simpl; [ | naive_solver ].
  split.
  - intros [= <-]. exists da, db. repeat split; lia.
  - intros (? & ? & [= <-] & [= <-] & ->). f_equal; lia.
Qed.

Lemma number_4 a b c d n :
  number [a; b; c; d] = Some n ↔
  ∃ da db dc dd, digit a = Some da ∧ digit b = Some db ∧ digit c = Some dc
    ∧ digit d = Some dd ∧ n = (1000 * da + 100 * db + 10 * dc + dd)%Z.
Proof.
  simpl. destruct (digit a) as [ da | ]; simpl; [ | naive_solver ].
  destruct (digit b) as [ db | ]; simpl; [ | naive_solver ].
  destruct (digit c) as [ dc | ]; simpl; [ | naive_solver ].
  destruct (digit d) as [ dd | ]; simpl; [ | naive_solver ].
  split.
  - intros [= <-]. exists da, db, dc, dd. repeat split; lia.
  - intros (? & ? & ? & ? & [= <-] & [= <-] & [= <-] & [= <-] & ->). f_equal; lia.
Qed.

(** What each part of the expression can match. *)

Lemma re_Y_elem y r s :
  (y, r) ∈ re_Y s → ∃ Y, s = Y ++ r ∧ field_text true 4 Y y.
Proof.
  unfold re_Y. intros H.
  apply elem_of_seq in H as (da & r1 & Ha & H). apply elem_of_cls in Ha as (a & -> & Ha & _).
  apply elem_of_seq in H as (db & r2 & Hb & H). apply elem_of_cls in Hb as (b & -> & Hb & _).
  apply elem_of_seq in H as (dc & r3 & Hc & H). apply elem_of_cls in Hc as (c & -> & Hc & _).
  apply elem_of_seq in H as (dd & r4 & Hd & H). apply elem_of_cls in Hd as (d & -> & Hd & _).
  apply elem_of_ret in H as [= -> ->].
  exists [a; b; c; d]. split; [ done | ]. split; [ | by left ].
  apply number_4. naive_solver.
Qed.

Lemma re_m_elem m r s :
  (m, r) ∈ re_m s →
  ∃ M, s = M ++ r ∧ field_text false 2 M m ∧ (1 ≤ m ≤ 12)%Z.
Proof.
  unfold re_m. rewrite !elem_of_alt, !elem_of_two, elem_of_cls.
  intros [ H | [ H | H ] ].
  - destruct H as (a & b & da & db & -> & Ha & Hb & ? & ? & ->).
    exists [a; b]. split; [ done | ]. split; [ | lia ].
    split; [ apply number_2; naive_solver | by left ].
  - destruct H as (a & b & da & db & -> & Ha & Hb & ? & ? & ->).
    exists [a; b]. split; [ done | ]. split; [ | lia ].
    split; [ apply number_2; naive_solver | by left ].
  - destruct H as (a & -> & Ha & ?).
    exists [a]. split; [ done | ]. split; [ | lia ].
    split; [ by apply number_1 | right; simpl; split; [ done | lia ] ].
Qed.

Lemma re_d_elem d r s :
  (d, r) ∈ re_d s →
  ∃ D, s = D ++ r ∧ day_text false D d ∧ (1 ≤ d ≤ 31)%Z.
Proof.
  unfold re_d. rewrite !elem_of_alt, !elem_of_two, elem_of_cls, elem_of_seq.
  intros [ H | [ H | [ H | [ H | H ] ] ] ].
  1-3: destruct H as (a & b & da & db & -> & Ha & Hb & ? & ? & ->);
    exists [a; b]; (split; [ done | ]); (split; [ | lia ]);
    left; (split; [ apply number_2; naive_solver | by left ]).
  - destruct H as (a & -> & Ha & ?).
    exists [a]. split; [ done | ]. split; [ | lia ].
    left. split; [ by apply number_1 | right; simpl; split; [ done | lia ] ].
  - destruct H as ([] & r1 & Hsp & H). apply elem_of_lit in Hsp as ->.
    apply elem_of_cls in H as (c & -> & Hc & ?).
    exists [" "%char; c]. split; [ done | ]. split; [ | lia ].
    right. eauto.
Qed.

(** What the expression does on a text of the accepted form. *)

Lemma field_2_inv M m :
  field_text false 2 M m →
  (∃ a, M = [a] ∧ digit a = Some m)
  ∨ (∃ a b da db, M = [a; b] ∧ digit a = Some da ∧ digit b = Some db
       ∧ m = (10 * da + db)%Z).
Proof.
  intros [Hn Hlen].
  destruct M as [ | a [ | b [ | c M ] ] ]; simpl in Hlen.
  - done.
  - left. exists a. split; [ done | by apply number_1 ].
  - right. apply number_2 in Hn as (da & db & ? & ? & ->). naive_solver.
  - lia.
Qed.

Lemma re_m_run M m :
  field_text false 2 M m → (1 ≤ m ≤ 12)%Z →
  ∀ B (K : Z → matcher B) r,
    seq_ re_m (λ m', seq_ (lit "/") (λ _, K m')) (M ++ "/"%char :: r) = K m r.
Proof.
  intros HM Hm B K r.
  destruct (field_2_inv M m HM) as
    [ (a & -> & Ha) | (a & b & da & db & -> & Ha & Hb & ->) ]; digits.
  - unfold re_m. destruct (decide (m = 1%Z)) as [ -> | ]; run; by rewrite ?app_nil_r.
  - unfold re_m. destruct (decide (da = 1%Z)) as [ -> | ]; run; by rewrite ?app_nil_r.
Qed.

Lemma re_d_run D d :
  day_text false D d → (1 ≤ d ≤ 31)%Z →
  ∀ B (f : Z → B), head (seq_ re_d (λ d', ret (f d')) D) = Some (f d, []).
Proof.
  intros HD Hd B K. destruct HD as [ HD | (_ & c & -> & Hc) ].
  - destruct (field_2_inv D d HD) as
      [ (a & -> & Ha) | (a & b & da & db & -> & Ha & Hb & ->) ]; digits.
    + unfold re_d.
      destruct (decide (d = 3%Z)) as [ -> | ];
        [ | destruct (decide (1 ≤ d ≤ 2)%Z) ]; run; by rewrite ?app_nil_r.
    + unfold re_d.
      destruct (decide (da = 3%Z)) as [ -> | ];
        [ | destruct (decide (1 ≤ da ≤ 2)%Z) ]; run; by rewrite ?app_nil_r.
  - digits. unfold re_d. run. done.
Qed.

Lemma re_Ymd_run Y M D y m d :
  field_text true 4 Y y → field_text false 2 M m → day_text false D d →
  (1 ≤ m ≤ 12)%Z → (1 ≤ d ≤ 31)%Z →
  head (re_Ymd (Y ++ "/"%char :: M ++ "/"%char :: D)) = Some ((y, m, d), []).
Proof.
  intros [HY HlenY] HM HD Hm Hd.
  destruct HlenY as [ HlenY | [? _] ]; [ | done ].
  destruct Y as [ | a [ | b [ | c [ | e [ | ] ] ] ] ]; try done.
  apply number_4 in HY as (da & db & dc & dd & Ha & Hb & Hc & He & ->).
  unfold re_Ymd.
  change (seq_ re_Y ?k ([a; b; c; e] ++ ?r)) with
    ('(y', r') ← re_Y (a :: b :: c :: e :: r); k y' r').
  rewrite (re_Y_run _ _ _ _ _ _ _ _ _ Ha Hb Hc He). simpl.
  rewrite app_nil_r. unfold seq_ at 1. simpl. rewrite app_nil_r.
  rewrite (re_m_run M m HM Hm). by apply re_d_run.
Qed.

Lemma days_in_month_le y m : (days_in_month y m ≤ 31)%Z.
Proof.
  unfold days_in_month. repeat case_bool_decide; destruct (is_leap y); lia.
Qed.

Lemma strptime_Ymd_Some target y m d :
  strptime_Ymd target = Some (y, m, d) ↔
  head (re_Ymd (chars target)) = Some ((y, m, d), [])
  ∧ (1 ≤ y ∧ 1 ≤ d ≤ days_in_month y m)%Z.
Proof.
  unfold strptime_Ymd.
  destruct (head (re_Ymd (chars target))) as [ [[[y' m'] d'] [ | c rest ]] | ];
    [ | naive_solver.. ].
  case_bool_decide; naive_solver.
Qed.

Lemma strict_is_lenient target : date_text true target → date_text false target.
Proof.
  intros (Y & M & D & y & m & d & Hs & HY & [HM HlenM] & HD & Hcal).
  exists Y, M, D, y, m, d. split; [ done | ]. split; [ done | ].
  split; [ | split; [ | done ] ].
  - split; [ done | ]. destruct HlenM as [ ? | [? _] ]; [ by left | done ].
  - destruct HD as [ [HD HlenD] | [? _] ]; [ | done ].
    left. split; [ done | ]. destruct HlenD as [ ? | [? _] ]; [ by left | done ].
Qed.

End datetime_facts.

(** C6, as stated, fails: the rule accepts a date whose month and day are
    written with one digit, which is not of the form YYYY/MM/DD with a
    2-digit month and a 2-digit day. *)
Lemma Date_check_accepts_short_fields :
  ¬ (Date_check "2024/1/5" = true ↔ date_text true "2024/1/5").
Proof.
  intros [Hacc _]. specialize (Hacc eq_refl).
  destruct Hacc as (Y & M & D & y & m & d & Hs & [_ HY] & [_ HM] & HD & _).
  apply (f_equal length) in Hs. rewrite !length_app in Hs. simpl in Hs.
  rewrite !length_app in Hs. simpl in Hs.
  destruct HY as [ HY | [? _] ]; [ | done ].
  destruct HM as [ HM | [? _] ]; [ | done ].
  destruct HD as [ [_ [ HD | [? _] ]] | [? _] ]; [ | done | done ].
  lia.
Qed.

(** C6, amended: the Date rule accepts a value if and only if
    [strptime(value, '%Y/%m/%d')] parses it, that is, if and only if it is
    a calendar date written as a 4-digit year, a month of one or two
    digits and a day of one or two digits (or a space and one digit),
    separated by '/', with nothing before or after. *)
Theorem Date_check_iff_date_text target :
  Date_check target = true ↔ date_text false target.
Proof.
  unfold Date_check. rewrite bool_decide_eq_true. split.
  - intros Hparsed.
    destruct (datetime.strptime_Ymd target) as [ [[y m] d] | ] eqn:E; [ | done ].
    apply datetime_facts.strptime_Ymd_Some in E as [Hhead [Hy Hd]].
    apply head_Some_elem_of in Hhead. unfold datetime.re_Ymd in Hhead.
    apply datetime_facts.elem_of_seq in Hhead as (y' & r1 & HY & H).
    apply datetime_facts.elem_of_seq in H as (u1 & r2 & Hs1 & H); destruct u1.
    apply datetime_facts.elem_of_seq in H as (m' & r3 & HM & H).
    apply datetime_facts.elem_of_seq in H as (u2 & r4 & Hs2 & H); destruct u2.
    apply datetime_facts.elem_of_seq in H as (d' & r5 & HD & H).
    apply datetime_facts.elem_of_ret in H as [= <- <- <- <-].
    apply datetime_facts.elem_of_lit in Hs1 as ->.
    apply datetime_facts.elem_of_lit in Hs2 as ->.
    apply datetime_facts.re_Y_elem in HY as (Y & HY & HYt).
    apply datetime_facts.re_m_elem in HM as (M & -> & HMt & Hm).
    apply datetime_facts.re_d_elem in HD as (D & -> & HDt & Hd').
    rewrite app_nil_r in HY.
    exists Y, M, D, y, m, d. unfold calendar_date. done.
  - intros (Y & M & D & y & m & d & Hs & HY & HM & HD & Hy & Hm & Hd).
    pose proof (datetime_facts.days_in_month_le y m).
    assert (datetime.strptime_Ymd target = Some (y, m, d)) as ->; [ | done ].
    apply datetime_facts.strptime_Ymd_Some. split; [ | done ].
    rewrite Hs. apply datetime_facts.re_Ymd_run; [ done.. | lia ].
Qed.

(** ** The schema *)

Lemma schema_keys_eq :
  Record.schema_keys = ["ordered_keys"; "name"; "due_date"; "priority"].
Proof. vm_compute. reflexivity. Qed.

Lemma schema_ordered_keys_eq :
  Record.schema !! "ordered_keys" = Some (Record.keys ["name"; "due_date"; "priority"]).
Proof. vm_compute. reflexivity. Qed.

Lemma schema_name_eq : Record.schema !! "name" = Some (Record.rule (String' 20)).
Proof. vm_compute. reflexivity. Qed.

Lemma schema_due_date_eq : Record.schema !! "due_date" = Some (Record.rule Date).
Proof. vm_compute. reflexivity. Qed.

Lemma schema_priority_eq : Record.schema !! "priority" = Some (Record.rule Priority).
Proof. vm_compute. reflexivity. Qed.

#[global] Arguments Record.schema : simpl never.

(** ** Parsing a line *)

(** ** Running a computation *)

Lemma bind_run {A B} (m : M A) (f : A → M B) σ :
  (m ≫= f) σ =
    match m σ with
    | (Return a, σ') => f a σ'
    | (Raise e, σ') => (Raise e, σ')
    end.
Proof. reflexivity. Qed.

Lemma ret_run {A} (a : A) σ : (mret a : M A) σ = (Return a, σ).
Proof. reflexivity. Qed.

Lemma raise_run {A} e σ : (raise e : M A) σ = (Raise e, σ).
Proof. reflexivity. Qed.

Lemma index_run {A} (l : list A) (i : nat) x σ :
  l !! i = Some x → index l (Z.of_nat i) σ = (Return x, σ).
Proof.
  intros Hx. pose proof (lookup_lt_Some _ _ _ Hx). unfold index.
  rewrite (bool_decide_eq_false_2 (Z.of_nat i < 0)%Z) by lia.
  rewrite bool_decide_eq_true_2 by lia. by rewrite Nat2Z.id, Hx.
Qed.

Lemma item_run {V} (d : gmap string V) key v σ :
  d !! key = Some v → item d key σ = (Return v, σ).
Proof. intros Hv. unfold item. by rewrite Hv. Qed.

Lemma item_run_None {V} (d : gmap string V) key σ :
  d !! key = None → item d key σ = (Raise (KeyError key), σ).
Proof. intros Hv. unfold item. by rewrite Hv. Qed.

Ltac mrun :=
  repeat first
    [ rewrite bind_run
    | rewrite ret_run
    | rewrite raise_run
    | progress cbn beta iota ].

Lemma parse_spec line σ :
  Record.parse line σ =
    match parse_outcome line with
    | inl e => (Raise e, σ)
    | inr r => (Return (length (objects σ)), with_object r σ)
    end.
Proof.
  unfold Record.parse, parse_outcome. rewrite schema_keys_eq.
  destruct (split ";" line) as [ | n [ | d [ | p [ | q rest ] ] ] ]; try reflexivity.
  rewrite decide_False by (simpl; lia).
  unfold Record.schema_ordered_keys, Record.schema_check.
  change (seq 0 (length [n; d; p])) with [0; 1; 2]. unfold for_fold.
  mrun. rewrite (item_run _ _ _ _ schema_ordered_keys_eq). mrun.
  rewrite (index_run [n; d; p] 0 n) by done. mrun.
  rewrite (index_run _ 0 "name") by done. mrun.
  rewrite (item_run _ _ _ _ schema_name_eq). mrun. cbn [Rule_check].
  destruct (String_check 20 n); [ | reflexivity ]. mrun.
  rewrite (index_run [n; d; p] 1 d) by done. mrun.
  rewrite (index_run _ 1 "due_date") by done. mrun.
  rewrite (item_run _ _ _ _ schema_due_date_eq). mrun. cbn [Rule_check].
  destruct (Date_check d); [ | reflexivity ]. mrun.
  rewrite (index_run [n; d; p] 2 p) by done. mrun.
  rewrite (index_run _ 2 "priority") by done. mrun.
  rewrite (item_run _ _ _ _ schema_priority_eq). mrun. cbn [Rule_check].
  destruct (Priority_check p); [ | reflexivity ]. mrun.
  rewrite (item_run _ "name" n) by by simplify_map_eq. mrun.
  rewrite (item_run _ "due_date" d) by by simplify_map_eq. mrun.
  rewrite (item_run _ "priority" p) by by simplify_map_eq. mrun.
  reflexivity.
Qed.

(** C2: [parse] raises [SchemaError] unless the line splits on [;] into
    exactly 3 segments; otherwise it checks the segments in the order name,
    due date, priority and raises [SchemaError], naming the segment, on the
    first that fails its rule; when all pass it creates the record. The
    four lines of the design's examples behave as it says. *)
Theorem parse_checks_in_order line σ :
  (length (split ";" line) ≠ 3 →
     Record.parse line σ
     = (Raise (SchemaError ("Item does not fit schema: " +:+ line)), σ))
  ∧ (∀ n d p, split ";" line = [n; d; p] →
       Record.parse line σ =
         if negb (String_check 20 n) then
           (Raise (SchemaError ("Rule check failed on field: " +:+ n)), σ)
         else if negb (Date_check d) then
           (Raise (SchemaError ("Rule check failed on field: " +:+ d)), σ)
         else if negb (Priority_check p) then
           (Raise (SchemaError ("Rule check failed on field: " +:+ p)), σ)
         else
           (Return (length (objects σ)),
            with_object
              (mkRecord n d p (VBool false) default_modifications
                 (Record.snapshot n d p (VBool false)) ∅) σ))
  ∧ (∃ σ', Record.parse "short name;2024/01/15;major" σ
           = (Return (length (objects σ)), σ'))
  ∧ Record.parse "bad;2024/13/40;major" σ
    = (Raise (SchemaError "Rule check failed on field: 2024/13/40"), σ)
  ∧ Record.parse "n;2024/01/01;urgent" σ
    = (Raise (SchemaError "Rule check failed on field: urgent"), σ)
  ∧ Record.parse "a;b" σ
    = (Raise (SchemaError "Item does not fit schema: a;b"), σ).
Proof.
  split_and!.
  - intros Hlen. rewrite parse_spec. unfold parse_outcome.
    by destruct (split ";" line) as [ | n [ | d [ | p [ | q rest ] ] ] ].
  - intros n d p Hsplit. rewrite parse_spec. unfold parse_outcome. rewrite Hsplit.
    destruct (String_check 20 n); [ | done ].
    destruct (Date_check d); [ | done ].
    by destruct (Priority_check p).
  - rewrite parse_spec. eexists. reflexivity.
  - by rewrite parse_spec.
  - by rewrite parse_spec.
  - by rewrite parse_spec.
Qed.

Lemma parse_checks_in_order_witness :
  Record.parse "a;" initial
  = (Raise (SchemaError "Item does not fit schema: a;"), initial).
Proof.
  apply (proj1 (parse_checks_in_order "a;" initial)). simpl. lia.
Defined.

(** ** Adding a batch of lines *)

Lemma add_run record σ :
  Records.add record σ
  = (Return tt, mkStore (objects σ) (lists σ) (records σ ++ [record]) (stdout σ)).
Proof. reflexivity. Qed.

Lemma add_all_cons item items σ :
  Records.add_all (item :: items) σ =
    match parse_outcome item with
    | inl e => (Raise e, σ)
    | inr r => Records.add_all items (with_added [r] σ)
    end.
Proof.
  unfold Records.add_all. cbn [for_each]. mrun. rewrite parse_spec.
  destruct (parse_outcome item) as [ e | r ]; [ done | ].
  mrun. rewrite add_run. mrun. reflexivity.
Qed.

Lemma with_added_app rs1 rs2 σ :
  with_added rs2 (with_added rs1 σ) = with_added (rs1 ++ rs2) σ.
Proof.
  unfold with_added. cbn. rewrite !length_app, <- !app_assoc. do 2 f_equal.
  by rewrite seq_app.
Qed.

Lemma add_all_valid pre rs rest σ :
  Forall2 (λ line r, parse_outcome line = inr r) pre rs →
  Records.add_all (pre ++ rest) σ = Records.add_all rest (with_added rs σ).
Proof.
  intros Hall. revert σ. induction Hall as [ | line r pre rs Hr Hall IH ]; intros σ.
  - unfold with_added. cbn. rewrite !app_nil_r. by destruct σ.
  - cbn [app]. rewrite add_all_cons, Hr, IH. by rewrite with_added_app.
Qed.

(** C10: [add_all] parses and appends its lines in order; when a line
    fails validation the [SchemaError] of that line propagates, the
    records of the lines before it stay appended and no later line is
    looked at. *)
Theorem add_all_aborts_at_first_invalid σ :
  (∀ items rs,
     Forall2 (λ line r, parse_outcome line = inr r) items rs →
     Records.add_all items σ = (Return tt, with_added rs σ))
  ∧ (∀ pre rs bad e post,
       Forall2 (λ line r, parse_outcome line = inr r) pre rs →
       parse_outcome bad = inl e →
       Records.add_all (pre ++ bad :: post) σ = (Raise e, with_added rs σ)
       ∧ Record.parse bad (with_added rs σ) = (Raise e, with_added rs σ)
       ∧ ∃ msg, e = SchemaError msg).
Proof.
  split.
  - intros items rs Hall.
    rewrite <- (app_nil_r items), (add_all_valid _ _ _ _ Hall). reflexivity.
  - intros pre rs bad e post Hall Hbad. split_and!.
    + by rewrite (add_all_valid _ _ _ _ Hall), add_all_cons, Hbad.
    + by rewrite parse_spec, Hbad.
    + unfold parse_outcome in Hbad.
      destruct (split ";" bad) as [ | n [ | d [ | p [ | q rest ] ] ] ];
        repeat case_match; naive_solver.
Qed.

Lemma add_all_aborts_at_first_invalid_witness :
  Records.add_all ["a;2024/01/01;minor"; "b;2024/13/01;minor"; "c;2024/01/03;major"]
                  initial
  = (Raise (SchemaError "Rule check failed on field: 2024/13/01"),
     with_added
       [mkRecord "a" "2024/01/01" "minor" (VBool false) default_modifications
          (Record.snapshot "a" "2024/01/01" "minor" (VBool false)) ∅]
       initial).
Proof.
  apply (proj2 (add_all_aborts_at_first_invalid initial)
           ["a;2024/01/01;minor"] _ "b;2024/13/01;minor" _ ["c;2024/01/03;major"]).
  - repeat constructor.
  - reflexivity.
Defined.

(** ** Splitting *)

Lemma split_nonempty sep s : split sep s ≠ [].
Proof.
  destruct s as [ | c s ]; simpl; [ done | ].
  destruct (Ascii.eqb c sep); [ done | ]. by destruct (split sep s).
Qed.

Lemma split_single sep s : length (split sep s) = 1 → split sep s = [s].
Proof.
  induction s as [ | c s IH ]; simpl; [ done | ].
  destruct (Ascii.eqb c sep).
  - pose proof (split_nonempty sep s). destruct (split sep s); simpl; [ done | lia ].
  - pose proof (split_nonempty sep s).
    destruct (split sep s) as [ | seg [ | seg' segs ] ] eqn:E; simpl; [ done | | lia ].
    intros _. specialize (IH eq_refl). by injection IH as ->.
Qed.

(** ** Running a loop *)

Lemma for_each_cons {A} (body : A → M unit) x l σ :
  for_each body (x :: l) σ =
    match for_each body [x] σ with
    | (Return _, σ') => for_each body l σ'
    | (Raise e, σ') => (Raise e, σ')
    end.
Proof.
  cbn [for_each]. mrun. by destruct (body x σ) as [[ [] | e ] σ'].
Qed.

(** ** Removing records *)

Lemma _split_1 item :
  Records._split item (Some 1) =
    if bool_decide (length (split ";" item) ≤ 1) then Some (split ";" item) else None.
Proof.
  unfold Records._split. rewrite bool_decide_eq_false_2 by (by intros [ ? | ? ]). done.
Qed.

Lemma find_loop_no_match name_ rs σ :
  (∀ b, b ∈ rs → ∃ rb, objects σ !! b = Some rb ∧ name rb ≠ name_) →
  Records.find_loop name_ rs σ = (Return None, σ).
Proof.
  induction rs as [ | b rs IH ]; intros Hrs; cbn [Records.find_loop]; [ done | ].
  destruct (Hrs b) as (rb & Hb & Hne); [ by left | ].
  mrun. unfold get_object. rewrite Hb. mrun. rewrite decide_False by done.
  apply IH. intros b' Hb'. apply Hrs. by right.
Qed.

Lemma find_loop_first name_ pre a post r σ :
  objects σ !! a = Some r → name r = name_ →
  (∀ b, b ∈ pre → ∃ rb, objects σ !! b = Some rb ∧ name rb ≠ name_) →
  Records.find_loop name_ (pre ++ a :: post) σ = (Return (Some a), σ).
Proof.
  intros Ha Hname. induction pre as [ | b pre IH ]; intros Hpre; cbn [app Records.find_loop].
  - mrun. unfold get_object. rewrite Ha. mrun. by rewrite decide_True.
  - destruct (Hpre b) as (rb & Hb & Hne); [ by left | ].
    mrun. unfold get_object. rewrite Hb. mrun. rewrite decide_False by done.
    apply IH. intros b' Hb'. apply Hpre. by right.
Qed.

Lemma list_remove_first a pre post :
  a ∉ pre → Records.list_remove a (pre ++ a :: post) = Some (pre ++ post).
Proof.
  induction pre as [ | b pre IH ]; intros Hpre; cbn [app Records.list_remove].
  - by rewrite decide_True.
  - apply not_elem_of_cons in Hpre as [Hne Hpre].
    rewrite decide_False by done. by rewrite IH.
Qed.

(** C9: [remove_all] skips a spec that splits on [;] into more than one
    segment; for a one-segment spec it removes the first record of that
    name from the collection, and nothing else, and does nothing when no
    record has that name; the specs are handled one after the other. *)
Theorem remove_all_removes_first_match σ :
  (∀ item, 1 < length (split ";" item) →
     Records.remove_all [item] σ = (Return tt, σ))
  ∧ (∀ item pre a post r,
       length (split ";" item) = 1 →
       records σ = pre ++ a :: post →
       objects σ !! a = Some r → name r = item →
       (∀ b, b ∈ pre → ∃ rb, objects σ !! b = Some rb ∧ name rb ≠ item) →
       Records.remove_all [item] σ
       = (Return tt, mkStore (objects σ) (lists σ) (pre ++ post) (stdout σ)))
  ∧ (∀ item,
       length (split ";" item) = 1 →
       (∀ b, b ∈ records σ → ∃ rb, objects σ !! b = Some rb ∧ name rb ≠ item) →
       Records.remove_all [item] σ = (Return tt, σ))
  ∧ (∀ item items,
       Records.remove_all (item :: items) σ =
         match Records.remove_all [item] σ with
         | (Return _, σ') => Records.remove_all items σ'
         | (Raise e, σ') => (Raise e, σ')
         end)
  ∧ Records.remove_all ["a;b"] σ = (Return tt, σ).
Proof.
  split_and!.
  - intros item Hlen. unfold Records.remove_all. cbn [for_each].
    rewrite _split_1, bool_decide_eq_false_2 by lia. reflexivity.
  - intros item pre a post r Hlen Hrs Ha Hname Hpre.
    unfold Records.remove_all. cbn [for_each].
    rewrite _split_1, bool_decide_eq_true_2 by lia.
    rewrite (split_single _ _ Hlen). mrun.
    unfold Records.find. mrun. unfold get_records at 1. rewrite Hrs.
    rewrite (find_loop_first item pre a post r) by done. mrun.
    unfold Records.remove. mrun. unfold get_records. rewrite Hrs.
    rewrite list_remove_first; [ reflexivity | ].
    intros Hin. destruct (Hpre a Hin) as (ra & Ha' & Hne). congruence.
  - intros item Hlen Hrs.
    unfold Records.remove_all. cbn [for_each].
    rewrite _split_1, bool_decide_eq_true_2 by lia.
    rewrite (split_single _ _ Hlen). mrun.
    unfold Records.find. mrun. unfold get_records.
    rewrite find_loop_no_match by done. reflexivity.
  - intros item items. unfold Records.remove_all. apply for_each_cons.
  - reflexivity.
Qed.

Lemma remove_all_removes_first_match_witness :
  Records.remove_all ["b"] example_store
  = (Return tt,
     mkStore (objects example_store) (lists example_store) ([0] ++ [2])
             (stdout example_store)).
Proof.
  refine (proj1 (proj2 (remove_all_removes_first_match example_store))
            "b" [0] 1 [2] _ eq_refl eq_refl eq_refl eq_refl _).
  intros b Hb. apply list_elem_of_singleton in Hb as ->.
  eexists. split; [ reflexivity | done ].
Defined.

(** ** Field specs and [modify] *)

Lemma check_Some item key value :
  Record.check item = Some (key, value) ↔
  split ":" item = [key; value]
  ∧ key ∈ ["ordered_keys"; "name"; "due_date"; "priority"].
Proof.
  unfold Record.check. rewrite schema_keys_eq.
  destruct (split ":" item) as [ | k [ | v [ | x parts ] ] ]; simpl;
    try (split; [ done | by intros [? _] ]).
  destruct (decide (k ∈ ["ordered_keys"; "name"; "due_date"; "priority"])).
  - split; [ by intros [= <- <-] | by intros [[= <- <-] _] ].
  - split; [ done | intros [[= <- <-] ?]; done ].
Qed.

Lemma check_not_done item value : Record.check item ≠ Some ("done", value).
Proof.
  intros H. apply check_Some in H as [_ H].
  repeat (apply elem_of_cons in H as [ H | H ]; [ done | ]).
  by apply elem_of_nil in H.
Qed.

Lemma accepted_keys specs key value :
  (key, value) ∈ accepted specs →
  key ∈ ["ordered_keys"; "name"; "due_date"; "priority"].
Proof.
  unfold accepted. rewrite list_elem_of_omap. intros (spec & _ & H).
  by apply check_Some in H as [_ H].
Qed.

Lemma last_value_cons key k v pairs :
  last_value key ((k, v) :: pairs) =
    match last_value key pairs with
    | Some v' => Some v'
    | None => if decide (k = key) then Some v else None
    end.
Proof. reflexivity. Qed.

Lemma foldl_entry_lookup pairs (acc : dict) key :
  foldl (λ (e : dict) kv, <[kv.1 := VStr kv.2]> e) acc pairs !! key =
    match last_value key pairs with
    | Some v => Some (VStr v)
    | None => acc !! key
    end.
Proof.
  revert acc. induction pairs as [ | [k v] pairs IH ]; intros acc; [ done | ].
  cbn [foldl]. rewrite IH, last_value_cons. cbn [fst snd].
  destruct (last_value key pairs); [ done | ].
  destruct (decide (k = key)) as [ -> | ].
  - by rewrite lookup_insert_eq.
  - by rewrite lookup_insert_ne.
Qed.

Lemma entry_of_lookup pairs key :
  entry_of pairs !! key = VStr <$> last_value key pairs.
Proof.
  unfold entry_of. rewrite foldl_entry_lookup.
  by destruct (last_value key pairs).
Qed.

Lemma assign_schema_key key value r :
  key ∈ ["ordered_keys"; "name"; "due_date"; "priority"] →
  ∃ r', Record.assign key value r = Some r'
    ∧ name r' = (if decide (key = "name") then value else name r)
    ∧ due_date r' = (if decide (key = "due_date") then value else due_date r)
    ∧ priority r' = (if decide (key = "priority") then value else priority r)
    ∧ attrs r' = (if decide (key = "ordered_keys")
                  then <["ordered_keys" := value]> (attrs r) else attrs r)
    ∧ done r' = done r ∧ modifications r' = modifications r
    ∧ original r' = original r.
Proof.
  intros H.
  repeat (apply elem_of_cons in H as [ -> | H ];
          [ by eexists; split; [ reflexivity | ] | ]).
  by apply elem_of_nil in H.
Qed.

Lemma assign_all_cons k v pairs r :
  assign_all ((k, v) :: pairs) r = assign_all pairs (default r (Record.assign k v r)).
Proof. reflexivity. Qed.

Lemma assign_all_fields pairs r :
  (∀ key value, (key, value) ∈ pairs →
     key ∈ ["ordered_keys"; "name"; "due_date"; "priority"]) →
  name (assign_all pairs r) = default (name r) (last_value "name" pairs)
  ∧ due_date (assign_all pairs r) = default (due_date r) (last_value "due_date" pairs)
  ∧ priority (assign_all pairs r) = default (priority r) (last_value "priority" pairs)
  ∧ attrs (assign_all pairs r)
    = match last_value "ordered_keys" pairs with
      | Some v => <["ordered_keys" := v]> (attrs r)
      | None => attrs r
      end
  ∧ done (assign_all pairs r) = done r
  ∧ modifications (assign_all pairs r) = modifications r
  ∧ original (assign_all pairs r) = original r.
Proof.
  revert r. induction pairs as [ | [k v] pairs IH ]; intros r Hkeys; [ done | ].
  destruct (assign_schema_key k v r) as (r1 & Hr1 & Hn & Hd & Hp & Ha & Hdone & Hm & Ho);
    [ eapply Hkeys; by left | ].
  rewrite assign_all_cons, Hr1. cbn [from_option id].
  destruct (IH r1) as (IHn & IHd & IHp & IHa & IHdone & IHm & IHo);
    [ intros; eapply Hkeys; by right | ].
  rewrite IHn, IHd, IHp, IHa, IHdone, IHm, IHo, !last_value_cons.
  rewrite Hn, Hd, Hp, Ha, Hdone, Hm, Ho.
  split_and!; try done; repeat case_match; try done;
    simplify_eq; try done; by rewrite insert_insert_eq.
Qed.

Lemma accepted_cons spec specs :
  accepted (spec :: specs) =
    match Record.check spec with
    | Some kv => kv :: accepted specs
    | None => accepted specs
    end.
Proof. reflexivity. Qed.

Lemma setattr_run self key value r r' σ :
  objects σ !! self = Some r → Record.assign key value r = Some r' →
  Record.setattr self key value σ
  = (Return tt, mkStore (<[self := r']> (objects σ)) (lists σ) (records σ) (stdout σ)).
Proof.
  intros Hr Hr'. unfold Record.setattr, get_object. mrun. rewrite Hr. mrun.
  rewrite Hr'. reflexivity.
Qed.

Lemma modify_loop self specs (acc : dict) r σ :
  objects σ !! self = Some r →
  for_fold (λ (_modifications : dict) modification,
      match Record.check modification with
      | Some (key, value) =>
          Record.setattr self key value;;
          mret (<[key := VStr value]> _modifications)
      | None => mret _modifications
      end) acc specs σ
  = (Return (foldl (λ (e : dict) kv, <[kv.1 := VStr kv.2]> e) acc (accepted specs)),
     mkStore (<[self := assign_all (accepted specs) r]> (objects σ))
             (lists σ) (records σ) (stdout σ)).
Proof.
  revert acc r σ. induction specs as [ | spec specs IH ]; intros acc r σ Hr.
  - cbn. rewrite list_insert_id by done. by destruct σ.
  - cbn [for_fold]. rewrite accepted_cons.
    destruct (Record.check spec) as [ [key value] | ] eqn:Hcheck; mrun.
    + destruct (assign_schema_key key value r) as (r1 & Hr1 & _).
      { by apply check_Some in Hcheck as [_ ?]. }
      rewrite (setattr_run _ _ _ _ _ _ Hr Hr1). mrun.
      rewrite (IH _ r1).
      * cbn [foldl fst snd objects lists records stdout].
        rewrite assign_all_cons, Hr1. cbn [from_option id].
        by rewrite list_insert_insert_eq.
      * cbn. apply list_lookup_insert_eq. by eapply lookup_lt_Some.
    + by rewrite (IH _ r).
Qed.

Lemma modify_run σ self r entries specs :
  objects σ !! self = Some r →
  lists σ !! modifications r = Some entries →
  Record.modify self specs σ
  = (Return tt,
     mkStore (<[self := assign_all (accepted specs) r]> (objects σ))
             (<[modifications r := entries ++ [entry_of (accepted specs)]]> (lists σ))
             (records σ) (stdout σ)).
Proof.
  intros Hr Hl. unfold Record.modify. mrun. rewrite (modify_loop _ _ _ r) by done.
  mrun. unfold Record.self_modifications, get_object. mrun.
  cbn [objects]. rewrite list_lookup_insert_eq by by eapply lookup_lt_Some.
  mrun.
  destruct (assign_all_fields (accepted specs) r) as (_ & _ & _ & _ & _ & -> & _).
  { intros key value. apply accepted_keys. }
  unfold append. cbn [lists]. rewrite Hl. reflexivity.
Qed.

(** C3, refuted as stated: [check] accepts both specs of
    [["priority:major"; "priority:minor"]], yet the one entry that
    [modify] appends is [{priority: minor}]: the accepted pair (priority,
    major) is not in it, the later value having replaced the earlier one
    under the same key. *)
Lemma modify_entry_keeps_last_value_only :
  Record.check "priority:major" = Some ("priority", "major")
  ∧ Record.check "priority:minor" = Some ("priority", "minor")
  ∧ ∃ σ' entry,
      Record.modify 0 ["priority:major"; "priority:minor"] example_store
      = (Return tt, σ')
      ∧ lists σ' !! default_modifications = Some [entry]
      ∧ entry = {[ "priority" := VStr "minor" ]}
      ∧ entry !! "priority" ≠ Some (VStr "major").
Proof.
  split; [ reflexivity | ]. split; [ reflexivity | ].
  exists (mkStore
            (<[0 := with_priority "minor" (with_priority "major"
                      (mkRecord "a" "2024/01/01" "minor" (VBool false)
                         default_modifications
                         (Record.snapshot "a" "2024/01/01" "minor" (VBool false)) ∅))]>
               (objects example_store))
            (<[0 := [] ++ [entry_of [("priority", "major"); ("priority", "minor")]]]>
               (lists example_store))
            (records example_store) (stdout example_store)),
         {[ "priority" := VStr "minor" ]}.
  split; [ exact (modify_run example_store 0 _ [] _ eq_refl eq_refl) | ].
  split; [ reflexivity | ]. split; [ reflexivity | ].
  by rewrite lookup_singleton.
Qed.

(** C3 (amended): one call to [modify] appends exactly one entry to the
    record's modifications log; the entry holds the (key, value) pairs
    that [check] accepts, with the last value only where a key is given
    twice, and those attributes, and no others, are set on the record, to
    those values; rejected specs change nothing and the entry is appended
    also when it is empty. *)
Theorem modify_appends_one_entry σ self r entries specs :
  objects σ !! self = Some r →
  lists σ !! modifications r = Some entries →
  let pairs := accepted specs in
  let r' := assign_all pairs r in
  let entry := entry_of pairs in
  Record.modify self specs σ
  = (Return tt,
     mkStore (<[self := r']> (objects σ))
             (<[modifications r := entries ++ [entry]]> (lists σ))
             (records σ) (stdout σ))
  ∧ (∀ key value,
       (key, value) ∈ pairs ↔
       ∃ spec, spec ∈ specs ∧ Record.check spec = Some (key, value))
  ∧ (∀ key, entry !! key = VStr <$> last_value key pairs)
  ∧ name r' = default (name r) (last_value "name" pairs)
  ∧ due_date r' = default (due_date r) (last_value "due_date" pairs)
  ∧ priority r' = default (priority r) (last_value "priority" pairs)
  ∧ attrs r' = match last_value "ordered_keys" pairs with
               | Some v => <["ordered_keys" := v]> (attrs r)
               | None => attrs r
               end
  ∧ done r' = done r ∧ modifications r' = modifications r
  ∧ original r' = original r
  ∧ (pairs = [] → entry = ∅ ∧ r' = r)
  ∧ Record.modify self ["priority:major"; "bogus:x"] σ
    = (Return tt,
       mkStore (<[self := with_priority "major" r]> (objects σ))
               (<[modifications r := entries ++ [{[ "priority" := VStr "major" ]}]]>
                  (lists σ))
               (records σ) (stdout σ)).
Proof.
  intros Hr Hl pairs r' entry.
  destruct (assign_all_fields pairs r) as (Hn & Hd & Hp & Ha & Hdone & Hm & Ho).
  { intros key value. apply accepted_keys. }
  split; [ by apply modify_run | ].
  split; [ intros key value; unfold pairs, accepted; by rewrite list_elem_of_omap | ].
  split; [ apply entry_of_lookup | ].
  do 7 (split; [ done | ]).
  split; [ by intros -> | ].
  by rewrite (modify_run _ _ r entries).
Qed.

Lemma modify_appends_one_entry_witness :
  Record.modify 1 ["name:c"; "done:yes"; "priority:major"; "priority:minor"]
                example_store
  = (Return tt,
     mkStore
       (<[1 := assign_all [("name", "c"); ("priority", "major"); ("priority", "minor")]
                 (mkRecord "b" "2024/01/02" "minor" (VBool false) default_modifications
                    (Record.snapshot "b" "2024/01/02" "minor" (VBool false)) ∅)]>
          (objects example_store))
       (<[0 := [] ++ [entry_of [("name", "c"); ("priority", "major"); ("priority", "minor")]]]>
          (lists example_store))
       (records example_store) (stdout example_store)).
Proof.
  exact (proj1 (modify_appends_one_entry example_store 1 _ []
                  ["name:c"; "done:yes"; "priority:major"; "priority:minor"]
                  eq_refl eq_refl)).
Defined.

(** ** What the operations keep *)

Section keeps.
Variable P : RecordInstance → RecordInstance → Prop.
Hypothesis P_refl : ∀ r, P r r.
Hypothesis P_trans : ∀ r1 r2 r3, P r1 r2 → P r2 r3 → P r1 r3.

Lemma kept_refl σ : kept P σ σ.
Proof. intros a r Hr. eauto. Qed.

Lemma kept_trans σ1 σ2 σ3 : kept P σ1 σ2 → kept P σ2 σ3 → kept P σ1 σ3.
Proof.
  intros H12 H23 a r1 Hr1.
  destruct (H12 a r1 Hr1) as (r2 & Hr2 & HP12).
  destruct (H23 a r2 Hr2) as (r3 & Hr3 & HP23). eauto.
Qed.

Lemma kept_same_objects σ σ' : objects σ' = objects σ → kept P σ σ'.
Proof. intros E a r Hr. rewrite E. eauto. Qed.

Lemma kept_more_objects σ σ' rs : objects σ' = objects σ ++ rs → kept P σ σ'.
Proof.
  intros E a r Hr. rewrite E. exists r. split; [ | done ].
  by apply lookup_app_l_Some.
Qed.

Lemma kept_set_object σ self r r' :
  objects σ !! self = Some r → P r r' →
  kept P σ (mkStore (<[self := r']> (objects σ)) (lists σ) (records σ) (stdout σ)).
Proof.
  intros Hr HP a ra Ha. cbn [objects]. destruct (decide (a = self)) as [ -> | Hne ].
  - exists r'. rewrite list_lookup_insert_eq by by eapply lookup_lt_Some.
    split; [ done | congruence ].
  - exists ra. by rewrite list_lookup_insert_ne.
Qed.

Lemma Keeps_ret {A} (a : A) : Keeps P (mret a).
Proof. intros σ. apply kept_refl. Qed.

Lemma Keeps_raise {A} e : Keeps P (raise e : M A).
Proof. intros σ. apply kept_refl. Qed.

Lemma Keeps_bind {A B} (m : M A) (f : A → M B) :
  Keeps P m → (∀ a, Keeps P (f a)) → Keeps P (m ≫= f).
Proof.
  intros Hm Hf σ. rewrite bind_run. specialize (Hm σ).
  destruct (m σ) as [[ a | e ] σ']; [ | done ].
  eapply kept_trans; [ exact Hm | apply Hf ].
Qed.

(** After [get_object], the rest may rely on what was read. *)
Lemma Keeps_bind_get {B} self (f : RecordInstance → M B) :
  (∀ r σ, objects σ !! self = Some r → kept P σ (f r σ).2) →
  Keeps P (get_object self ≫= f).
Proof.
  intros Hf σ. rewrite bind_run. unfold get_object.
  destruct (objects σ !! self) as [ r | ] eqn:Hr; [ by apply Hf | apply kept_refl ].
Qed.

Lemma Keeps_modelled {A} (o : option A) : Keeps P (modelled o).
Proof. destruct o; [ apply Keeps_ret | apply Keeps_raise ]. Qed.

Lemma Keeps_get_object a : Keeps P (get_object a).
Proof.
  intros σ. unfold get_object. destruct (objects σ !! a); apply kept_refl.
Qed.

Lemma Keeps_get_list l : Keeps P (get_list l).
Proof.
  intros σ. unfold get_list. destruct (lists σ !! l); apply kept_refl.
Qed.

Lemma Keeps_append l entry : Keeps P (append l entry).
Proof.
  intros σ. unfold append.
  destruct (lists σ !! l); [ by apply kept_same_objects | apply kept_refl ].
Qed.

Lemma Keeps_get_records : Keeps P get_records.
Proof. intros σ. apply kept_refl. Qed.

Lemma Keeps_set_records rs : Keeps P (set_records rs).
Proof. intros σ. by apply kept_same_objects. Qed.

Lemma Keeps_for_each {A} (body : A → M unit) l :
  (∀ x, Keeps P (body x)) → Keeps P (for_each body l).
Proof.
  intros Hbody. induction l as [ | x l IH ]; cbn [for_each].
  - apply Keeps_ret.
  - apply Keeps_bind; [ apply Hbody | intros _; apply IH ].
Qed.

Lemma Keeps_for_fold {A B} (body : B → A → M B) b l :
  (∀ b x, Keeps P (body b x)) → Keeps P (for_fold body b l).
Proof.
  intros Hbody. revert b. induction l as [ | x l IH ]; intros b; cbn [for_fold].
  - apply Keeps_ret.
  - apply Keeps_bind; [ apply Hbody | intros b'; apply IH ].
Qed.

Lemma Keeps_find_loop name_ rs : Keeps P (Records.find_loop name_ rs).
Proof.
  induction rs as [ | record rs IH ]; cbn [Records.find_loop].
  - apply Keeps_ret.
  - apply Keeps_bind; [ apply Keeps_get_object | intros r ].
    destruct (decide (name r = name_)); [ apply Keeps_ret | apply IH ].
Qed.

Lemma Keeps_find name_ : Keeps P (Records.find name_).
Proof.
  apply Keeps_bind; [ apply Keeps_get_records | intros rs; apply Keeps_find_loop ].
Qed.

Lemma Keeps_remove record : Keeps P (Records.remove record).
Proof.
  apply Keeps_bind; [ apply Keeps_get_records | intros rs ].
  destruct (Records.list_remove record rs);
    [ apply Keeps_set_records | apply Keeps_raise ].
Qed.

Lemma Keeps_remove_all items : Keeps P (Records.remove_all items).
Proof.
  apply Keeps_for_each. intros item.
  destruct (Records._split item (Some 1)) as [ [ | part0 parts ] | ];
    try apply Keeps_ret.
  apply Keeps_bind; [ apply Keeps_find | intros [ record | ] ];
    [ apply Keeps_remove | apply Keeps_ret ].
Qed.

(** An assignment that [P] allows. *)
Hypothesis P_assign : ∀ key value r r',
  key ≠ "done" → Record.assign key value r = Some r' → P r r'.

Lemma Keeps_setattr self key value :
  key ≠ "done" → Keeps P (Record.setattr self key value).
Proof.
  intros Hkey. apply Keeps_bind_get. intros r σ Hr. rewrite bind_run.
  destruct (Record.assign key value r) as [ r' | ] eqn:Hr'; cbn.
  - apply (kept_set_object σ self r r'); eauto.
  - apply kept_refl.
Qed.

Lemma Keeps_modify self specs : Keeps P (Record.modify self specs).
Proof.
  apply Keeps_bind.
  - apply Keeps_for_fold. intros acc spec.
    destruct (Record.check spec) as [ [key value] | ] eqn:Hcheck; cbn zeta.
    + apply Keeps_bind; [ | intros _; apply Keeps_ret ].
      apply Keeps_setattr. intros ->. by eapply check_not_done.
    + apply Keeps_ret.
  - intros entry. apply Keeps_bind; [ | intros l; apply Keeps_append ].
    apply Keeps_bind; [ apply Keeps_get_object | intros r; apply Keeps_ret ].
Qed.

Lemma Keeps_modify_all items : Keeps P (Records.modify_all items).
Proof.
  apply Keeps_for_each. intros item.
  destruct (Records._split item None) as [ [ | part0 parts ] | ];
    try apply Keeps_raise.
  apply Keeps_bind; [ apply Keeps_find | intros [ record | ] ];
    [ apply Keeps_modify | apply Keeps_ret ].
Qed.

(** Setting [done] to [True], when [P] allows it. *)
Hypothesis P_done : ∀ r, P r (with_done (VBool true) r).

Lemma Keeps_mark_done self : Keeps P (Record.mark_done self).
Proof.
  apply Keeps_bind_get. intros r σ Hr. rewrite bind_run. cbn.
  eapply kept_trans; [ apply (kept_set_object σ self r); [ done | apply P_done ] | ].
  apply Keeps_bind; [ | intros l; apply Keeps_append ].
  apply Keeps_bind; [ apply Keeps_get_object | intros r'; apply Keeps_ret ].
Qed.

Lemma Keeps_mark_done_all items : Keeps P (Records.mark_done_all items).
Proof.
  apply Keeps_for_each. intros item.
  destruct (Records._split item (Some 1)) as [ [ | part0 parts ] | ];
    try apply Keeps_ret.
  apply Keeps_bind; [ apply Keeps_find | intros [ record | ] ];
    [ apply Keeps_mark_done | apply Keeps_ret ].
Qed.

Lemma Keeps_perform op : Keeps P (perform op).
Proof.
  destruct op; cbn [perform];
    auto using Keeps_modify, Keeps_mark_done, Keeps_remove_all,
      Keeps_mark_done_all, Keeps_modify_all.
Qed.

Lemma kept_after ops σ : kept P σ (after ops σ).
Proof.
  revert σ. induction ops as [ | op ops IH ]; intros σ; cbn [after foldl].
  - apply kept_refl.
  - eapply kept_trans; [ apply Keeps_perform | apply IH ].
Qed.

End keeps.

Lemma assign_keeps_done_and_original key value r r' :
  key ≠ "done" → Record.assign key value r = Some r' →
  same_done_and_original r r'.
Proof.
  unfold Record.assign. intros Hkey H.
  repeat case_decide; simplify_eq; done.
Qed.

Lemma same_done_and_original_trans r1 r2 r3 :
  same_done_and_original r1 r2 → same_done_and_original r2 r3 →
  same_done_and_original r1 r3.
Proof. intros [? ?] [? ?]. split; congruence. Qed.

Lemma still_done_same_original_trans r1 r2 r3 :
  still_done_same_original r1 r2 → still_done_same_original r2 r3 →
  still_done_same_original r1 r3.
Proof. intros [? ?] [? ?]. split; [ auto | congruence ]. Qed.

Lemma modify_keeps self specs : Keeps same_done_and_original (Record.modify self specs).
Proof.
  apply Keeps_modify.
  - done.
  - apply same_done_and_original_trans.
  - apply assign_keeps_done_and_original.
Qed.

Lemma after_keeps ops σ : kept still_done_same_original σ (after ops σ).
Proof.
  apply kept_after.
  - done.
  - apply still_done_same_original_trans.
  - intros key value r r' Hkey Hr'.
    destruct (assign_keeps_done_and_original key value r r' Hkey Hr') as [Hd Ho].
    split; [ congruence | done ].
  - done.
Qed.

Lemma mark_done_run σ self r entries :
  objects σ !! self = Some r →
  lists σ !! modifications r = Some entries →
  Record.mark_done self σ
  = (Return tt,
     mkStore (<[self := with_done (VBool true) r]> (objects σ))
             (<[modifications r := entries ++ [{[ "done" := VBool true ]}]]> (lists σ))
             (records σ) (stdout σ)).
Proof.
  intros Hr Hl. unfold Record.mark_done, Record.self_modifications, get_object.
  mrun. rewrite Hr. mrun. unfold set_object. mrun. cbn [objects].
  rewrite list_lookup_insert_eq by by eapply lookup_lt_Some.
  mrun. unfold append. cbn [lists modifications with_done]. rewrite Hl. reflexivity.
Qed.

(** C5: [done] is monotonic. A record whose [done] is [True] keeps it
    through every sequence of [modify], [mark_done], [remove_all],
    [mark_done_all] and [modify_all]; [check] never accepts the key
    ["done"], so [modify] leaves [done] of every record as it was; and
    [mark_done] sets it. *)
Theorem done_is_monotonic :
  (∀ σ a r ops,
     objects σ !! a = Some r → done r = VBool true →
     ∃ r', objects (after ops σ) !! a = Some r' ∧ done r' = VBool true)
  ∧ (∀ item value, Record.check item ≠ Some ("done", value))
  ∧ (∀ σ self specs a r,
       objects σ !! a = Some r →
       ∃ r', objects (Record.modify self specs σ).2 !! a = Some r'
             ∧ done r' = done r)
  ∧ (∀ σ self r entries,
       objects σ !! self = Some r →
       lists σ !! modifications r = Some entries →
       Record.mark_done self σ
       = (Return tt,
          mkStore (<[self := with_done (VBool true) r]> (objects σ))
                  (<[modifications r := entries ++ [{[ "done" := VBool true ]}]]>
                     (lists σ))
                  (records σ) (stdout σ))).
Proof.
  split_and!.
  - intros σ a r ops Hr Hdone.
    destruct (after_keeps ops σ a r Hr) as (r' & Hr' & Hd & _). eauto.
  - apply check_not_done.
  - intros σ self specs a r Hr.
    destruct (modify_keeps self specs σ a r Hr) as (r' & Hr' & Hd & _). eauto.
  - apply mark_done_run.
Qed.

Lemma done_is_monotonic_witness :
  ∃ r', objects (after [op_modify 0 ["done:"; "name:z"]; op_modify_all ["a;done:no"];
                        op_remove_all ["z"]; op_mark_done_all ["b"]]
                   (after [op_mark_done 0] example_store)) !! 0 = Some r'
        ∧ done r' = VBool true.
Proof.
  refine (proj1 done_is_monotonic (after [op_mark_done 0] example_store) 0 _ _ _ _);
    reflexivity.
Defined.


(** ** Writing and loading a record *)

Section glue.
Context {py : Interpreter}.

Lemma elem_of_iteritems {V} (id : dict_id) (d : gmap string V) key v :
  (key, v) ∈ iteritems id d ↔ d !! key = Some v.
Proof. by rewrite (iteritems_Permutation id d), elem_of_map_to_list. Qed.

Lemma NoDup_iteritems {V} (id : dict_id) (d : gmap string V) :
  NoDup (iteritems id d).*1.
Proof.
  rewrite (iteritems_Permutation id d). apply NoDup_fst_map_to_list.
Qed.

Lemma list_to_map_iteritems {V} (id : dict_id) (d : gmap string V) :
  list_to_map (iteritems id d) = d.
Proof.
  rewrite <- (list_to_map_to_list d) at 2.
  apply list_to_map_proper; [ apply NoDup_iteritems | apply iteritems_Permutation ].
Qed.

(** [obj[key]] on members of different names is the lookup in the
    dictionary they make. *)
Lemma get_list_to_map (members : list (string * json.value)) key :
  NoDup members.*1 →
  json.get key members = (list_to_map members : gmap string json.value) !! key.
Proof.
  induction members as [ | [k v] members IH ]; intros Hnd; [ done | ].
  apply NoDup_cons in Hnd as [Hk Hnd]. cbn [json.get list_to_map foldr].
  rewrite IH by done. destruct (decide (k = key)) as [ -> | Hne ].
  - rewrite lookup_insert_eq.
    rewrite (not_elem_of_list_to_map_1 _ key) by done. done.
  - rewrite lookup_insert_ne by done.
    by destruct (list_to_map members !! key).
Qed.

Lemma get_iteritems (id : dict_id) (d : gmap string json.value) key :
  json.get key (iteritems id d) = d !! key.
Proof.
  rewrite get_list_to_map by apply NoDup_iteritems.
  by rewrite list_to_map_iteritems.
Qed.

Lemma json_to_value_to_json v : json_to_value (value_to_json v) = Some v.
Proof. by destruct v. Qed.

Lemma mapM_map_Some {A B} (f : B → option A) (g : A → B) (l : list A) :
  (∀ x, f (g x) = Some x) → mapM f (map g l) = Some l.
Proof.
  intros Hfg. induction l as [ | x l IH ]; [ done | ].
  cbn. rewrite Hfg. cbn. rewrite IH. done.
Qed.

Lemma json_to_dict_to_json (id : dict_id) (d : dict) :
  json_to_dict (dict_to_json id d) = Some d.
Proof.
  unfold dict_to_json, json_to_dict, members_to_dict.
  rewrite mapM_map_Some; [ | intros [k v]; cbn; by rewrite json_to_value_to_json ].
  cbn. f_equal. rewrite <- (list_to_map_iteritems id d) at 2.
  apply list_to_map_proper; [ | apply reverse_Permutation ].
  rewrite fmap_reverse, reverse_Permutation. apply NoDup_iteritems.
Qed.

Lemma json_to_entries_to_json (l : addr) (entries : list dict) :
  Record.json_to_entries (Record.log_to_json l entries) = Some entries.
Proof.
  unfold Record.json_to_entries, Record.log_to_json.
  generalize (Entry l) as id. induction entries as [ | e entries IH ]; intros id.
  - done.
  - rewrite imap_cons. cbn [mapM]. rewrite json_to_dict_to_json. cbn.
    unfold compose. by rewrite (IH (λ i, id (S i))).
Qed.

Lemma json_to_original_to_json (id : dict_id) (d : dict) :
  Record.json_to_original (dict_to_json id d) = Some (Some d).
Proof.
  unfold Record.json_to_original.
  change (dict_to_json id d)
    with (json.Object (map (λ kv, (kv.1, value_to_json kv.2)) (iteritems id d))) at 1.
  cbv beta iota. by rewrite json_to_dict_to_json.
Qed.

(** *** What can be written *)

Lemma ascii_text_forallb s :
  forallb json.is_ascii (chars s) = true → ascii_text s.
Proof.
  intros H. apply Forall_forall. intros c Hc. rewrite forallb_forall in H.
  apply H. by apply list_elem_of_In.
Qed.

Lemma encodable_key s :
  forallb json.is_ascii (chars s) = true →
  json.encodable_text (chars s) = json.Ok tt.
Proof. intros H. by apply json_facts.encodable_text_Ok, ascii_text_forallb. Qed.

Lemma encodable_value v :
  json.encodable (value_to_json v) = json.Ok tt ↔ ascii_value v.
Proof. destruct v as [ s | b ]; [ apply json_facts.encodable_text_Ok | done ]. Qed.

Lemma encodable_dict (id : dict_id) (d : dict) :
  json.encodable (dict_to_json id d) = json.Ok tt ↔ ascii_dict d.
Proof.
  unfold dict_to_json, ascii_dict. rewrite json_facts.encodable_Object.
  rewrite Forall_fmap, Forall_forall, map_Forall_lookup. unfold compose.
  split.
  - intros H key v Hv. apply elem_of_iteritems with (id := id) in Hv.
    destruct (H _ Hv) as [Hk Hx]. cbn [fst snd] in *.
    split; [ by apply json_facts.encodable_text_Ok | by apply encodable_value ].
  - intros H [key v] Hv%elem_of_iteritems. destruct (H _ _ Hv) as [Hk Hx].
    cbn [fst snd].
    split; [ by apply json_facts.encodable_text_Ok | by apply encodable_value ].
Qed.

Lemma encodable_log (l : addr) (entries : list dict) :
  json.encodable (Record.log_to_json l entries) = json.Ok tt ↔ Forall ascii_dict entries.
Proof.
  unfold Record.log_to_json. rewrite json_facts.encodable_Array.
  generalize (Entry l) as id. induction entries as [ | e entries IH ]; intros id.
  - split; constructor.
  - rewrite imap_cons, !Forall_cons, encodable_dict. unfold compose.
    by rewrite (IH (λ i, id (S i))).
Qed.

(** *** How deep what is written is nested *)

Lemma nesting_Object_le members depth :
  Forall (λ m : string * json.value, nesting m.2 ≤ depth) members →
  nesting (json.Object members) ≤ S depth.
Proof.
  induction 1 as [ | m members Hm _ IH ]; cbn [nesting foldr] in *; lia.
Qed.

Lemma nesting_Array_le items depth :
  Forall (λ x, nesting x ≤ depth) items → nesting (json.Array items) ≤ S depth.
Proof.
  induction 1 as [ | x items Hx _ IH ]; cbn [nesting foldr] in *; lia.
Qed.

Lemma nesting_value v : nesting (value_to_json v) = 0.
Proof. by destruct v. Qed.

Lemma nesting_dict (id : dict_id) (d : dict) : nesting (dict_to_json id d) ≤ 1.
Proof.
  apply nesting_Object_le, Forall_fmap, Forall_forall. intros [k v] _.
  unfold compose. cbn [snd]. by rewrite nesting_value.
Qed.

Lemma nesting_log (l : addr) (entries : list dict) :
  nesting (Record.log_to_json l entries) ≤ 2.
Proof.
  apply nesting_Array_le. unfold Record.log_to_json.
  generalize (Entry l) as id. induction entries as [ | e entries IH ]; intros id.
  - constructor.
  - rewrite imap_cons. constructor; [ apply nesting_dict | apply (IH (λ i, id (S i))) ].
Qed.

End glue.

Lemma load_run item members n d p jd dn jm entries jo o σ :
  json.loads item = json.Ok (json.Object members) →
  json.get "name" members = Some (json.Str n) →
  json.get "due_date" members = Some (json.Str d) →
  json.get "priority" members = Some (json.Str p) →
  json.get "done" members = Some jd → json_to_value jd = Some dn →
  json.get "modifications" members = Some jm →
  Record.json_to_entries jm = Some entries →
  json.get "original" members = Some jo →
  Record.json_to_original jo = Some o →
  Record.load item σ
  = (Return (length (objects σ)),
     mkStore
       (objects σ ++
        [mkRecord n d p dn (length (lists σ))
           (if Record.falsy o then Record.snapshot n d p dn else default ∅ o) ∅])
       (lists σ ++ [entries]) (records σ) (stdout σ)).
Proof.
  intros Hobj Hn Hd Hp Hjd Hdn Hjm Hents Hjo Ho.
  unfold Record.load. rewrite Hobj. unfold Record.member.
  rewrite Hn, Hd, Hp, Hjd, Hjm, Hjo. mrun.
  cbn [Record.json_to_text modelled]. mrun.
  rewrite Hdn, Hents, Ho. cbn [modelled]. mrun. reflexivity.
Qed.

Section write.
Context {py : Interpreter}.

Lemma write_run σ self r entries :
  holds self r entries σ →
  Record.write self σ
  = match json.dumps (json.Object (write_members self r entries)) with
    | json.Ok line => (Return line, σ)
    | json.Error => (Raise UnicodeDecodeError, σ)
    | json.Beyond => (Raise Unmodelled, σ)
    end.
Proof.
  intros [Hr Hl]. unfold Record.write, get_object, get_list. mrun.
  rewrite Hr. mrun. rewrite Hl. unfold write_members.
  by destruct (json.dumps _).
Qed.

Lemma elem_of_write_members self r entries key v :
  (key, v) ∈ write_members self r entries →
  (key, v) ∈ [ ("name", json.Str (name r));
               ("due_date", json.Str (due_date r));
               ("priority", json.Str (priority r));
               ("done", value_to_json (done r));
               ("original", dict_to_json (Original self) (original r));
               ("modifications", Record.log_to_json (modifications r) entries) ].
Proof.
  unfold write_members. rewrite elem_of_iteritems. apply elem_of_list_to_map_2.
Qed.

Lemma write_members_encodable self r entries :
  ascii_record r entries →
  json.encodable (json.Object (write_members self r entries)) = json.Ok tt.
Proof.
  intros (Hn & Hd & Hp & Hdone & Ho & Hentries).
  apply json_facts.encodable_Object, Forall_forall.
  intros [key v] Hm%elem_of_write_members. cbn [fst snd].
  repeat (apply elem_of_cons in Hm as [ [= -> ->] | Hm ];
          [ split; [ by apply encodable_key | ]
          | ]).
  - by apply json_facts.encodable_text_Ok.
  - by apply json_facts.encodable_text_Ok.
  - by apply json_facts.encodable_text_Ok.
  - by apply encodable_value.
  - by apply encodable_dict.
  - by apply encodable_log.
  - by apply elem_of_nil in Hm.
Qed.

Lemma write_members_nesting self r entries :
  nesting (json.Object (write_members self r entries)) ≤ json.max_depth.
Proof.
  transitivity 3; [ | unfold json.max_depth; lia ].
  apply nesting_Object_le, Forall_forall.
  intros [key v] Hm%elem_of_write_members. cbn [snd].
  repeat (apply elem_of_cons in Hm as [ [= -> ->] | Hm ]; [ | ]).
  - cbn. lia.
  - cbn. lia.
  - cbn. lia.
  - rewrite nesting_value. lia.
  - pose proof (nesting_dict (Original self) (original r)). lia.
  - apply nesting_log.
  - by apply elem_of_nil in Hm.
Qed.

(** [write] returns a line when all the text of the record is ASCII. *)
Lemma write_returns σ self r entries :
  holds self r entries σ → ascii_record r entries →
  ∃ line, Record.write self σ = (Return line, σ).
Proof.
  intros Hσ Hascii. rewrite (write_run σ self r entries Hσ). unfold json.dumps.
  rewrite (write_members_encodable self r entries Hascii). cbn. eauto.
Qed.

Lemma write_Return σ self r entries line σ' :
  holds self r entries σ →
  Record.write self σ = (Return line, σ') →
  σ' = σ ∧ json.dumps (json.Object (write_members self r entries)) = json.Ok line.
Proof.
  intros Hσ. rewrite (write_run σ self r entries Hσ).
  destruct (json.dumps _) as [ line' | | ]; [ | done.. ]. by intros [= -> ->].
Qed.

(** The line [write] returns, also with white space after it, loads as
    the record it was written from: with the same name, due date,
    priority, done and entries, and with the same original unless that
    is empty. *)
Lemma load_dumps self r entries line ws σ :
  json.dumps (json.Object (write_members self r entries)) = json.Ok line →
  forallb json.is_ws ws = true →
  Record.load (line +:+ text ws) σ
  = (Return (length (objects σ)),
     mkStore
       (objects σ ++
        [mkRecord (name r) (due_date r) (priority r) (done r) (length (lists σ))
           (if bool_decide (original r = ∅)
            then Record.snapshot (name r) (due_date r) (priority r) (done r)
            else original r) ∅])
       (lists σ ++ [entries]) (records σ) (stdout σ)).
Proof.
  intros Hline Hws.
  apply (load_run _ (write_members self r entries)
           (name r) (due_date r) (priority r)
           (value_to_json (done r)) (done r)
           (Record.log_to_json (modifications r) entries) entries
           (dict_to_json (Original self) (original r)) (Some (original r)) σ).
  - apply json_facts.loads_dumps; [ done | apply write_members_nesting | done ].
  - unfold write_members. by rewrite get_iteritems.
  - unfold write_members. by rewrite get_iteritems.
  - unfold write_members. by rewrite get_iteritems.
  - unfold write_members. by rewrite get_iteritems.
  - apply json_to_value_to_json.
  - unfold write_members. by rewrite get_iteritems.
  - apply json_to_entries_to_json.
  - unfold write_members. by rewrite get_iteritems.
  - apply json_to_original_to_json.
Qed.

Lemma text_nil_r (s : string) : s +:+ text [] = s.
Proof.
  induction s as [ | c s IH ]; [ done | ].
  change (String c (s +:+ text []) = String c s). by rewrite IH.
Qed.

Lemma load_written σ self r entries line σ' σ1 :
  holds self r entries σ →
  Record.write self σ = (Return line, σ') →
  Record.load line σ1
  = (Return (length (objects σ1)),
     mkStore
       (objects σ1 ++
        [mkRecord (name r) (due_date r) (priority r) (done r) (length (lists σ1))
           (if bool_decide (original r = ∅)
            then Record.snapshot (name r) (due_date r) (priority r) (done r)
            else original r) ∅])
       (lists σ1 ++ [entries]) (records σ1) (stdout σ1)).
Proof.
  intros Hσ [_ Hline]%(write_Return σ self r entries); [ | done ].
  rewrite <- (text_nil_r line). by apply (load_dumps self r entries).
Qed.

End write.

(** *** Text that passes the rules *)

Lemma digit_is_ascii c d : datetime.digit c = Some d → json.is_ascii c = true.
Proof.
  destruct c as [[] [] [] [] [] [] [] []]; intros H; try reflexivity;
    by vm_compute in H.
Qed.

Lemma number_from_is_ascii t acc n :
  number_from acc t = Some n → Forall (λ c, json.is_ascii c = true) t.
Proof.
  revert acc. induction t as [ | c t IH ]; intros acc; [ constructor | ].
  cbn [number_from]. destruct (datetime.digit c) as [ d | ] eqn:Hd; [ | done ].
  cbn. intros H. constructor; [ by eapply digit_is_ascii | by eapply IH ].
Qed.

Lemma number_is_ascii t n : number t = Some n → Forall (λ c, json.is_ascii c = true) t.
Proof. destruct t; [ done | apply number_from_is_ascii ]. Qed.

Lemma Date_check_date_text target : Date_check target = true → date_text false target.
Proof.
  unfold Date_check. rewrite bool_decide_eq_true. intros Hparsed.
  destruct (datetime.strptime_Ymd target) as [ [[y m] d] | ] eqn:E; [ | done ].
  apply datetime_facts.strptime_Ymd_Some in E as [Hhead [Hy Hd]].
  apply head_Some_elem_of in Hhead. unfold datetime.re_Ymd in Hhead.
  apply datetime_facts.elem_of_seq in Hhead as (y' & r1 & HY & H).
  apply datetime_facts.elem_of_seq in H as (u1 & r2 & Hs1 & H); destruct u1.
  apply datetime_facts.elem_of_seq in H as (m' & r3 & HM & H).
  apply datetime_facts.elem_of_seq in H as (u2 & r4 & Hs2 & H); destruct u2.
  apply datetime_facts.elem_of_seq in H as (d' & r5 & HD & H).
  apply datetime_facts.elem_of_ret in H as [= <- <- <- <-].
  apply datetime_facts.elem_of_lit in Hs1 as ->.
  apply datetime_facts.elem_of_lit in Hs2 as ->.
  apply datetime_facts.re_Y_elem in HY as (Y & HY & HYt).
  apply datetime_facts.re_m_elem in HM as (M & -> & HMt & Hm).
  apply datetime_facts.re_d_elem in HD as (D & -> & HDt & Hd').
  rewrite app_nil_r in HY.
  exists Y, M, D, y, m, d. unfold calendar_date. done.
Qed.

(** A text that the date rule accepts is ASCII, and so is one that the
    priority rule accepts. *)
Lemma Date_check_ascii target : Date_check target = true → ascii_text target.
Proof.
  intros (Y & M & D & y & m & d & Hs & [HY _] & [HM _] & HD & _)%Date_check_date_text.
  unfold ascii_text. rewrite Hs.
  apply number_is_ascii in HY, HM.
  assert (HD' : Forall (λ c, json.is_ascii c = true) D).
  { destruct HD as [ [HD _] | (_ & c & -> & Hc) ]; [ by eapply number_is_ascii | ].
    constructor; [ done | ]. constructor; [ by eapply digit_is_ascii | constructor ]. }
  rewrite Forall_app, Forall_cons, Forall_app, Forall_cons. done.
Qed.

Lemma Priority_check_ascii target : Priority_check target = true → ascii_text target.
Proof.
  unfold Priority_check, Priority_types. rewrite bool_decide_eq_true.
  intros H. repeat (apply elem_of_cons in H as [ -> | H ];
                    [ by apply ascii_text_forallb | ]).
  by apply elem_of_nil in H.
Qed.

(** *** Text that cannot be written *)

Lemma encodable_Object_not_Beyond members :
  Forall (λ m : string * json.value,
            (json.encodable_text (chars m.1);; json.encodable m.2) ≠ json.Beyond)
         members →
  json.encodable (json.Object members) ≠ json.Beyond.
Proof.
  induction 1 as [ | [k v] members Hm _ IH ]; [ done | ].
  cbn [json.encodable fst snd] in *.
  destruct (json.encodable_text (chars k)) as [ [] | | ]; cbn in *; [ | done.. ].
  destruct (json.encodable v) as [ [] | | ]; cbn in *; done.
Qed.

Lemma encodable_Object_Error members :
  Forall (λ m : string * json.value,
            (json.encodable_text (chars m.1);; json.encodable m.2) ≠ json.Beyond)
         members →
  Exists (λ m : string * json.value,
            (json.encodable_text (chars m.1);; json.encodable m.2) = json.Error)
         members →
  json.encodable (json.Object members) = json.Error.
Proof.
  induction 1 as [ | [k v] members Hm Hall IH ]; intros Hex.
  - by apply Exists_nil in Hex.
  - pose proof (encodable_Object_not_Beyond members Hall) as Hnb.
    apply Exists_cons in Hex. cbn [json.encodable fst snd] in *.
    destruct (json.encodable_text (chars k)) as [ [] | | ]; cbn in *; [ | done.. ].
    destruct (json.encodable v) as [ [] | | ]; cbn in *; [ | done.. ].
    destruct Hex as [ Hex | Hex ]; [ done | by apply IH ].
Qed.

Lemma encodable_text_ascii s :
  ascii_text s → json.encodable_text (chars s) = json.Ok tt.
Proof. apply json_facts.encodable_text_Ok. Qed.

Section unwritable.
Context {py : Interpreter}.

Lemma encodable_dict_not_Beyond id (d : dict) :
  map_Forall (λ key v, ascii_text key
                       ∧ json.encodable (value_to_json v) ≠ json.Beyond) d →
  json.encodable (dict_to_json id d) ≠ json.Beyond.
Proof.
  intros Hd. apply encodable_Object_not_Beyond, Forall_fmap, Forall_forall.
  intros [key v] Hv%elem_of_iteritems. unfold compose. cbn [fst snd].
  destruct (Hd key v Hv) as [Hk Hx]. rewrite (encodable_text_ascii key Hk). done.
Qed.

(** [write] raises [UnicodeDecodeError] for a record whose name has, as
    its first byte above 127, one that starts no UTF-8 sequence, when the
    rest of its text is ASCII. *)
Lemma write_raises σ self r entries :
  holds self r entries σ →
  json.encodable_text (chars (name r)) = json.Error →
  ascii_text (due_date r) → ascii_text (priority r) → ascii_value (done r) →
  map_Forall (λ key v, ascii_text key
                       ∧ json.encodable (value_to_json v) ≠ json.Beyond)
             (original r) →
  Forall ascii_dict entries →
  Record.write self σ = (Raise UnicodeDecodeError, σ).
Proof.
  intros Hσ Hn Hd Hp Hdone Ho Hentries.
  rewrite (write_run σ self r entries Hσ). unfold json.dumps.
  rewrite encodable_Object_Error; [ done | | ].
  - apply Forall_forall. intros [key v] Hm%elem_of_write_members. cbn [fst snd].
    repeat (apply elem_of_cons in Hm as [ [= -> ->] | Hm ]; [ | ]).
    + cbn. by rewrite Hn.
    + cbn. by rewrite (encodable_text_ascii _ Hd).
    + cbn. by rewrite (encodable_text_ascii _ Hp).
    + apply encodable_value in Hdone. cbn. by rewrite Hdone.
    + cbn. by apply encodable_dict_not_Beyond.
    + apply (encodable_log (modifications r)) in Hentries. rewrite Hentries. by cbn.
    + by apply elem_of_nil in Hm.
  - apply Exists_exists. exists ("name", json.Str (name r)). split.
    + unfold write_members. by apply elem_of_iteritems.
    + cbn. by rewrite Hn.
Qed.

End unwritable.

(** C1, as stated, fails: the line whose name is the one byte 255 passes
    the three rules, and [write] of the record parsed from it raises
    [UnicodeDecodeError], whatever the interpreter's order. *)
Lemma parse_write_raises_on_non_ascii_name :
  split ";" (String "255" ";2024/01/15;major")
  = [String "255" EmptyString; "2024/01/15"; "major"]
  ∧ String_check 20 (String "255" EmptyString) = true
  ∧ Date_check "2024/01/15" = true ∧ Priority_check "major" = true
  ∧ ∀ py : Interpreter, ∃ σ1,
      Record.parse (String "255" ";2024/01/15;major") initial = (Return 0, σ1)
      ∧ Record.write 0 σ1 = (Raise UnicodeDecodeError, σ1).
Proof.
  do 4 (split; [ reflexivity | ]). intros py.
  exists (with_object
            (mkRecord (String "255" EmptyString) "2024/01/15" "major" (VBool false)
               default_modifications
               (Record.snapshot (String "255" EmptyString) "2024/01/15" "major"
                  (VBool false)) ∅) initial).
  split; [ rewrite parse_spec; reflexivity | ].
  apply (write_raises _ 0
           (mkRecord (String "255" EmptyString) "2024/01/15" "major" (VBool false)
              default_modifications
              (Record.snapshot (String "255" EmptyString) "2024/01/15" "major"
                 (VBool false)) ∅) []).
  - split; reflexivity.
  - reflexivity.
  - by apply ascii_text_forallb.
  - by apply ascii_text_forallb.
  - done.
  - intros key v Hv. apply elem_of_list_to_map_2 in Hv.
    repeat (apply elem_of_cons in Hv as [ [= -> ->] | Hv ];
            [ split; [ by apply ascii_text_forallb | by vm_compute ] | ]).
    by apply elem_of_nil in Hv.
  - constructor.
Qed.

(** C1, amended: for a line [name;due_date;priority] whose three fields
    pass their rules and whose name is ASCII, [parse] creates a record
    with these fields and done [False]; [write] returns a line for it
    (the entries that the shared list holds being ASCII); and [load] of
    that line, in any store, creates a record with the same name, due
    date, priority and done. For a name whose first byte above 127
    starts no UTF-8 sequence, [write] raises [UnicodeDecodeError]
    instead. *)
Theorem parse_write_load_round_trip {py : Interpreter} line n d p σ entries :
  split ";" line = [n; d; p] →
  String_check 20 n = true → Date_check d = true → Priority_check p = true →
  lists σ !! default_modifications = Some entries → Forall ascii_dict entries →
  ∃ a σ1 r1,
    Record.parse line σ = (Return a, σ1)
    ∧ objects σ1 !! a = Some r1
    ∧ name r1 = n ∧ due_date r1 = d ∧ priority r1 = p ∧ done r1 = VBool false
    ∧ (ascii_text n →
       ∃ json_line,
         Record.write a σ1 = (Return json_line, σ1)
         ∧ ∀ σ', ∃ b σ2 r2,
             Record.load json_line σ' = (Return b, σ2)
             ∧ objects σ2 !! b = Some r2
             ∧ name r2 = name r1 ∧ due_date r2 = due_date r1
             ∧ priority r2 = priority r1 ∧ done r2 = done r1)
    ∧ (json.encodable_text (chars n) = json.Error →
       Record.write a σ1 = (Raise UnicodeDecodeError, σ1)).
Proof.
  intros Hsplit Hn Hd Hp Hl Hentries.
  set (r1 := mkRecord n d p (VBool false) default_modifications
               (Record.snapshot n d p (VBool false)) ∅).
  assert (Hparse : Record.parse line σ = (Return (length (objects σ)), with_object r1 σ)).
  { rewrite parse_spec. unfold parse_outcome. by rewrite Hsplit, Hn, Hd, Hp. }
  assert (Hσ1 : holds (length (objects σ)) r1 entries (with_object r1 σ)).
  { split; cbn; [ by rewrite lookup_app_r, Nat.sub_diag | done ]. }
  pose proof (Date_check_ascii d Hd) as Had.
  pose proof (Priority_check_ascii p Hp) as Hap.
  exists (length (objects σ)), (with_object r1 σ), r1.
  split; [ exact Hparse | ]. split; [ apply Hσ1 | ]. do 4 (split; [ done | ]).
  split.
  - intros Han.
    destruct (write_returns _ _ r1 entries Hσ1) as [json_line Hw].
    { do 4 (split; [ done | ]). split; [ | done ].
      intros key v Hv. apply elem_of_list_to_map_2 in Hv.
      repeat (apply elem_of_cons in Hv as [ [= -> ->] | Hv ];
              [ split; [ by apply ascii_text_forallb | done ] | ]).
      by apply elem_of_nil in Hv. }
    exists json_line. split; [ exact Hw | ]. intros σ'.
    eexists _, _, _. split; [ by apply (load_written _ _ r1 entries _ _ σ' Hσ1 Hw) | ].
    split; [ cbn [objects]; by rewrite lookup_app_r, Nat.sub_diag | ]. done.
  - intros Hbad. apply (write_raises _ _ r1 entries); try done.
    intros key v Hv. apply elem_of_list_to_map_2 in Hv.
    repeat (apply elem_of_cons in Hv as [ [= -> ->] | Hv ];
            [ split; [ by apply ascii_text_forallb | ] | ]).
    + cbn. by rewrite Hbad.
    + cbn. by rewrite (encodable_text_ascii _ Had).
    + cbn. by rewrite (encodable_text_ascii _ Hap).
    + done.
    + by apply elem_of_nil in Hv.
Qed.

Lemma parse_write_load_round_trip_witness :
  ∃ a σ1 r1,
    Record.parse "short name;2024/01/15;major" initial = (Return a, σ1)
    ∧ objects σ1 !! a = Some r1
    ∧ name r1 = "short name" ∧ due_date r1 = "2024/01/15"
    ∧ priority r1 = "major" ∧ done r1 = VBool false
    ∧ (ascii_text "short name" →
       ∃ json_line,
         Record.write (H := reverse_key_order) a σ1 = (Return json_line, σ1)
         ∧ ∀ σ', ∃ b σ2 r2,
             Record.load json_line σ' = (Return b, σ2)
             ∧ objects σ2 !! b = Some r2
             ∧ name r2 = name r1 ∧ due_date r2 = due_date r1
             ∧ priority r2 = priority r1 ∧ done r2 = done r1)
    ∧ (json.encodable_text (chars "short name") = json.Error →
       Record.write (H := reverse_key_order) a σ1 = (Raise UnicodeDecodeError, σ1)).
Proof.
  apply (parse_write_load_round_trip (py := reverse_key_order)
           "short name;2024/01/15;major" "short name" "2024/01/15" "major"
           initial []); try reflexivity.
  constructor.
Defined.

(** ** The original snapshot *)

Ltac mrun_in H :=
  repeat first
    [ rewrite bind_run in H
    | rewrite ret_run in H
    | rewrite raise_run in H
    | progress cbn beta iota in H ].

Lemma load_inv item σ a σ' :
  Record.load item σ = (Return a, σ') →
  ∃ members n d p jd dn jm entries jo o,
    json.loads item = json.Ok (json.Object members)
    ∧ json.get "name" members = Some (json.Str n)
    ∧ json.get "due_date" members = Some (json.Str d)
    ∧ json.get "priority" members = Some (json.Str p)
    ∧ json.get "done" members = Some jd ∧ json_to_value jd = Some dn
    ∧ json.get "modifications" members = Some jm
    ∧ Record.json_to_entries jm = Some entries
    ∧ json.get "original" members = Some jo
    ∧ Record.json_to_original jo = Some o.
Proof.
  unfold Record.load. intros H.
  destruct (json.loads item) as [ obj | | ] eqn:Hobj; [ | done.. ].
  unfold Record.member in H.
  destruct obj as [ | b | literal | s | items | members ]; try done.
  destruct (json.get "name" members) as [ jn | ] eqn:Hn; [ | done ]. mrun_in H.
  destruct (json.get "due_date" members) as [ jdd | ] eqn:Hd; [ | done ]. mrun_in H.
  destruct (json.get "priority" members) as [ jp | ] eqn:Hp; [ | done ]. mrun_in H.
  destruct (json.get "done" members) as [ jd | ] eqn:Hjd; [ | done ]. mrun_in H.
  destruct (json.get "modifications" members) as [ jm | ] eqn:Hjm; [ | done ].
  mrun_in H.
  destruct (json.get "original" members) as [ jo | ] eqn:Hjo; [ | done ]. mrun_in H.
  destruct jn as [ | | | n | | ]; try done. cbn [Record.json_to_text modelled] in H.
  mrun_in H.
  destruct jdd as [ | | | d | | ]; try done. cbn [Record.json_to_text modelled] in H.
  mrun_in H.
  destruct jp as [ | | | p | | ]; try done. cbn [Record.json_to_text modelled] in H.
  mrun_in H.
  destruct (json_to_value jd) as [ dn | ] eqn:Hdn; [ | done ].
  cbn [modelled] in H. mrun_in H.
  destruct (Record.json_to_entries jm) as [ entries | ] eqn:Hents; [ | done ].
  cbn [modelled] in H. mrun_in H.
  destruct (Record.json_to_original jo) as [ o | ] eqn:Ho; [ | done ].
  by exists members, n, d, p, jd, dn, jm, entries, jo, o.
Qed.

Lemma snapshot_not_empty n d p dn : Record.snapshot n d p dn ≠ ∅.
Proof. intros E. apply (f_equal (λ m : dict, m !! "name")) in E. done. Qed.

Lemma __init___run n d p dn l o σ :
  ∃ r,
    Record.__init__ n d p dn l o σ = (Return (length (objects σ)), with_object r σ)
    ∧ original r ≠ ∅
    ∧ (original r = Record.snapshot n d p dn ∨ o = Some (original r)).
Proof.
  eexists. split; [ reflexivity | ]. cbn [original].
  destruct o as [ o | ]; cbn [Record.falsy from_option id].
  - case_bool_decide; [ split; [ apply snapshot_not_empty | by left ] | ].
    split; [ done | by right ].
  - split; [ apply snapshot_not_empty | by left ].
Qed.

(** C7: the original of a record is set when the record is constructed,
    to the argument or, when that is [None] or empty, to the snapshot of
    the fields, and is never empty; no sequence of [modify], [mark_done],
    [remove_all], [mark_done_all] and [modify_all] changes it; and the
    record loaded from the line that [write] returns for a record has
    that record's original itself, whatever the current fields are. *)
Theorem original_kept_and_loaded_verbatim {py : Interpreter} :
  (∀ n d p dn l o σ,
     ∃ r,
       Record.__init__ n d p dn l o σ
       = (Return (length (objects σ)), with_object r σ)
       ∧ original r ≠ ∅
       ∧ (original r = Record.snapshot n d p dn ∨ o = Some (original r)))
  ∧ (∀ σ a r ops,
       objects σ !! a = Some r →
       ∃ r', objects (after ops σ) !! a = Some r' ∧ original r' = original r)
  ∧ (∀ σ self r entries line σ' σ1,
       holds self r entries σ → original r ≠ ∅ →
       Record.write self σ = (Return line, σ') →
       ∃ b σ2 r2,
         Record.load line σ1 = (Return b, σ2)
         ∧ objects σ2 !! b = Some r2 ∧ original r2 = original r).
Proof.
  split; [ apply __init___run | ]. split.
  - intros σ a r ops Hr.
    destruct (after_keeps ops σ a r Hr) as (r' & Hr' & _ & Ho). eauto.
  - intros σ self r entries line σ' σ1 Hσ Ho Hw.
    eexists _, _, _. split; [ by apply (load_written σ self r entries line σ' σ1) | ].
    split; [ cbn [objects]; by rewrite lookup_app_r, Nat.sub_diag | ].
    cbn [original]. by rewrite bool_decide_eq_false_2.
Qed.

Lemma original_kept_and_loaded_verbatim_witness :
  let σ := (Records.modify_all ["a;priority:major"; "a;name:c"] example_store).2 in
  let r := mkRecord "c" "2024/01/01" "major" (VBool false) default_modifications
             (Record.snapshot "a" "2024/01/01" "minor" (VBool false)) ∅ in
  ∃ line,
    Record.write (H := reverse_key_order) 0 σ = (Return line, σ)
    ∧ ∃ b σ2 r2,
        Record.load line initial = (Return b, σ2)
        ∧ objects σ2 !! b = Some r2 ∧ original r2 = original r.
Proof.
  intros σ r.
  assert (Hσ : holds 0 r [ {[ "priority" := VStr "major" ]}; {[ "name" := VStr "c" ]} ] σ).
  { split; reflexivity. }
  destruct (write_returns (py := reverse_key_order) σ 0 r _ Hσ) as [line Hw].
  { do 3 (split; [ by apply ascii_text_forallb | ]). split; [ done | ]. split.
    - intros key v Hv. apply elem_of_list_to_map_2 in Hv.
      repeat (apply elem_of_cons in Hv as [ [= -> ->] | Hv ];
              [ split; [ by apply ascii_text_forallb | ];
                first [ done | by apply ascii_text_forallb ] | ]).
      by apply elem_of_nil in Hv.
    - repeat (apply Forall_cons; split;
              [ intros key v [<- <-]%lookup_singleton_Some;
                split; by apply ascii_text_forallb | ]).
      by apply Forall_nil. }
  exists line. split; [ exact Hw | ].
  refine (proj2 (proj2 (original_kept_and_loaded_verbatim (py := reverse_key_order)))
            σ 0 r _ line σ initial Hσ _ Hw).
  apply snapshot_not_empty.
Defined.

(** ** One list for every parsed record *)

Lemma parse_modifications line σ a σ' r :
  Record.parse line σ = (Return a, σ') → objects σ' !! a = Some r →
  modifications r = default_modifications.
Proof.
  rewrite parse_spec. unfold parse_outcome.
  destruct (split ";" line) as [ | n [ | d [ | p [ | q rest ] ] ] ]; try done.
  destruct (String_check 20 n); [ | done ].
  destruct (Date_check d); [ | done ].
  destruct (Priority_check p); [ | done ].
  cbn [negb]. intros [= <- <-]. cbn [objects with_object].
  rewrite lookup_app_r, Nat.sub_diag by done. by intros [= <-].
Qed.

Lemma log_of_mark_done σ a b ra rb entries :
  objects σ !! a = Some ra → objects σ !! b = Some rb →
  modifications ra = modifications rb →
  lists σ !! modifications ra = Some entries →
  log_of (Record.mark_done a σ).2 b = Some (entries ++ [{[ "done" := VBool true ]}]).
Proof.
  intros Ha Hb Hab Hl. rewrite (mark_done_run σ a ra entries Ha Hl).
  unfold log_of. cbn [snd objects lists].
  assert (Hlen : modifications ra < length (lists σ)) by by eapply lookup_lt_Some.
  destruct (decide (a = b)) as [ -> | Hne ].
  - rewrite list_lookup_insert_eq by by eapply lookup_lt_Some.
    cbn. by rewrite list_lookup_insert_eq.
  - rewrite list_lookup_insert_ne by done.
    setoid_rewrite Hb. cbn.
    rewrite <- Hab. by rewrite list_lookup_insert_eq.
Qed.

(** C4 does not hold of the code: every record that [parse] constructs
    has the one list of the default argument as its log, so [mark_done]
    on one parsed record appends to the log of every other, and a record
    parsed afterwards starts with that entry in its log. *)
Theorem parsed_records_share_one_log :
  (∀ line σ a σ' r,
     Record.parse line σ = (Return a, σ') → objects σ' !! a = Some r →
     modifications r = default_modifications)
  ∧ (∀ σ a b ra rb entries,
       objects σ !! a = Some ra → objects σ !! b = Some rb →
       modifications ra = modifications rb →
       lists σ !! modifications ra = Some entries →
       log_of (Record.mark_done a σ).2 b
       = Some (entries ++ [{[ "done" := VBool true ]}]))
  ∧ (let σ1 := (Records.add_all ["a;2024/01/01;minor"; "b;2024/01/02;minor"] initial).2 in
     let σ2 := (Records.mark_done_all ["a"] σ1).2 in
     let σ3 := (Record.parse "c;2024/01/03;major" σ2).2 in
     log_of σ1 1 = Some []
     ∧ log_of σ2 1 = Some [{[ "done" := VBool true ]}]
     ∧ Record.parse "c;2024/01/03;major" σ2 = (Return 2, σ3)
     ∧ log_of σ3 2 = Some [{[ "done" := VBool true ]}]).
Proof.
  split; [ apply parse_modifications | ].
  split; [ apply log_of_mark_done | ].
  vm_compute. done.
Qed.

Lemma parsed_records_share_one_log_witness :
  log_of (Record.mark_done 0 example_store).2 1
  = Some ([] ++ [{[ "done" := VBool true ]}]).
Proof.
  refine (proj1 (proj2 parsed_records_share_one_log) example_store 0 1 _ _ [] _ _ _ _);
    reflexivity.
Defined.


(** ** The change history *)

Lemma xrange_down_rev n :
  xrange_down (Z.of_nat n - 1) (-1) = map Z.of_nat (reverse (seq 0 n)).
Proof.
  unfold xrange_down.
  replace (Z.to_nat (Z.of_nat n - 1 - -1)) with n by lia.
  induction n as [ | n IH ].
  - reflexivity.
  - rewrite seq_S at 2. rewrite reverse_snoc. cbn [seq map].
    rewrite <- seq_shift, map_map, <- IH. f_equal; [ lia | ].
    apply map_ext. intros k. lia.
Qed.

Lemma earlier_value_snoc key earlier e :
  earlier_value key (earlier ++ [e])
  = match e !! key with
    | Some v => if truthy v then Some v else earlier_value key earlier
    | None => earlier_value key earlier
    end.
Proof.
  unfold earlier_value. rewrite reverse_snoc. cbn [omap list_omap].
  destruct (e !! key) as [ v | ]; [ | done ].
  rewrite filter_cons. destruct (truthy v) eqn:Hv.
  - by rewrite decide_True.
  - by rewrite decide_False.
Qed.

Lemma iteritems_singleton {py : Interpreter} {V} id (key : string) (v : V) :
  iteritems id ({[ key := v ]} : gmap string V) = [(key, v)].
Proof.
  apply Permutation_singleton_r. rewrite iteritems_Permutation.
  by rewrite map_to_list_singleton.
Qed.

Section history.
Context {py : Interpreter}.
Variables (self : addr) (r : RecordInstance) (entries : list dict).


Lemma self_modifications_run σ :
  holds self r entries σ →
  Record.self_modifications self σ = (Return (modifications r), σ).
Proof.
  intros [Hr _]. unfold Record.self_modifications, get_object. mrun.
  rewrite Hr. reflexivity.
Qed.

Lemma get_list_run σ :
  holds self r entries σ → get_list (modifications r) σ = (Return entries, σ).
Proof. intros [_ Hl]. unfold get_list. by rewrite Hl. Qed.

Lemma _value_before_loop_run key i σ :
  holds self r entries σ → i ≤ length entries →
  Record._value_before_loop self key (map Z.of_nat (reverse (seq 0 i))) σ
  = (Return (earlier_value key (take i entries)), σ).
Proof.
  intros Hσ. induction i as [ | i IH ]; intros Hi.
  - reflexivity.
  - rewrite seq_S, reverse_snoc. cbn [map Record._value_before_loop plus].
    destruct (lookup_lt_is_Some_2 entries i) as [e He]; [ lia | ].
    mrun. rewrite (self_modifications_run _ Hσ). mrun.
    rewrite (get_list_run _ Hσ). mrun. rewrite (index_run _ _ _ _ He). mrun.
    rewrite (take_S_r _ _ _ He), earlier_value_snoc.
    destruct (e !! key) as [ v | ]; [ destruct (truthy v); [ done | ] | ];
      apply IH; lia.
Qed.

Lemma _value_before_run key i σ :
  holds self r entries σ → i ≤ length entries →
  Record._value_before self key (Z.of_nat i - 1) σ
  = match value_before entries (original r) i key with
    | Some v => (Return v, σ)
    | None => (Raise (KeyError key), σ)
    end.
Proof.
  intros Hσ Hi. unfold Record._value_before, value_before.
  rewrite xrange_down_rev. mrun. rewrite (_value_before_loop_run _ _ _ Hσ Hi).
  destruct (earlier_value key (take i entries)) as [ v | ]; [ done | ].
  destruct Hσ as [Hr _]. unfold get_object. mrun. rewrite Hr. mrun.
  unfold item. by destruct (original r !! key).
Qed.

Lemma holds_print line σ : holds self r entries σ → holds self r entries (print line σ).2.
Proof. done. Qed.

Lemma show_holds lines σ : holds self r entries σ → holds self r entries (show lines σ).2.
Proof.
  revert σ. induction lines as [ | [key [ line | ]] lines IH ]; intros σ Hσ;
    [ done | | done ].
  cbn [show]. mrun. unfold print. by apply IH.
Qed.

Lemma show_app l1 l2 σ :
  show (l1 ++ l2) σ
  = match show l1 σ with
    | (Return _, σ') => show l2 σ'
    | (Raise e, σ') => (Raise e, σ')
    end.
Proof.
  revert σ. induction l1 as [ | [key [ line | ]] l1 IH ]; intros σ;
    [ done | | done ].
  cbn [show app]. mrun. unfold print. apply IH.
Qed.

Lemma entry_run i (fields : list (string * value)) σ :
  holds self r entries σ → i ≤ length entries →
  for_each (λ kv : string * value,
              before ← Record._value_before self kv.1 (Z.of_nat i - 1);
              print (Record.change_line kv.1 before kv.2)) fields σ
  = show (map (λ kv : string * value,
                 (kv.1, before ← value_before entries (original r) i kv.1;
                        Some (Record.change_line kv.1 before kv.2))) fields) σ.
Proof.
  intros Hσ Hi. revert σ Hσ.
  induction fields as [ | [key value] fields IH ]; intros σ Hσ; [ done | ].
  cbn [for_each map show fst snd]. mrun. rewrite (_value_before_run _ _ _ Hσ Hi).
  destruct (value_before entries (original r) i key) as [ before | ]; [ | done ].
  cbn. mrun. unfold print. apply IH. done.
Qed.

Lemma entries_run (range : list nat) σ :
  holds self r entries σ → Forall (λ i, i < length entries) range →
  for_each (λ i : Z,
              l ← Record.self_modifications self;
              entries ← get_list l;
              after ← index entries i;
              for_each (λ kv : string * value,
                          before ← Record._value_before self kv.1 (i - 1);
                          print (Record.change_line kv.1 before kv.2))
                       (iteritems (Entry l (Z.to_nat i)) after))
           (map Z.of_nat range) σ
  = show (i ← range; entry_history (modifications r) entries (original r) i) σ.
Proof.
  intros Hσ Hrange. revert σ Hσ.
  induction Hrange as [ | i range Hi Hrange IH ]; intros σ Hσ; [ done | ].
  cbn [map for_each]. rewrite bind_cons, show_app.
  destruct (lookup_lt_is_Some_2 entries i Hi) as [e He].
  mrun. rewrite (self_modifications_run _ Hσ). mrun.
  rewrite (get_list_run _ Hσ). mrun. rewrite (index_run _ _ _ _ He). mrun.
  rewrite Nat2Z.id.
  rewrite (entry_run i (iteritems (Entry (modifications r) i) e) σ Hσ) by lia.
  unfold entry_history at 1. rewrite He.
  pose proof (show_holds
    (map (λ kv : string * value,
            (kv.1, before ← value_before entries (original r) i kv.1;
                   Some (Record.change_line kv.1 before kv.2)))
         (iteritems (Entry (modifications r) i) e))
    σ Hσ) as Hσ'.
  destruct (show _ σ) as [[ [] | e' ] σ']; [ | done ].
  apply IH. exact Hσ'.
Qed.

Lemma _print_changes_run σ :
  holds self r entries σ →
  Record._print_changes self σ
  = show (history (modifications r) entries (original r)) σ.
Proof.
  intros Hσ. unfold Record._print_changes.
  mrun. rewrite (self_modifications_run _ Hσ). mrun.
  rewrite (get_list_run _ Hσ). mrun. rewrite xrange_down_rev.
  apply entries_run; [ done | ].
  apply Forall_forall. intros i Hi. apply elem_of_reverse, elem_of_seq in Hi. lia.
Qed.

End history.




Section history_facts.
Context {py : Interpreter}.

Lemma history_snoc l entries e original_ :
  history l (entries ++ [e]) original_
  = entry_history l (entries ++ [e]) original_ (length entries)
    ++ (i ← reverse (seq 0 (length entries));
        entry_history l (entries ++ [e]) original_ i).
Proof.
  unfold history. rewrite length_app. cbn [length].
  rewrite Nat.add_1_r, seq_S, reverse_snoc, bind_cons. done.
Qed.

Lemma entry_history_last l entries key v original_ :
  entry_history l (entries ++ [{[ key := v ]}]) original_ (length entries)
  = [ (key, before ← (match earlier_value key entries with
                       | Some b => Some b
                       | None => original_ !! key
                       end);
            Some (Record.change_line key before v)) ].
Proof.
  unfold entry_history. rewrite list_lookup_middle by done.
  rewrite iteritems_singleton. cbn [map fst snd]. unfold value_before.
  by rewrite take_app_length.
Qed.

Lemma entry_history_fields l entries original_ i after :
  entries !! i = Some after →
  NoDup (entry_history l entries original_ i).*1
  ∧ ∀ key line,
      (key, line) ∈ entry_history l entries original_ i ↔
      ∃ value,
        after !! key = Some value
        ∧ line = (before ← value_before entries original_ i key;
                  Some (Record.change_line key before value)).
Proof.
  intros Hi. unfold entry_history. rewrite Hi. split.
  - rewrite <- list_fmap_compose.
    rewrite (iteritems_Permutation (Entry l i) after).
    apply (NoDup_fst_map_to_list after).
  - intros key line. rewrite list_elem_of_fmap. split.
    + intros ([key' value] & [= -> ->] & Hin).
      rewrite iteritems_Permutation in Hin.
      apply elem_of_map_to_list in Hin. by exists value.
    + intros (value & Hv & ->). exists (key, value). split; [ done | ].
      rewrite iteritems_Permutation. by apply elem_of_map_to_list.
Qed.




End history_facts.




(** ** Splitting and joining *)

Lemma join_cons sep seg segs :
  segs ≠ [] → join sep (seg :: segs) = seg +:+ String sep (join sep segs).
Proof. by destruct segs. Qed.

Lemma join_split sep s : join sep (split sep s) = s.
Proof.
  induction s as [ | c s IH ]; [ done | ]. cbn [split].
  pose proof (split_nonempty sep s) as Hne.
  destruct (Ascii.eqb_spec c sep) as [ -> | _ ].
  - rewrite join_cons by done. by rewrite IH.
  - destruct (split sep s) as [ | seg segs ]; [ done | ].
    destruct segs as [ | seg' segs ].
    + cbn [join] in *. by rewrite IH.
    + rewrite join_cons by done. rewrite join_cons in IH by done.
      by rewrite <- IH at 1.
Qed.

Lemma split_no_sep sep s : Forall (λ seg, contains sep seg = false) (split sep s).
Proof.
  induction s as [ | c s IH ]; cbn [split]; [ by repeat constructor | ].
  destruct (Ascii.eqb c sep) eqn:Hc; [ by constructor | ].
  destruct (split sep s) as [ | seg segs ]; [ repeat constructor; cbn; by rewrite Hc | ].
  apply Forall_cons in IH as [Hseg Hsegs]. constructor; [ | done ].
  cbn. by rewrite Hc, Hseg.
Qed.

Lemma split_whole sep s : contains sep s = false → split sep s = [s].
Proof.
  induction s as [ | c s IH ]; cbn [split contains]; [ done | ].
  intros [Hc Hs]%orb_false_elim. rewrite Hc, (IH Hs). done.
Qed.

Lemma split_String sep c s :
  split sep (String c s)
  = if Ascii.eqb c sep then EmptyString :: split sep s
    else match split sep s with
         | seg :: segs => String c seg :: segs
         | [] => [String c EmptyString]
         end.
Proof. reflexivity. Qed.

Lemma split_app sep a b :
  contains sep a = false → split sep (a +:+ String sep b) = a :: split sep b.
Proof.
  induction a as [ | c a IH ]; cbn [contains].
  - intros _. change (EmptyString +:+ String sep b) with (String sep b).
    by rewrite split_String, Ascii.eqb_refl.
  - intros [Hc Ha]%orb_false_elim.
    change (String c a +:+ String sep b) with (String c (a +:+ String sep b)).
    by rewrite split_String, Hc, (IH Ha).
Qed.

Lemma split_join sep segs :
  segs ≠ [] → Forall (λ seg, contains sep seg = false) segs →
  split sep (join sep segs) = segs.
Proof.
  intros Hne Hsegs. induction Hsegs as [ | seg segs Hseg Hsegs IH ]; [ done | ].
  destruct segs as [ | seg' segs ].
  - cbn [join]. by apply split_whole.
  - rewrite join_cons by done. rewrite split_app by done. by rewrite IH.
Qed.

Lemma check_key_colon_value key value :
  contains ":" key = false → contains ":" value = false →
  key ∈ ["ordered_keys"; "name"; "due_date"; "priority"] →
  Record.check (key +:+ ":" +:+ value) = Some (key, value).
Proof.
  intros Hk Hv Hkey. apply check_Some. split; [ | done ].
  change (key +:+ ":" +:+ value) with (key +:+ String ":" value).
  by rewrite split_app, split_whole.
Qed.

(** X1: [check] accepts exactly the texts [key:value] with one colon whose key
    is one of the four keys of the schema dictionary, [ordered_keys]
    among them, and returns the two sides of the colon. *)
Theorem check_accepts_key_colon_value item key value :
  Record.check item = Some (key, value) ↔
  item = key +:+ ":" +:+ value
  ∧ contains ":" key = false ∧ contains ":" value = false
  ∧ key ∈ ["ordered_keys"; "name"; "due_date"; "priority"].
Proof.
  split.
  - intros [Hsplit Hkey]%check_Some.
    pose proof (join_split ":" item) as Hjoin.
    pose proof (split_no_sep ":" item) as Hsep.
    rewrite Hsplit in Hjoin, Hsep.
    apply Forall_cons in Hsep as [Hk Hsep]. apply Forall_cons in Hsep as [Hv _].
    done.
  - intros (-> & Hk & Hv & Hkey). by apply check_key_colon_value.
Qed.

(** ** More on [mark_done] and [modify] *)

Lemma holds_mark_done self r entries σ :
  holds self r entries σ →
  Record.mark_done self σ
  = (Return tt,
     mkStore (<[self := with_done (VBool true) r]> (objects σ))
             (<[modifications r := entries ++ [{[ "done" := VBool true ]}]]> (lists σ))
             (records σ) (stdout σ))
  ∧ holds self (with_done (VBool true) r) (entries ++ [{[ "done" := VBool true ]}])
      (Record.mark_done self σ).2.
Proof.
  intros [Hr Hl]. rewrite (mark_done_run σ self r entries Hr Hl).
  split; [ done | ]. split; cbn.
  - apply list_lookup_insert_eq. by eapply lookup_lt_Some.
  - apply list_lookup_insert_eq. by eapply lookup_lt_Some.
Qed.

(** X2: Every call of [mark_done] appends one more [{done: True}] to the log,
    also when the record is done already: after [n + 1] calls the record
    is done and its log has [n + 1] more such entries. *)
Theorem mark_done_appends_each_time σ self r entries n :
  holds self r entries σ →
  for_each (λ _ : unit, Record.mark_done self) (replicate (S n) ()) σ
  = (Return tt,
     mkStore (<[self := with_done (VBool true) r]> (objects σ))
             (<[modifications r :=
                  entries ++ replicate (S n) {[ "done" := VBool true ]}]> (lists σ))
             (records σ) (stdout σ)).
Proof.
  revert σ r entries. induction n as [ | n IH ]; intros σ r entries Hσ.
  - destruct (holds_mark_done _ _ _ _ Hσ) as [Hrun _].
    cbn [replicate for_each]. mrun. by rewrite Hrun.
  - destruct (holds_mark_done _ _ _ _ Hσ) as [Hrun Hσ'].
    change (replicate (S (S n)) ()) with (() :: replicate (S n) ()).
    cbn [for_each]. mrun. rewrite Hrun in Hσ' |- *. cbn [snd] in Hσ'.
    rewrite (IH _ _ _ Hσ'). cbn [objects lists records stdout modifications with_done].
    rewrite list_insert_insert_eq, list_insert_insert_eq.
    rewrite <- app_assoc. done.
Qed.

Lemma mark_done_appends_each_time_witness :
  for_each (λ _ : unit, Record.mark_done 1) (replicate 2 ()) example_store
  = (Return tt,
     mkStore (<[1 := with_done (VBool true)
                       (mkRecord "b" "2024/01/02" "minor" (VBool false)
                          default_modifications
                          (Record.snapshot "b" "2024/01/02" "minor" (VBool false)) ∅)]>
                (objects example_store))
             (<[default_modifications :=
                  [] ++ replicate 2 {[ "done" := VBool true ]}]> (lists example_store))
             (records example_store) (stdout example_store)).
Proof.
  apply (mark_done_appends_each_time example_store 1
           (mkRecord "b" "2024/01/02" "minor" (VBool false) default_modifications
              (Record.snapshot "b" "2024/01/02" "minor" (VBool false)) ∅)
           [] 1).
  split; reflexivity.
Defined.

(** X3: [modify] checks the key of a spec but never the value: for each of the
    three fields and every text [v] without a colon, [modify] with
    [key:v] sets the field to [v] and logs it, whether or not the rule of
    the field would accept [v]. *)
Theorem modify_sets_any_value σ self r entries key v :
  holds self r entries σ →
  key ∈ ["name"; "due_date"; "priority"] → contains ":" v = false →
  ∃ r',
    Record.modify self [key +:+ ":" +:+ v] σ
    = (Return tt,
       mkStore (<[self := r']> (objects σ))
               (<[modifications r := entries ++ [{[ key := VStr v ]}]]> (lists σ))
               (records σ) (stdout σ))
    ∧ r' = (if decide (key = "name") then with_name v r
            else if decide (key = "due_date") then with_due_date v r
            else with_priority v r).
Proof.
  intros [Hr Hl] Hkey Hv.
  assert (Hcheck : Record.check (key +:+ ":" +:+ v) = Some (key, v)).
  { apply check_key_colon_value; [ | done | ].
    - repeat (apply elem_of_cons in Hkey as [ -> | Hkey ]; [ done | ]).
      by apply elem_of_nil in Hkey.
    - by right. }
  eexists. split; [ | reflexivity ].
  rewrite (modify_run σ self r entries _ Hr Hl).
  rewrite accepted_cons, Hcheck. unfold accepted. cbn [omap list_omap].
  unfold entry_of, assign_all. cbn [foldl fst snd].
  rewrite insert_empty.
  repeat (apply elem_of_cons in Hkey as [ -> | Hkey ]; [ done | ]).
  by apply elem_of_nil in Hkey.
Qed.

Lemma modify_sets_any_value_witness :
  Priority_check "urgent" = false
  ∧ ∃ r',
      Record.modify 0 ["priority" +:+ ":" +:+ "urgent"] example_store
      = (Return tt,
         mkStore (<[0 := r']> (objects example_store))
                 (<[default_modifications := [] ++ [{[ "priority" := VStr "urgent" ]}]]>
                    (lists example_store))
                 (records example_store) (stdout example_store))
      ∧ r' = with_priority "urgent"
               (mkRecord "a" "2024/01/01" "minor" (VBool false) default_modifications
                  (Record.snapshot "a" "2024/01/01" "minor" (VBool false)) ∅).
Proof.
  split; [ reflexivity | ].
  apply (modify_sets_any_value example_store 0
           (mkRecord "a" "2024/01/01" "minor" (VBool false) default_modifications
              (Record.snapshot "a" "2024/01/01" "minor" (VBool false)) ∅)
           [] "priority" "urgent").
  - split; reflexivity.
  - apply (bool_decide_unpack _). by vm_compute.
  - reflexivity.
Defined.


(** ** Printing *)

Lemma print_wo_changes_run self r σ :
  objects σ !! self = Some r →
  Record.print_wo_changes self σ = (Return tt, with_printed [current_line r] σ).
Proof.
  intros Hr. unfold Record.print_wo_changes, get_object, current_line. mrun.
  rewrite Hr. mrun. by destruct (truthy (done r)).
Qed.

(** X4: [check] accepts the key [ordered_keys], which no original snapshot
    has: once [modify] has logged a value for it, showing the record with
    its changes prints the record's line and then raises [KeyError]. *)
Theorem changes_of_ordered_keys_raise {py : Interpreter} σ self r entries v :
  holds self r entries σ →
  original r !! "ordered_keys" = None →
  earlier_value "ordered_keys" entries = None →
  contains ":" v = false →
  ∃ σ', Record.modify self ["ordered_keys:" +:+ v] σ = (Return tt, σ')
    ∧ Record.print_w_changes self σ'
      = (Raise (KeyError "ordered_keys"),
         with_printed [current_line (with_attr "ordered_keys" v r)] σ').
Proof.
  intros [Hr Hl] Ho He Hv.
  assert (Hcheck : Record.check ("ordered_keys" +:+ ":" +:+ v) = Some ("ordered_keys", v)).
  { apply check_key_colon_value; [ done | done | by left ]. }
  change ("ordered_keys:" +:+ v) with ("ordered_keys" +:+ ":" +:+ v).
  eexists. split.
  - rewrite (modify_run σ self r entries _ Hr Hl).
    rewrite accepted_cons, Hcheck. unfold accepted. cbn [omap list_omap].
    unfold entry_of, assign_all. cbn [foldl fst snd]. rewrite insert_empty.
    reflexivity.
  - unfold Record.print_w_changes. mrun.
    assert (Hlen : self < length (objects σ)) by by eapply lookup_lt_Some.
    assert (Hlen' : modifications r < length (lists σ)) by by eapply lookup_lt_Some.
    erewrite print_wo_changes_run; [ | cbn; by apply list_lookup_insert_eq ].
    mrun. cbn [from_option id Record.assign].
    rewrite (_print_changes_run self (with_attr "ordered_keys" v r)
               (entries ++ [{[ "ordered_keys" := VStr v ]}])).
    + rewrite history_snoc, entry_history_last, He.
      cbn [original with_attr]. rewrite Ho. reflexivity.
    + split; cbn.
      * by apply list_lookup_insert_eq.
      * by apply list_lookup_insert_eq.
Qed.

Lemma changes_of_ordered_keys_raise_witness :
  ∃ σ', Record.modify 0 ["ordered_keys:" +:+ "x"] example_store = (Return tt, σ')
    ∧ Record.print_w_changes (H := reverse_key_order) 0 σ'
      = (Raise (KeyError "ordered_keys"),
         with_printed
           [current_line
              (with_attr "ordered_keys" "x"
                 (mkRecord "a" "2024/01/01" "minor" (VBool false) default_modifications
                    (Record.snapshot "a" "2024/01/01" "minor" (VBool false)) ∅))] σ').
Proof.
  apply (changes_of_ordered_keys_raise (py := reverse_key_order) example_store 0
           (mkRecord "a" "2024/01/01" "minor" (VBool false) default_modifications
              (Record.snapshot "a" "2024/01/01" "minor" (VBool false)) ∅)
           [] "x").
  - split; reflexivity.
  - reflexivity.
  - reflexivity.
  - reflexivity.
Defined.


(** ** The collection *)

(** X5: [find] returns the first record of the collection that has the name,
    [None] when no record has it, and changes nothing. *)
Theorem find_returns_first_named σ name_ :
  (∀ a, a ∈ records σ → is_Some (objects σ !! a)) →
  Records.find name_ σ
  = (Return (snd <$> list_find (λ a, name <$> objects σ !! a = Some name_) (records σ)),
     σ).
Proof.
  unfold Records.find. mrun. unfold get_records at 1.
  generalize (records σ) as rs.
  induction rs as [ | a rs IH ]; intros Hrs; [ done | ].
  destruct (Hrs a) as [r Hr]; [ by left | ].
  cbn [Records.find_loop list_find]. mrun. unfold get_object at 1. rewrite Hr. mrun.
  destruct (decide (name r = name_)) as [ Hn | Hn ].
  - rewrite decide_True by (by cbn; rewrite Hn). done.
  - rewrite decide_False by (cbn; congruence).
    rewrite IH by (intros b Hb; apply Hrs; by right).
    by destruct (list_find _ rs) as [ [i b] | ].
Qed.

Lemma find_returns_first_named_witness :
  Records.find "b" example_store
  = (Return (snd <$> list_find (λ a, name <$> objects example_store !! a = Some "b")
                       (records example_store)),
     example_store).
Proof.
  apply (find_returns_first_named example_store "b").
  intros a Ha. cbn in Ha.
  repeat (apply elem_of_cons in Ha as [ -> | Ha ]; [ by eexists | ]).
  by apply elem_of_nil in Ha.
Defined.

Lemma find_first name_ pre a post r σ :
  records σ = pre ++ a :: post →
  objects σ !! a = Some r → name r = name_ →
  (∀ b, b ∈ pre → ∃ rb, objects σ !! b = Some rb ∧ name rb ≠ name_) →
  Records.find name_ σ = (Return (Some a), σ).
Proof.
  intros Hrs Ha Hname Hpre. unfold Records.find. mrun. unfold get_records at 1.
  rewrite Hrs. by apply (find_loop_first name_ pre a post r).
Qed.

Lemma find_no_match name_ σ :
  (∀ b, b ∈ records σ → ∃ rb, objects σ !! b = Some rb ∧ name rb ≠ name_) →
  Records.find name_ σ = (Return None, σ).
Proof.
  intros Hrs. unfold Records.find. mrun. unfold get_records at 1.
  by apply find_loop_no_match.
Qed.

Lemma list_remove_absent a rs : a ∉ rs → Records.list_remove a rs = None.
Proof.
  induction rs as [ | b rs IH ]; intros Ha; cbn [Records.list_remove]; [ done | ].
  apply not_elem_of_cons in Ha as [Hne Ha].
  rewrite decide_False by done. by rewrite IH.
Qed.

(** X6: [remove] of a record that is not in the collection raises
    [ValueError] and changes nothing; of one that is, it drops the first
    occurrence and nothing else. *)
Theorem remove_drops_first_occurrence σ a :
  (a ∉ records σ → Records.remove a σ = (Raise ValueError, σ))
  ∧ (∀ pre post,
       records σ = pre ++ a :: post → a ∉ pre →
       Records.remove a σ
       = (Return tt, mkStore (objects σ) (lists σ) (pre ++ post) (stdout σ))).
Proof.
  split.
  - intros Ha. unfold Records.remove. mrun. unfold get_records.
    by rewrite list_remove_absent.
  - intros pre post Hrs Ha. unfold Records.remove. mrun. unfold get_records.
    rewrite Hrs. by rewrite list_remove_first.
Qed.

Lemma remove_drops_first_occurrence_witness :
  Records.remove 7 example_store = (Raise ValueError, example_store)
  ∧ Records.remove 1 example_store
    = (Return tt,
       mkStore (objects example_store) (lists example_store) ([0] ++ [2])
               (stdout example_store)).
Proof.
  split.
  - apply (proj1 (remove_drops_first_occurrence example_store 7)).
    apply (bool_decide_unpack _). by vm_compute.
  - apply (proj2 (remove_drops_first_occurrence example_store 1) [0] [2]).
    + reflexivity.
    + apply (bool_decide_unpack _). by vm_compute.
Defined.

(** X7: [mark_done_all] skips a spec of more than one segment; for a
    one-segment spec it marks the first record of that name, as
    [mark_done] does, and does nothing when no record has the name; the
    specs are handled one after the other. *)
Theorem mark_done_all_marks_first_named σ :
  (∀ item, 1 < length (split ";" item) →
     Records.mark_done_all [item] σ = (Return tt, σ))
  ∧ (∀ item pre a post r,
       length (split ";" item) = 1 →
       records σ = pre ++ a :: post →
       objects σ !! a = Some r → name r = item →
       (∀ b, b ∈ pre → ∃ rb, objects σ !! b = Some rb ∧ name rb ≠ item) →
       Records.mark_done_all [item] σ = Record.mark_done a σ)
  ∧ (∀ item,
       length (split ";" item) = 1 →
       (∀ b, b ∈ records σ → ∃ rb, objects σ !! b = Some rb ∧ name rb ≠ item) →
       Records.mark_done_all [item] σ = (Return tt, σ))
  ∧ (∀ item items,
       Records.mark_done_all (item :: items) σ =
         match Records.mark_done_all [item] σ with
         | (Return _, σ') => Records.mark_done_all items σ'
         | (Raise e, σ') => (Raise e, σ')
         end).
Proof.
  split_and!.
  - intros item Hlen. unfold Records.mark_done_all. cbn [for_each].
    rewrite _split_1, bool_decide_eq_false_2 by lia. reflexivity.
  - intros item pre a post r Hlen Hrs Ha Hname Hpre.
    unfold Records.mark_done_all. cbn [for_each].
    rewrite _split_1, bool_decide_eq_true_2 by lia.
    rewrite (split_single _ _ Hlen). mrun.
    rewrite (find_first item pre a post r) by done. mrun.
    by destruct (Record.mark_done a σ) as [[ [] | e ] σ'].
  - intros item Hlen Hrs.
    unfold Records.mark_done_all. cbn [for_each].
    rewrite _split_1, bool_decide_eq_true_2 by lia.
    rewrite (split_single _ _ Hlen). mrun.
    rewrite find_no_match by done. reflexivity.
  - intros item items. unfold Records.mark_done_all. apply for_each_cons.
Qed.

Lemma mark_done_all_marks_first_named_witness :
  Records.mark_done_all ["b"] example_store = Record.mark_done 1 example_store.
Proof.
  refine (proj1 (proj2 (mark_done_all_marks_first_named example_store))
            "b" [0] 1 [2] _ _ _ _ _ _); try reflexivity.
  intros b Hb. apply list_elem_of_singleton in Hb as ->. by eexists.
Defined.

(** X8: [modify_all] takes the first segment of a spec as a name and the
    others as field specs: it calls [modify] with them on the first
    record of that name, also when there are none of them, and does
    nothing when no record has the name; the specs are handled one after
    the other. *)
Theorem modify_all_modifies_first_named σ :
  (∀ item name_ specs pre a post r,
     split ";" item = name_ :: specs →
     records σ = pre ++ a :: post →
     objects σ !! a = Some r → name r = name_ →
     (∀ b, b ∈ pre → ∃ rb, objects σ !! b = Some rb ∧ name rb ≠ name_) →
     Records.modify_all [item] σ = Record.modify a specs σ)
  ∧ (∀ item name_ specs,
       split ";" item = name_ :: specs →
       (∀ b, b ∈ records σ → ∃ rb, objects σ !! b = Some rb ∧ name rb ≠ name_) →
       Records.modify_all [item] σ = (Return tt, σ))
  ∧ (∀ item items,
       Records.modify_all (item :: items) σ =
         match Records.modify_all [item] σ with
         | (Return _, σ') => Records.modify_all items σ'
         | (Raise e, σ') => (Raise e, σ')
         end).
Proof.
  split_and!.
  - intros item name_ specs pre a post r Hsplit Hrs Ha Hname Hpre.
    unfold Records.modify_all, Records._split. cbn [for_each].
    rewrite bool_decide_eq_true_2 by (by left). cbn [orb]. rewrite Hsplit. mrun.
    rewrite (find_first name_ pre a post r) by done. mrun.
    by destruct (Record.modify a specs σ) as [[ [] | e ] σ'].
  - intros item name_ specs Hsplit Hrs.
    unfold Records.modify_all, Records._split. cbn [for_each].
    rewrite bool_decide_eq_true_2 by (by left). cbn [orb]. rewrite Hsplit. mrun.
    rewrite find_no_match by done. reflexivity.
  - intros item items. unfold Records.modify_all. apply for_each_cons.
Qed.

Lemma modify_all_modifies_first_named_witness :
  Records.modify_all ["b;priority:major;due_date:2024/03/03"] example_store
  = Record.modify 1 ["priority:major"; "due_date:2024/03/03"] example_store.
Proof.
  refine (proj1 (modify_all_modifies_first_named example_store)
            _ "b" _ [0] 1 [2] _ _ _ _ _ _); try reflexivity.
  intros b Hb. apply list_elem_of_singleton in Hb as ->. by eexists.
Defined.


(** ** Listing *)

Lemma with_printed_nil σ : with_printed [] σ = σ.
Proof. unfold with_printed. rewrite app_nil_r. by destruct σ. Qed.

Lemma with_printed_app l1 l2 σ :
  with_printed l2 (with_printed l1 σ) = with_printed (l1 ++ l2) σ.
Proof. unfold with_printed. cbn. by rewrite app_assoc. Qed.

Lemma collection_Forall2 σ rs :
  collection σ = Some rs ↔ Forall2 (λ a r, objects σ !! a = Some r) (records σ) rs.
Proof. unfold collection. apply mapM_Some. Qed.

Lemma list_wo_changes_loop σ0 addrs rs :
  Forall2 (λ a r, objects σ0 !! a = Some r) addrs rs →
  ∀ σ, objects σ = objects σ0 →
    for_each Record.print_wo_changes addrs σ
    = (Return tt, with_printed (map current_line rs) σ).
Proof.
  induction 1 as [ | a r addrs rs Hr _ IH ]; intros σ Hσ.
  - cbn. by rewrite with_printed_nil.
  - cbn [for_each map]. mrun.
    rewrite (print_wo_changes_run a r) by by rewrite Hσ.
    rewrite IH by done. by rewrite with_printed_app.
Qed.

Lemma length_pad width s :
  String.length (Record.pad width s) = Nat.max width (String.length s).
Proof.
  unfold Record.pad.
  assert (Happ : ∀ a b, String.length (a +:+ b) = String.length a + String.length b).
  { intros a b. induction a as [ | c a IH ]; [ done | ].
    change (String c a +:+ b) with (String c (a +:+ b)). cbn. by rewrite IH. }
  assert (Hfill : ∀ k, String.length (text (replicate k " "%char)) = k).
  { intros k. induction k as [ | k IH ]; [ done | ]. cbn. by f_equal. }
  rewrite Happ, Hfill. lia.
Qed.

Lemma current_line_text r :
  current_line r
  = String "027" ((if truthy (done r) then "[32m" else "[31m")
                  +:+ (name r +:+ text (replicate (20 - String.length (name r)) " "%char))
                  +:+ " " +:+ due_date r +:+ " " +:+ priority r
                  +:+ String "027" "[0m").
Proof. reflexivity. Qed.

(** X9: [list_wo_changes] prints the line of each record of the collection,
    in the order of the collection, and changes nothing else. The line
    of a record is, in green when the record is done and in red when
    not, the name followed by as many spaces as it lacks to 20
    characters, a space, the due date, a space and the priority: the
    name column is 20 wide, or as wide as a longer name, which is not
    cut. *)
Theorem list_wo_changes_prints_each_line σ rs :
  collection σ = Some rs →
  Records.list_wo_changes σ
  = (Return tt,
     with_printed
       (map (λ r,
               String "027"
                 ((if truthy (done r) then "[32m" else "[31m")
                  +:+ (name r +:+ text (replicate (20 - String.length (name r)) " "%char))
                  +:+ " " +:+ due_date r +:+ " " +:+ priority r
                  +:+ String "027" "[0m")) rs) σ)
  ∧ ∀ r,
      String.length (name r +:+ text (replicate (20 - String.length (name r)) " "%char))
      = Nat.max 20 (String.length (name r)).
Proof.
  intros Hrs%collection_Forall2. split.
  - unfold Records.list_wo_changes. mrun.
    unfold get_records at 1. rewrite (list_wo_changes_loop σ _ rs Hrs) by done.
    do 2 f_equal.
  - intros r. apply (length_pad 20).
Qed.

Lemma list_wo_changes_prints_each_line_witness :
  Records.list_wo_changes example_store
  = (Return tt,
     with_printed
       (map (λ r,
               String "027"
                 ((if truthy (done r) then "[32m" else "[31m")
                  +:+ (name r +:+ text (replicate (20 - String.length (name r)) " "%char))
                  +:+ " " +:+ due_date r +:+ " " +:+ priority r
                  +:+ String "027" "[0m"))
          [ mkRecord "a" "2024/01/01" "minor" (VBool false) default_modifications
              (Record.snapshot "a" "2024/01/01" "minor" (VBool false)) ∅;
            mkRecord "b" "2024/01/02" "minor" (VBool false) default_modifications
              (Record.snapshot "b" "2024/01/02" "minor" (VBool false)) ∅;
            mkRecord "b" "2024/01/03" "major" (VBool false) default_modifications
              (Record.snapshot "b" "2024/01/03" "major" (VBool false)) ∅ ])
       example_store).
Proof.
  apply (list_wo_changes_prints_each_line example_store). reflexivity.
Defined.

Lemma show_heap lines σ :
  objects (show lines σ).2 = objects σ ∧ lists (show lines σ).2 = lists σ.
Proof.
  revert σ. induction lines as [ | [key [ line | ]] lines IH ]; intros σ;
    [ done | | done ].
  cbn [show]. mrun. unfold print at 1. cbn beta iota.
  apply (IH (mkStore (objects σ) (lists σ) (records σ) (stdout σ ++ [line]))).
Qed.

Lemma print_w_changes_run {py : Interpreter} self r entries σ :
  holds self r entries σ →
  Record.print_w_changes self σ
  = show (("", Some (current_line r))
          :: history (modifications r) entries (original r)) σ.
Proof.
  intros Hσ. pose proof Hσ as [Hr Hl].
  unfold Record.print_w_changes. mrun. rewrite (print_wo_changes_run self r) by done.
  cbn [show]. mrun. unfold print at 1. cbn beta iota.
  by apply _print_changes_run.
Qed.

Lemma list_w_changes_loop {py : Interpreter} σ0 addrs rs :
  Forall2 (λ a r, objects σ0 !! a = Some r) addrs rs →
  Forall (λ r, is_Some (lists σ0 !! modifications r)) rs →
  ∀ σ, objects σ = objects σ0 → lists σ = lists σ0 →
    for_each Record.print_w_changes addrs σ
    = show (r ← rs; record_listing σ0 r) σ.
Proof.
  induction 1 as [ | a r addrs rs Hr _ IH ]; intros Hlogs σ Ho Hl; [ done | ].
  apply Forall_cons in Hlogs as [[entries He] Hlogs].
  cbn [for_each]. rewrite bind_cons, show_app. mrun.
  unfold record_listing at 1. rewrite He.
  rewrite (print_w_changes_run a r entries) by (split; congruence).
  pose proof (show_heap (("", Some (current_line r))
                         :: history (modifications r) entries (original r)) σ)
    as [Ho' Hl'].
  destruct (show _ σ) as [[ [] | e ] σ']; [ | done ].
  cbn [snd] in Ho', Hl'. apply IH; [ done | congruence | congruence ].
Qed.

(** X10: [list_w_changes] shows each record of the collection in order,
    its line followed by the history of its log, and stops with
    [KeyError] at the first field of a log that has no value before. The
    line of a record is the one [list_wo_changes] prints; the history
    goes through the entries newest first and shows each field of an
    entry once, the fields of one entry in the interpreter's order; the
    line of a field is two spaces, the key, a colon, the value before in
    red, an arrow and the entry's value in green. *)
Theorem list_w_changes_shows_each_history {py : Interpreter} σ rs :
  collection σ = Some rs →
  Forall (λ r, is_Some (lists σ !! modifications r)) rs →
  Records.list_w_changes σ = show (r ← rs; record_listing σ r) σ
  ∧ (∀ r entries,
       lists σ !! modifications r = Some entries →
       record_listing σ r
       = ("", Some (String "027"
                      ((if truthy (done r) then "[32m" else "[31m")
                       +:+ (name r
                            +:+ text (replicate (20 - String.length (name r)) " "%char))
                       +:+ " " +:+ due_date r +:+ " " +:+ priority r
                       +:+ String "027" "[0m")))
         :: concat (map (entry_history (modifications r) entries (original r))
                        (reverse (seq 0 (length entries))))
       ∧ ∀ i after,
           entries !! i = Some after →
           NoDup (entry_history (modifications r) entries (original r) i).*1
           ∧ ∀ key line,
               (key, line) ∈ entry_history (modifications r) entries (original r) i ↔
               ∃ value,
                 after !! key = Some value
                 ∧ line = (before ← value_before entries (original r) i key;
                           Some ("  " +:+ key +:+ ": " +:+ String "027" "[31m"
                                 +:+ str before +:+ " " +:+ String "027" "[0m-> "
                                 +:+ String "027" "[32m" +:+ str value
                                 +:+ String "027" "[0m"))).
Proof.
  intros Hrs%collection_Forall2 Hlogs. split.
  - unfold Records.list_w_changes. mrun.
    unfold get_records at 1. by apply (list_w_changes_loop σ).
  - intros r entries He. split.
    + unfold record_listing. rewrite He. f_equal. unfold history.
      induction (reverse (seq 0 (length entries))) as [ | i range IH ]; [ done | ].
      rewrite bind_cons, IH. done.
    + intros i after Hi. apply entry_history_fields. exact Hi.
Qed.

Lemma list_w_changes_shows_each_history_witness :
  let σ := (Records.modify_all ["a;priority:major"; "a;name:c"] example_store).2 in
  let py := reverse_key_order in
  ∃ rs, collection σ = Some rs
    ∧ Records.list_w_changes σ = show (r ← rs; record_listing σ r) σ.
Proof.
  intros σ py.
  exists [ mkRecord "c" "2024/01/01" "major" (VBool false) default_modifications
             (Record.snapshot "a" "2024/01/01" "minor" (VBool false)) ∅;
           mkRecord "b" "2024/01/02" "minor" (VBool false) default_modifications
             (Record.snapshot "b" "2024/01/02" "minor" (VBool false)) ∅;
           mkRecord "b" "2024/01/03" "major" (VBool false) default_modifications
             (Record.snapshot "b" "2024/01/03" "major" (VBool false)) ∅ ].
  split; [ reflexivity | ].
  apply (list_w_changes_shows_each_history (py := py) σ).
  - reflexivity.
  - repeat (apply Forall_cons; split; [ by eexists | ]). by apply Forall_nil.
Defined.

(** ** Lines of text *)

Lemma append_assoc (a b c : string) : (a +:+ b) +:+ c = a +:+ (b +:+ c).
Proof.
  induction a as [ | x a IH ]; [ done | ].
  change (String x ((a +:+ b) +:+ c) = String x (a +:+ (b +:+ c))).
  by rewrite IH.
Qed.

Lemma append_nil_r (a : string) : a +:+ EmptyString = a.
Proof.
  induction a as [ | x a IH ]; [ done | ].
  change (String x (a +:+ EmptyString) = String x a). by rewrite IH.
Qed.

Lemma readlines_String c s :
  readlines (String c s)
  = if Ascii.eqb c newline then String c EmptyString :: readlines s
    else match readlines s with
         | line :: lines => String c line :: lines
         | [] => [String c EmptyString]
         end.
Proof. reflexivity. Qed.

Lemma readlines_line line rest :
  contains newline line = false →
  readlines (line +:+ String newline rest)
  = (line +:+ String newline EmptyString) :: readlines rest.
Proof.
  induction line as [ | c line IH ]; cbn [contains].
  - intros _. change (EmptyString +:+ String newline rest) with (String newline rest).
    by rewrite readlines_String, Ascii.eqb_refl.
  - intros [Hc Hline]%orb_false_elim.
    change (String c line +:+ String newline rest)
      with (String c (line +:+ String newline rest)).
    by rewrite readlines_String, Hc, (IH Hline).
Qed.

Lemma readlines_file_text lines :
  Forall (λ line, contains newline line = false) lines →
  readlines (file_text lines) = map (λ line, line +:+ String newline EmptyString) lines.
Proof.
  induction 1 as [ | line lines Hline _ IH ]; [ done | ].
  cbn [file_text foldr map]. rewrite readlines_line by done.
  by rewrite <- IH.
Qed.

Lemma contains_text c l :
  Forall (λ x, Ascii.eqb x c = false) l → contains c (text l) = false.
Proof.
  induction 1 as [ | x l Hx _ IH ]; [ done | ].
  change (contains c (String x (text l)) = false). cbn [contains].
  by rewrite Hx, IH.
Qed.

(** ** What [json.dumps] writes *)

Lemma dumps_one_line v line : json.dumps v = json.Ok line → contains newline line = false.
Proof.
  unfold json.dumps. destruct (json.encodable v) as [ [] | | ] eqn:Hv; [ | done.. ].
  intros [= <-]. apply contains_text.
  eapply Forall_impl; [ by apply json_facts.dumps_chars_printable | ].
  intros c Hc. destruct (Ascii.eqb_spec c newline) as [ -> | ]; done.
Qed.

(** ** Writing and loading, whole records and whole files

    [write] returns a line exactly when all the text of the record is
    ASCII; what it returns loads as the record it was written from. *)

Section whole.
Context {py : Interpreter}.

Lemma write_members_ascii self r entries :
  json.encodable (json.Object (write_members self r entries)) = json.Ok tt ↔
  ascii_record r entries.
Proof.
  split; [ | apply write_members_encodable ].
  rewrite json_facts.encodable_Object, Forall_forall. intros H.
  assert (Hin : ∀ key v,
            (list_to_map
               [ ("name", json.Str (name r));
                 ("due_date", json.Str (due_date r));
                 ("priority", json.Str (priority r));
                 ("done", value_to_json (done r));
                 ("original", dict_to_json (Original self) (original r));
                 ("modifications", Record.log_to_json (modifications r) entries) ]
             : gmap string json.value) !! key = Some v →
            json.encodable v = json.Ok tt).
  { intros key v Hv. apply (H (key, v)). unfold write_members.
    by apply elem_of_iteritems. }
  split; [ apply json_facts.encodable_text_Ok;
           exact (Hin "name" (json.Str (name r)) eq_refl) | ].
  split; [ apply json_facts.encodable_text_Ok;
           exact (Hin "due_date" (json.Str (due_date r)) eq_refl) | ].
  split; [ apply json_facts.encodable_text_Ok;
           exact (Hin "priority" (json.Str (priority r)) eq_refl) | ].
  split; [ apply encodable_value; exact (Hin "done" _ eq_refl) | ].
  split; [ apply (encodable_dict (Original self));
           exact (Hin "original" _ eq_refl) | ].
  apply (encodable_log (modifications r)). exact (Hin "modifications" _ eq_refl).
Qed.



Lemma contents_holds σ a r entries :
  (r' ← objects σ !! a; es ← lists σ !! modifications r'; Some (r', es))
  = Some (r, entries) ↔ holds a r entries σ.
Proof.
  unfold holds. split.
  - intros H. destruct (objects σ !! a) as [ r' | ]; [ | done ]. cbn in H.
    destruct (lists σ !! modifications r') as [ entries' | ] eqn:E; [ | done ].
    cbn in H. by simplify_eq.
  - intros [-> Hl]. cbn. by rewrite Hl.
Qed.

Lemma contents_Forall2 σ res :
  contents σ = Some res ↔
  Forall2 (λ a re, holds a re.1 re.2 σ) (records σ) res.
Proof.
  unfold contents. rewrite mapM_Some.
  split; intros H; (eapply Forall2_impl; [ exact H | ]); intros a [r entries] Ha;
    by apply contents_holds.
Qed.

(** The collection has the lines [lines]: the line [write] has for each
    of its records. *)
Lemma save_loop σ addrs res lines acc :
  Forall2 (λ a re, holds a re.1 re.2 σ) addrs res →
  Forall3 (λ a (re : RecordInstance * list dict) line,
             json.dumps (json.Object (write_members a re.1 re.2)) = json.Ok line)
          addrs res lines →
  for_fold (λ (f : string) record,
      line ← Record.write record;
      mret (f +:+ line +:+ String newline EmptyString)) acc addrs σ
  = (Return (acc +:+ file_text lines), σ).
Proof.
  intros H Hlines. revert acc H.
  induction Hlines as [ | a [r entries] line addrs res lines Hline _ IH ];
    intros acc H.
  - cbn. by rewrite append_nil_r.
  - apply Forall2_cons_1 in H as [Hσ H]. cbn [fst snd] in *.
    cbn [for_fold file_text foldr]. mrun.
    rewrite (write_run σ a r entries Hσ), Hline. mrun. rewrite (IH _ H).
    by rewrite !append_assoc.
Qed.

Lemma save_loop_inv σ addrs res acc f σ' :
  Forall2 (λ a re, holds a re.1 re.2 σ) addrs res →
  for_fold (λ (f : string) record,
      line ← Record.write record;
      mret (f +:+ line +:+ String newline EmptyString)) acc addrs σ
  = (Return f, σ') →
  ∃ lines,
    Forall3 (λ a (re : RecordInstance * list dict) line,
               json.dumps (json.Object (write_members a re.1 re.2)) = json.Ok line)
            addrs res lines.
Proof.
  intros H. revert acc. induction H as [ | a [r entries] addrs res Hσ _ IH ];
    intros acc Hf.
  - exists []. constructor.
  - cbn [fst snd] in *. cbn [for_fold] in Hf. rewrite !bind_run in Hf.
    rewrite (write_run σ a r entries Hσ) in Hf.
    destruct (json.dumps _) as [ line | | ] eqn:Hline; [ | done.. ].
    rewrite ret_run in Hf. destruct (IH _ Hf) as [lines Hlines].
    exists (line :: lines). by constructor.
Qed.

Lemma lines_ascii addrs res lines :
  Forall3 (λ a (re : RecordInstance * list dict) line,
             json.dumps (json.Object (write_members a re.1 re.2)) = json.Ok line)
          addrs res lines →
  Forall (λ re, ascii_record re.1 re.2) res.
Proof.
  induction 1 as [ | a [r entries] line addrs res lines Hline _ IH ];
    constructor; [ | done ].
  cbn [fst snd] in *. apply (write_members_ascii a). unfold json.dumps in Hline.
  by destruct (json.encodable _) as [ [] | | ].
Qed.

Lemma lines_exist (P : addr → RecordInstance * list dict → Prop) addrs res :
  Forall2 P addrs res →
  Forall (λ re, ascii_record re.1 re.2) res →
  ∃ lines,
    Forall3 (λ a (re : RecordInstance * list dict) line,
               json.dumps (json.Object (write_members a re.1 re.2)) = json.Ok line)
            addrs res lines.
Proof.
  induction 1 as [ | a [r entries] addrs res _ _ IH ]; intros Hascii.
  - exists []. constructor.
  - apply Forall_cons in Hascii as [Hre Hascii]. destruct (IH Hascii) as [lines Hlines].
    eexists (_ :: lines). constructor; [ | done ]. cbn [fst snd] in *.
    unfold json.dumps. by rewrite (write_members_encodable a r entries Hre).
Qed.

Lemma load_loop addrs res lines σ :
  Forall3 (λ a (re : RecordInstance * list dict) line,
             json.dumps (json.Object (write_members a re.1 re.2)) = json.Ok line)
          addrs res lines →
  Forall (λ re : RecordInstance * list dict, original re.1 ≠ ∅) res →
  for_each (λ line, record ← Record.load line; Records.add record)
    (map (λ line, line +:+ String newline EmptyString) lines) σ
  = (Return tt, loaded res σ).
Proof.
  intros Hlines. revert σ.
  induction Hlines as [ | a [r entries] line addrs res lines Hline _ IH ];
    intros σ Ho; [ done | ].
  apply Forall_cons in Ho as [Hr Ho]. cbn [fst snd] in *.
  cbn [map for_each loaded]. mrun.
  change (line +:+ String newline EmptyString) with (line +:+ text [newline]).
  rewrite (load_dumps a r entries line [newline] σ Hline eq_refl). mrun.
  rewrite bool_decide_eq_false_2 by done.
  unfold Records.add at 1. mrun. unfold get_records at 1, set_records at 1.
  cbn beta iota. by apply IH.
Qed.

Lemma Records_load_run addrs res lines σ :
  Forall3 (λ a (re : RecordInstance * list dict) line,
             json.dumps (json.Object (write_members a re.1 re.2)) = json.Ok line)
          addrs res lines →
  Forall (λ re : RecordInstance * list dict, original re.1 ≠ ∅) res →
  Records.load (Some (file_text lines)) σ
  = (Return tt, loaded res (mkStore (objects σ) (lists σ) [] (stdout σ))).
Proof.
  intros Hlines Ho. unfold Records.load. mrun. unfold set_records at 1.
  cbn beta iota. rewrite readlines_file_text.
  - by apply (load_loop addrs).
  - clear Ho. induction Hlines as [ | a re line addrs res lines Hline _ IH ];
      constructor; [ | done ].
    by apply (dumps_one_line _ _ Hline).
Qed.

Lemma holds_more self r entries σ σ' os ls :
  objects σ' = objects σ ++ os → lists σ' = lists σ ++ ls →
  holds self r entries σ → holds self r entries σ'.
Proof.
  intros Ho Hl [Hr He]. split.
  - rewrite Ho. by apply lookup_app_l_Some.
  - rewrite Hl. by apply lookup_app_l_Some.
Qed.

Lemma contents_loaded res σ cs :
  contents σ = Some cs →
  ∃ res2, contents (loaded res σ) = Some (cs ++ res2)
          ∧ map persisted res2 = map persisted res.
Proof.
  revert σ cs. induction res as [ | [r entries] res IH ]; intros σ cs Hcs.
  - exists []. by rewrite app_nil_r.
  - cbn [loaded].
    set (r' := mkRecord (name r) (due_date r) (priority r) (done r)
                 (length (lists σ)) (original r) ∅).
    set (σ' := mkStore (objects σ ++ [r']) (lists σ ++ [entries])
                 (records σ ++ [length (objects σ)]) (stdout σ)).
    destruct (IH σ' (cs ++ [(r', entries)])) as (res2 & Hres2 & Hp).
    + apply contents_Forall2. cbn [records σ']. apply Forall2_app.
      * apply contents_Forall2 in Hcs.
        eapply Forall2_impl; [ exact Hcs | ].
        intros a [ra ea]. by apply (holds_more _ _ _ σ σ' [r'] [entries]).
      * constructor; [ | constructor ]. split; cbn.
        -- by rewrite lookup_app_r, Nat.sub_diag.
        -- by rewrite lookup_app_r, Nat.sub_diag.
    + exists ((r', entries) :: res2). rewrite <- app_assoc in Hres2.
      split; [ exact Hres2 | ]. cbn [map]. by rewrite Hp.
Qed.

Lemma save_returns_iff σ res :
  contents σ = Some res →
  (∃ f, Records.save σ = (Return f, σ)) ↔ Forall (λ re, ascii_record re.1 re.2) res.
Proof.
  intros Hres%contents_Forall2. unfold Records.save. split.
  - intros [f Hf]. rewrite bind_run in Hf. unfold get_records at 1 in Hf.
    cbn beta iota in Hf.
    destruct (save_loop_inv σ _ res _ _ _ Hres Hf) as [lines Hlines].
    by apply (lines_ascii _ _ _ Hlines).
  - intros Hascii. destruct (lines_exist _ _ _ Hres Hascii) as [lines Hlines].
    exists (file_text lines). mrun. unfold get_records at 1.
    by rewrite (save_loop σ _ res lines).
Qed.

Lemma persisted_ascii res res' :
  map persisted res' = map persisted res →
  Forall (λ re, ascii_record re.1 re.2) res →
  Forall (λ re, ascii_record re.1 re.2) res'.
Proof.
  revert res'. induction res as [ | [r e] res IH ]; intros [ | [r' e'] res' ]; try done.
  cbn [map]. unfold persisted at 1 3. cbn [fst snd].
  intros [= Hn Hd Hp Hdn Ho He Hrest] [Hre Hall]%Forall_cons.
  constructor; [ | by apply IH ].
  unfold ascii_record in *. cbn [fst snd] in *. by rewrite Hn, Hd, Hp, Hdn, Ho, He.
Qed.

Lemma persisted_originals res res' :
  map persisted res' = map persisted res →
  Forall (λ re : RecordInstance * list dict, original re.1 ≠ ∅) res →
  Forall (λ re : RecordInstance * list dict, original re.1 ≠ ∅) res'.
Proof.
  revert res'. induction res as [ | [r e] res IH ]; intros [ | [r' e'] res' ]; try done.
  cbn [map]. unfold persisted at 1 3. cbn [fst snd].
  intros [= Hn Hd Hp Hdn Ho He Hrest] [Hre Hall]%Forall_cons.
  constructor; [ | by apply IH ]. cbn [fst] in *. by rewrite Ho.
Qed.

(** What is saved loads, in any store, as a collection of the same
    contents. *)
Lemma save_load σ res f σ' σ1 :
  contents σ = Some res →
  Forall (λ re : RecordInstance * list dict, original re.1 ≠ ∅) res →
  Records.save σ = (Return f, σ') →
  σ' = σ
  ∧ Forall (λ re, ascii_record re.1 re.2) res
  ∧ ∃ σ2 res2,
      Records.load (Some f) σ1 = (Return tt, σ2)
      ∧ contents σ2 = Some res2
      ∧ map persisted res2 = map persisted res.
Proof.
  intros Hres Ho Hf. pose proof Hres as Hres'%contents_Forall2.
  unfold Records.save in Hf. rewrite bind_run in Hf. unfold get_records at 1 in Hf.
  cbn beta iota in Hf.
  destruct (save_loop_inv σ _ res _ _ _ Hres' Hf) as [lines Hlines].
  rewrite (save_loop σ _ res lines _ Hres' Hlines) in Hf. injection Hf as <- <-.
  split; [ done | ]. split; [ by apply (lines_ascii _ _ _ Hlines) | ].
  destruct (contents_loaded res (mkStore (objects σ1) (lists σ1) [] (stdout σ1)) [])
    as (res2 & Hres2 & Hp); [ done | ].
  eexists _, res2. split; [ by apply (Records_load_run (records σ) res) | ].
  split; [ exact Hres2 | exact Hp ].
Qed.


End whole.



(** ** No empty original *)

Lemma assign_original key value r r' :
  Record.assign key value r = Some r' → original r' = original r.
Proof.
  unfold Record.assign. repeat case_decide; intros [= <-]; done.
Qed.

Lemma originals_same_objects σ σ' :
  objects σ' = objects σ → originals_set σ → originals_set σ'.
Proof. intros E H a r. rewrite E. apply H. Qed.

Lemma originals_update σ a r r' :
  objects σ !! a = Some r → original r' = original r → originals_set σ →
  originals_set (mkStore (<[a := r']> (objects σ)) (lists σ) (records σ) (stdout σ)).
Proof.
  intros Ha Ho H b rb. cbn [objects]. destruct (decide (b = a)) as [ -> | Hne ].
  - rewrite list_lookup_insert_eq by by eapply lookup_lt_Some.
    intros [= <-]. rewrite Ho. by eapply H.
  - rewrite list_lookup_insert_ne by done. apply H.
Qed.

Lemma originals_new σ r :
  original r ≠ ∅ → originals_set σ → originals_set (with_object r σ).
Proof.
  intros Ho H a ra. cbn [objects with_object].
  intros [ Ha | [_ Ha] ]%lookup_app_Some; [ by eapply H | ].
  apply list_lookup_singleton_Some in Ha as [_ <-]. done.
Qed.

Create HintDb originals.

Lemma keeps_ret {A} (a : A) : keeps_originals (mret a).
Proof. by intros σ. Qed.

Lemma keeps_raise {A} e : keeps_originals (raise e : M A).
Proof. by intros σ. Qed.

Lemma keeps_bind {A B} (m : M A) (f : A → M B) :
  keeps_originals m → (∀ a, keeps_originals (f a)) → keeps_originals (m ≫= f).
Proof.
  intros Hm Hf σ Hσ. rewrite bind_run. specialize (Hm σ Hσ).
  destruct (m σ) as [[ a | e ] σ']; [ by apply Hf | done ].
Qed.

Lemma keeps_bind_get {B} self (f : RecordInstance → M B) :
  (∀ r σ, objects σ !! self = Some r → originals_set σ → originals_set (f r σ).2) →
  keeps_originals (get_object self ≫= f).
Proof.
  intros Hf σ Hσ. rewrite bind_run. unfold get_object.
  destruct (objects σ !! self) as [ r | ] eqn:Hr; [ by apply Hf | done ].
Qed.

Lemma keeps_same_objects {A} (m : M A) :
  (∀ σ, objects (m σ).2 = objects σ) → keeps_originals m.
Proof. intros H σ. by apply originals_same_objects. Qed.

Lemma keeps_modelled {A} (o : option A) : keeps_originals (modelled o).
Proof. destruct o; [ apply keeps_ret | apply keeps_raise ]. Qed.

Lemma keeps_get_object a : keeps_originals (get_object a).
Proof. apply keeps_same_objects. intros σ. unfold get_object. by case_match. Qed.

Lemma keeps_get_list l : keeps_originals (get_list l).
Proof. apply keeps_same_objects. intros σ. unfold get_list. by case_match. Qed.

Lemma keeps_new_list entries : keeps_originals (new_list entries).
Proof. by apply keeps_same_objects. Qed.

Lemma keeps_append l entry : keeps_originals (append l entry).
Proof. apply keeps_same_objects. intros σ. unfold append. by case_match. Qed.

Lemma keeps_get_records : keeps_originals get_records.
Proof. by apply keeps_same_objects. Qed.

Lemma keeps_set_records rs : keeps_originals (set_records rs).
Proof. by apply keeps_same_objects. Qed.

Lemma keeps_print line : keeps_originals (print line).
Proof. by apply keeps_same_objects. Qed.

Lemma keeps_index {A} (l : list A) i : keeps_originals (index l i).
Proof. apply keeps_same_objects. intros σ. unfold index. by repeat case_match. Qed.

Lemma keeps_item {V} (d : gmap string V) key : keeps_originals (item d key).
Proof. apply keeps_same_objects. intros σ. unfold item. by case_match. Qed.

Lemma keeps_for_each {A} (body : A → M unit) l :
  (∀ x, keeps_originals (body x)) → keeps_originals (for_each body l).
Proof.
  intros Hbody. induction l as [ | x l IH ]; cbn [for_each].
  - apply keeps_ret.
  - apply keeps_bind; [ apply Hbody | intros _; apply IH ].
Qed.

Lemma keeps_for_fold {A B} (body : B → A → M B) b l :
  (∀ b x, keeps_originals (body b x)) → keeps_originals (for_fold body b l).
Proof.
  intros Hbody. revert b. induction l as [ | x l IH ]; intros b; cbn [for_fold].
  - apply keeps_ret.
  - apply keeps_bind; [ apply Hbody | intros b'; apply IH ].
Qed.

#[local] Hint Resolve keeps_ret keeps_raise keeps_bind keeps_modelled keeps_get_object
  keeps_get_list keeps_new_list keeps_append keeps_get_records keeps_set_records
  keeps_print keeps_index keeps_item keeps_for_each keeps_for_fold : originals.

Lemma keeps_find_loop name_ rs : keeps_originals (Records.find_loop name_ rs).
Proof.
  induction rs as [ | record rs IH ]; cbn [Records.find_loop]; [ auto with originals | ].
  apply keeps_bind; [ auto with originals | intros r ].
  case_decide; auto with originals.
Qed.

Lemma keeps_find name_ : keeps_originals (Records.find name_).
Proof. unfold Records.find. auto using keeps_find_loop with originals. Qed.

Lemma keeps_add record : keeps_originals (Records.add record).
Proof. unfold Records.add. auto with originals. Qed.

Lemma keeps_remove record : keeps_originals (Records.remove record).
Proof.
  unfold Records.remove. apply keeps_bind; [ auto with originals | intros rs ].
  case_match; auto with originals.
Qed.

Lemma keeps_self_modifications self : keeps_originals (Record.self_modifications self).
Proof. unfold Record.self_modifications. auto with originals. Qed.

Lemma keeps_setattr self key value : keeps_originals (Record.setattr self key value).
Proof.
  apply keeps_bind_get. intros r σ Hr Hσ. rewrite bind_run.
  destruct (Record.assign key value r) as [ r' | ] eqn:Hr'; cbn; [ | done ].
  apply (originals_update σ self r r'); [ done | | done ].
  by eapply assign_original.
Qed.

Lemma keeps_modify self specs : keeps_originals (Record.modify self specs).
Proof.
  unfold Record.modify. apply keeps_bind.
  - apply keeps_for_fold. intros acc spec.
    destruct (Record.check spec) as [ [key value] | ]; cbn zeta;
      auto using keeps_setattr with originals.
  - auto using keeps_self_modifications with originals.
Qed.

Lemma keeps_mark_done self : keeps_originals (Record.mark_done self).
Proof.
  apply keeps_bind_get. intros r σ Hr Hσ. rewrite bind_run. cbn.
  apply keeps_bind; [ apply keeps_self_modifications | auto with originals | ].
  by apply (originals_update σ self r).
Qed.

#[local] Hint Resolve keeps_find keeps_add keeps_remove keeps_self_modifications
  keeps_setattr keeps_modify keeps_mark_done : originals.

Lemma keeps_remove_all items : keeps_originals (Records.remove_all items).
Proof.
  apply keeps_for_each. intros item.
  destruct (Records._split item (Some 1)) as [ [ | part0 parts ] | ];
    auto with originals.
  apply keeps_bind; [ auto with originals | intros [ record | ] ]; auto with originals.
Qed.

Lemma keeps_mark_done_all items : keeps_originals (Records.mark_done_all items).
Proof.
  apply keeps_for_each. intros item.
  destruct (Records._split item (Some 1)) as [ [ | part0 parts ] | ];
    auto with originals.
  apply keeps_bind; [ auto with originals | intros [ record | ] ]; auto with originals.
Qed.

Lemma keeps_modify_all items : keeps_originals (Records.modify_all items).
Proof.
  apply keeps_for_each. intros item.
  destruct (Records._split item None) as [ [ | part0 parts ] | ];
    auto with originals.
  apply keeps_bind; [ auto with originals | intros [ record | ] ]; auto with originals.
Qed.

Lemma keeps__init__ n d p dn l o : keeps_originals (Record.__init__ n d p dn l o).
Proof.
  intros σ Hσ. unfold Record.__init__, new_object. cbn [snd].
  apply (originals_new σ); [ | done ]. cbn [original].
  destruct o as [ o | ]; cbn [Record.falsy from_option id].
  - case_bool_decide; [ apply snapshot_not_empty | done ].
  - apply snapshot_not_empty.
Qed.

Lemma keeps_Record_load item : keeps_originals (Record.load item).
Proof.
  unfold Record.load.
  destruct (json.loads item) as [ obj | | ]; [ | auto with originals.. ].
  assert (Hm : ∀ key, keeps_originals (Record.member obj key)).
  { intros key. unfold Record.member.
    destruct obj; auto with originals. case_match; auto with originals. }
  repeat (apply keeps_bind; [ by auto with originals | intros ? ]).
  apply keeps__init__.
Qed.

Lemma keeps_parse item : keeps_originals (Record.parse item).
Proof.
  intros σ Hσ. rewrite parse_spec.
  destruct (parse_outcome item) as [ e | r ] eqn:Hr; [ done | ]. cbn [snd].
  apply originals_new; [ | done ].
  unfold parse_outcome in Hr. repeat case_match; simplify_eq.
  apply snapshot_not_empty.
Qed.

Lemma keeps_add_all items : keeps_originals (Records.add_all items).
Proof.
  apply keeps_for_each. intros item. auto using keeps_parse with originals.
Qed.

Lemma keeps_Records_load file : keeps_originals (Records.load file).
Proof.
  unfold Records.load. apply keeps_bind; [ auto with originals | intros _ ].
  destruct file; auto using keeps_Record_load with originals.
Qed.

Lemma keeps_print_wo_changes self : keeps_originals (Record.print_wo_changes self).
Proof.
  unfold Record.print_wo_changes. apply keeps_bind; [ auto with originals | intros r ].
  case_match; auto with originals.
Qed.

Lemma keeps__value_before_loop self key range :
  keeps_originals (Record._value_before_loop self key range).
Proof.
  induction range as [ | i range IH ]; cbn [Record._value_before_loop];
    [ auto with originals | ].
  repeat (apply keeps_bind; [ by auto with originals | intros ? ]).
  repeat case_match; auto with originals.
Qed.

Lemma keeps__value_before self key i : keeps_originals (Record._value_before self key i).
Proof.
  unfold Record._value_before.
  apply keeps_bind; [ apply keeps__value_before_loop | intros [ v | ] ];
    auto with originals.
Qed.

Lemma keeps__print_changes {py : Interpreter} self :
  keeps_originals (Record._print_changes self).
Proof.
  unfold Record._print_changes.
  repeat (apply keeps_bind; [ by auto with originals | intros ? ]).
  apply keeps_for_each. intros i.
  repeat (apply keeps_bind; [ by auto with originals | intros ? ]).
  apply keeps_for_each. intros kv.
  apply keeps_bind; [ apply keeps__value_before | auto with originals ].
Qed.

Lemma keeps_listing {py : Interpreter} (list_ changes : bool) :
  keeps_originals
    (if list_ then
       if changes then Records.list_w_changes else Records.list_wo_changes
     else mret tt).
Proof.
  destruct list_, changes; try apply keeps_ret.
  - unfold Records.list_w_changes, Record.print_w_changes.
    apply keeps_bind; [ auto with originals | intros rs ].
    apply keeps_for_each. intros a.
    apply keeps_bind; [ apply keeps_print_wo_changes | intros _ ].
    apply keeps__print_changes.
  - unfold Records.list_wo_changes.
    apply keeps_bind; [ auto with originals | intros rs ].
    apply keeps_for_each, keeps_print_wo_changes.
Qed.


(** ** The whole invocation *)

Lemma bind_Return_inv {A B} (m : M A) (k : A → M B) σ b σ' :
  (m ≫= k) σ = (Return b, σ') →
  ∃ a σ1, m σ = (Return a, σ1) ∧ k a σ1 = (Return b, σ').
Proof.
  rewrite bind_run. destruct (m σ) as [[ a | e ] σ1]; [ eauto | done ].
Qed.

Section invocation.
Context {py : Interpreter}.

Lemma write_inv a σ line σ' :
  Record.write a σ = (Return line, σ') →
  σ' = σ ∧ ∃ r entries, holds a r entries σ.
Proof.
  unfold Record.write, get_object, get_list. mrun.
  destruct (objects σ !! a) as [ r | ] eqn:Hr; [ | done ]. mrun.
  destruct (lists σ !! modifications r) as [ entries | ] eqn:Hl; [ | done ].
  destruct (json.dumps _) as [ line' | | ]; [ | done.. ].
  intros [= _ <-]. split; [ done | ]. by exists r, entries.
Qed.

Lemma save_loop_holds σ addrs acc f σ' :
  for_fold (λ (f : string) record,
      line ← Record.write record;
      mret (f +:+ line +:+ String newline EmptyString)) acc addrs σ
  = (Return f, σ') →
  ∃ res, Forall2 (λ a re, holds a re.1 re.2 σ) addrs res.
Proof.
  revert acc. induction addrs as [ | a addrs IH ]; intros acc; cbn [for_fold].
  - intros _. by exists [].
  - intros (f1 & σ1 & Hbody & Hrest)%bind_Return_inv.
    apply bind_Return_inv in Hbody as (line & σ2 & Hw & Hret).
    apply write_inv in Hw as [-> (r & entries & Ha)].
    injection Hret as <- <-.
    destruct (IH _ Hrest) as [res Hres].
    exists ((r, entries) :: res). by constructor.
Qed.

Lemma save_inv σ f σ' :
  Records.save σ = (Return f, σ') → ∃ res, contents σ = Some res.
Proof.
  unfold Records.save. intros (rs & σ1 & Hrs & Hloop)%bind_Return_inv.
  injection Hrs as <- <-.
  destruct (save_loop_holds _ _ _ _ _ Hloop) as [res Hres].
  exists res. by apply contents_Forall2.
Qed.

Lemma contents_originals σ res :
  originals_set σ → contents σ = Some res →
  Forall (λ re : RecordInstance * list dict, original re.1 ≠ ∅) res.
Proof.
  intros Hσ Hres%contents_Forall2.
  induction Hres as [ | a [r entries] addrs res [Hr _] _ IH ]; constructor; [ | done ].
  by eapply Hσ.
Qed.

Lemma main_no_requests f σ :
  main no_requests (Some f) σ
  = match Records.load (Some f) σ with
    | (Return _, σ') => Records.save σ'
    | (Raise e, σ') => (Raise e, σ')
    end.
Proof.
  unfold main. rewrite bind_run.
  destruct (Records.load (Some f) σ) as [[ [] | e ] σ']; [ | done ].
  cbn [no_requests args_add args_remove args_modify args_done args_list].
  unfold Records.add_all, Records.remove_all, Records.modify_all, Records.mark_done_all.
  cbn [for_each]. by mrun.
Qed.

(** X13: The file an invocation leaves is one the next invocation can
    read: started without an empty original in the store, when [main]
    returns the text of the file, the collection it ends with has
    contents, and an invocation without requests, in any store, loads
    that text without error as a collection of the same contents (as
    many records, in the same order, with the same name, due date,
    priority, done, original and log entries) and writes a file that
    loads as the same contents again. *)
Theorem main_output_is_stable args file σ f σ' :
  originals_set σ →
  main args file σ = (Return f, σ') →
  ∃ res,
    contents σ' = Some res
    ∧ ∀ σ1, ∃ f1 σ1' res1,
        main no_requests (Some f) σ1 = (Return f1, σ1')
        ∧ contents σ1' = Some res1
        ∧ map persisted res1 = map persisted res
        ∧ ∀ σ2, ∃ σ2' res2,
            Records.load (Some f1) σ2 = (Return tt, σ2')
            ∧ contents σ2' = Some res2
            ∧ map persisted res2 = map persisted res.
Proof.
  intros Hσ Hmain. unfold main in Hmain.
  apply bind_Return_inv in Hmain as ([] & s1 & H1 & Hmain).
  apply bind_Return_inv in Hmain as ([] & s2 & H2 & Hmain).
  apply bind_Return_inv in Hmain as ([] & s3 & H3 & Hmain).
  apply bind_Return_inv in Hmain as ([] & s4 & H4 & Hmain).
  apply bind_Return_inv in Hmain as ([] & s5 & H5 & Hmain).
  apply bind_Return_inv in Hmain as ([] & s6 & H6 & Hsave).
  assert (Hs6 : originals_set s6).
  { pose proof (keeps_Records_load file σ Hσ) as K1. rewrite H1 in K1.
    pose proof (keeps_add_all (args_add args) s1 K1) as K2. rewrite H2 in K2.
    pose proof (keeps_remove_all (args_remove args) s2 K2) as K3. rewrite H3 in K3.
    pose proof (keeps_modify_all (args_modify args) s3 K3) as K4. rewrite H4 in K4.
    pose proof (keeps_mark_done_all (args_done args) s4 K4) as K5. rewrite H5 in K5.
    pose proof (keeps_listing (args_list args) (args_changes args) s5 K5) as K6.
    rewrite H6 in K6. exact K6. }
  destruct (save_inv _ _ _ Hsave) as [res Hres].
  pose proof (contents_originals s6 res Hs6 Hres) as Ho.
  destruct (save_load s6 res f σ' s6 Hres Ho Hsave) as (-> & Hascii & _).
  exists res. split; [ exact Hres | ]. intros σ1.
  destruct (save_load s6 res f s6 σ1 Hres Ho Hsave)
    as (_ & _ & σ1' & res1 & Hload & Hres1 & Hp).
  destruct (proj2 (save_returns_iff σ1' res1 Hres1)) as [f1 Hf1];
    [ by apply (persisted_ascii res) | ].
  exists f1, σ1', res1. split; [ by rewrite main_no_requests, Hload | ].
  do 2 (split; [ done | ]). intros σ2.
  destruct (save_load σ1' res1 f1 σ1' σ2 Hres1 (persisted_originals _ _ Hp Ho) Hf1)
    as (_ & _ & σ2' & res2 & Hload2 & Hres2 & Hp2).
  exists σ2', res2. do 2 (split; [ done | ]). by rewrite Hp2.
Qed.

Lemma keeps_write self : keeps_originals (Record.write self).
Proof.
  apply keeps_same_objects. intros σ. unfold Record.write, get_object, get_list. mrun.
  destruct (objects σ !! self) as [ r | ]; [ | done ]. mrun.
  destruct (lists σ !! modifications r); [ | done ].
  by destruct (json.dumps _).
Qed.

Lemma keeps_save : keeps_originals Records.save.
Proof.
  unfold Records.save. apply keeps_bind; [ apply keeps_get_records | intros rs ].
  apply keeps_for_fold. intros f a.
  apply keeps_bind; [ apply keeps_write | intros line; apply keeps_ret ].
Qed.

(** X14: No operation of the program leaves a record with an empty original:
    a store in which every object has a non-empty original is still one
    after [main], whatever the arguments and the file, and whether [main]
    returns or raises. *)
Theorem main_keeps_originals_set args file σ :
  originals_set σ → originals_set (main args file σ).2.
Proof.
  revert σ. change (keeps_originals (main args file)). unfold main.
  apply keeps_bind; [ apply keeps_Records_load | intros _ ].
  apply keeps_bind; [ apply keeps_add_all | intros _ ].
  apply keeps_bind; [ apply keeps_remove_all | intros _ ].
  apply keeps_bind; [ apply keeps_modify_all | intros _ ].
  apply keeps_bind; [ apply keeps_mark_done_all | intros _ ].
  apply keeps_bind; [ apply keeps_listing | intros _ ].
  apply keeps_save.
Qed.

End invocation.

Lemma main_output_is_stable_witness :
  let py := reverse_key_order in
  ∃ f σ',
    main (mkNamespace true true
            ["a;2024/01/01;minor"; "b;2024/01/02;major"] ["b"] ["a"]
            ["a;name:c;priority:major"])
         None initial = (Return f, σ')
    ∧ ∃ res,
        contents σ' = Some res
        ∧ ∀ σ1, ∃ f1 σ1' res1,
            main no_requests (Some f) σ1 = (Return f1, σ1')
            ∧ contents σ1' = Some res1
            ∧ map persisted res1 = map persisted res
            ∧ ∀ σ2, ∃ σ2' res2,
                Records.load (Some f1) σ2 = (Return tt, σ2')
                ∧ contents σ2' = Some res2
                ∧ map persisted res2 = map persisted res.
Proof.
  intros py.
  assert (H : ∃ f σ',
            main (mkNamespace true true
                    ["a;2024/01/01;minor"; "b;2024/01/02;major"] ["b"] ["a"]
                    ["a;name:c;priority:major"])
                 None initial = (Return f, σ')).
  { eexists _, _. vm_compute. reflexivity. }
  destruct H as (f & σ' & H). exists f, σ'. split; [ exact H | ].
  refine (main_output_is_stable (py := py) _ None initial f σ' _ H).
  intros a r Ha. cbn in Ha. by rewrite lookup_nil in Ha.
Defined.

Lemma main_keeps_originals_set_witness :
  let py := reverse_key_order in
  originals_set
    (main (mkNamespace true false ["a;2024/01/01;minor"] [] ["a"] ["a;bogus"])
          (Some line_without_original) initial).2.
Proof.
  intros py. apply (main_keeps_originals_set (py := py) _ _ initial).
  intros a r Ha. cbn in Ha. by rewrite lookup_nil in Ha.
Defined.

(** ** Adding, finding, removing *)

(** X15: A record added from a valid line is the one [find] returns for its
    name when no record of the collection had that name; and once
    [remove_all] has removed the only record of a name, [find] returns
    [None] for it. *)
Theorem find_after_add_and_remove σ :
  (∀ line n d p,
     split ";" line = [n; d; p] →
     String_check 20 n = true → Date_check d = true → Priority_check p = true →
     (∀ b, b ∈ records σ → ∃ rb, objects σ !! b = Some rb ∧ name rb ≠ n) →
     ∃ σ', Records.add_all [line] σ = (Return tt, σ')
       ∧ Records.find n σ' = (Return (Some (length (objects σ))), σ'))
  ∧ (∀ item pre a post r,
       length (split ";" item) = 1 →
       records σ = pre ++ a :: post →
       objects σ !! a = Some r → name r = item →
       (∀ b, b ∈ pre ++ post → ∃ rb, objects σ !! b = Some rb ∧ name rb ≠ item) →
       ∃ σ', Records.remove_all [item] σ = (Return tt, σ')
         ∧ Records.find item σ' = (Return None, σ')).
Proof.
  split.
  - intros line n d p Hsplit Hn Hd Hp Hrs.
    set (r := mkRecord n d p (VBool false) default_modifications
                (Record.snapshot n d p (VBool false)) ∅).
    exists (mkStore (objects σ ++ [r]) (lists σ) (records σ ++ [length (objects σ)])
              (stdout σ)).
    split.
    + unfold Records.add_all. cbn [for_each]. mrun. rewrite parse_spec.
      unfold parse_outcome. rewrite Hsplit, Hn, Hd, Hp. cbn [negb]. reflexivity.
    + apply (find_first n (records σ) (length (objects σ)) [] r).
      * reflexivity.
      * cbn. by rewrite lookup_app_r, Nat.sub_diag.
      * reflexivity.
      * intros b Hb. destruct (Hrs b Hb) as (rb & Hrb & Hne).
        exists rb. split; [ | done ]. cbn. by apply lookup_app_l_Some.
  - intros item pre a post r Hlen Hrs Ha Hname Hothers.
    exists (mkStore (objects σ) (lists σ) (pre ++ post) (stdout σ)). split.
    + unfold Records.remove_all. cbn [for_each].
      rewrite _split_1, bool_decide_eq_true_2 by lia.
      rewrite (split_single _ _ Hlen). mrun.
      rewrite (find_first item pre a post r); [ | done | done | done | ].
      * mrun. unfold Records.remove. mrun. unfold get_records. rewrite Hrs.
        rewrite list_remove_first; [ reflexivity | ].
        intros Hin. destruct (Hothers a) as (ra & Ha' & Hne);
          [ apply elem_of_app; by left | congruence ].
      * intros b Hb. apply Hothers, elem_of_app. by left.
    + by apply find_no_match.
Qed.

Lemma find_after_add_and_remove_witness :
  ∃ σ', Records.add_all ["c;2024/05/05;major"] example_store = (Return tt, σ')
    ∧ Records.find "c" σ' = (Return (Some (length (objects example_store))), σ').
Proof.
  refine (proj1 (find_after_add_and_remove example_store)
            "c;2024/05/05;major" "c" "2024/05/05" "major" _ _ _ _ _);
    try reflexivity.
  intros b Hb. cbn in Hb.
  repeat (apply elem_of_cons in Hb as [ -> | Hb ]; [ by eexists | ]).
  by apply elem_of_nil in Hb.
Defined.


(** ** Logs of loaded records *)

Lemma Record_load_Return item σ a σ' :
  Record.load item σ = (Return a, σ') →
  ∃ r entries,
    a = length (objects σ)
    ∧ σ' = mkStore (objects σ ++ [r]) (lists σ ++ [entries]) (records σ) (stdout σ)
    ∧ modifications r = length (lists σ).
Proof.
  intros Hload.
  destruct (load_inv _ _ _ _ Hload)
    as (members & n & d & p & jd & dn & jm & entries & jo & o & Hobj & Hn & Hd & Hp
        & Hjd & Hdn & Hjm & Hents & Hjo & Ho).
  rewrite (load_run _ _ _ _ _ _ _ _ _ _ _ σ Hobj Hn Hd Hp Hjd Hdn Hjm Hents Hjo Ho)
    in Hload.
  injection Hload as <- <-. eexists _, entries. done.
Qed.

Lemma loaded_on_step σb k σ item a σ1 σ2 :
  loaded_on σb k σ →
  Record.load item σ = (Return a, σ1) → Records.add a σ1 = (Return tt, σ2) →
  loaded_on σb (S k) σ2.
Proof.
  intros (Ho & Hl & Hrs & Hlogs) Hload Hadd.
  apply Record_load_Return in Hload as (r & entries & -> & -> & Hm).
  unfold Records.add, get_records, set_records in Hadd. rewrite bind_run in Hadd.
  injection Hadd as <-. unfold loaded_on. cbn [objects lists records].
  split; [ rewrite length_app; cbn; lia | ].
  split; [ rewrite length_app; cbn; lia | ].
  split; [ by rewrite seq_S, Hrs, Ho | ].
  intros i Hi. destruct (decide (i = k)) as [ -> | Hne ].
  - exists r. rewrite <- Ho, lookup_app_r, Nat.sub_diag by done.
    split; [ done | lia ].
  - destruct (Hlogs i) as (ri & Hri & Hmi); [ lia | ].
    exists ri. split; [ by apply lookup_app_l_Some | done ].
Qed.

Lemma loaded_on_loop σb lines k σ σ' :
  loaded_on σb k σ →
  for_each (λ line, record ← Record.load line; Records.add record) lines σ
  = (Return tt, σ') →
  ∃ k', loaded_on σb k' σ'.
Proof.
  revert k σ. induction lines as [ | line lines IH ]; intros k σ Hσ; cbn [for_each].
  - intros [= <-]. eauto.
  - intros ([] & σ2 & Hbody & Hrest)%bind_Return_inv.
    apply bind_Return_inv in Hbody as (a & σ1 & Hload & Hadd).
    eapply IH; [ | exact Hrest ]. by eapply loaded_on_step.
Qed.

Lemma Records_load_loaded_on file σ σ' :
  Records.load file σ = (Return tt, σ') → ∃ k, loaded_on σ k σ'.
Proof.
  unfold Records.load.
  intros ([] & σ0 & Hset & Hrest)%bind_Return_inv.
  unfold set_records in Hset. injection Hset as <-.
  assert (H0 : loaded_on σ 0 (mkStore (objects σ) (lists σ) [] (stdout σ))).
  { split; [ cbn; lia | ]. split; [ cbn; lia | ]. split; [ done | ].
    intros i Hi. lia. }
  destruct file as [ f | ].
  - by eapply loaded_on_loop.
  - injection Hrest as <-. eauto.
Qed.

(** X16: Records loaded from the file do not share their logs: after
    [Records.load] every record of the collection is an object whose log
    is a list created by the load, and two different records have
    different lists. *)
Theorem loaded_records_have_own_logs file σ σ' :
  Records.load file σ = (Return tt, σ') →
  NoDup (records σ')
  ∧ (∀ a, a ∈ records σ' →
       ∃ r, objects σ' !! a = Some r
            ∧ length (lists σ) ≤ modifications r < length (lists σ'))
  ∧ (∀ a b ra rb,
       a ∈ records σ' → b ∈ records σ' →
       objects σ' !! a = Some ra → objects σ' !! b = Some rb →
       modifications ra = modifications rb → a = b).
Proof.
  intros (k & Ho & Hl & Hrs & Hlogs)%Records_load_loaded_on.
  split; [ rewrite Hrs; apply NoDup_seq | ].
  split.
  - intros a Ha. rewrite Hrs in Ha. apply elem_of_seq in Ha.
    destruct (Hlogs (a - length (objects σ))) as (r & Hr & Hm); [ lia | ].
    replace (length (objects σ) + (a - length (objects σ))) with a in Hr by lia.
    exists r. split; [ done | lia ].
  - intros a b ra rb Ha Hb Hra Hrb Hm. rewrite Hrs in Ha, Hb.
    apply elem_of_seq in Ha, Hb.
    destruct (Hlogs (a - length (objects σ))) as (ra' & Hra' & Hma); [ lia | ].
    destruct (Hlogs (b - length (objects σ))) as (rb' & Hrb' & Hmb); [ lia | ].
    replace (length (objects σ) + (a - length (objects σ))) with a in Hra' by lia.
    replace (length (objects σ) + (b - length (objects σ))) with b in Hrb' by lia.
    pose proof (eq_trans (eq_sym Hra') Hra) as Ea. injection Ea as ->.
    pose proof (eq_trans (eq_sym Hrb') Hrb) as Eb. injection Eb as ->. lia.
Qed.

Lemma loaded_records_have_own_logs_witness :
  ∃ σ',
    Records.load (Some (file_text [line_without_original; line_without_original]))
      initial = (Return tt, σ')
    ∧ NoDup (records σ')
    ∧ (∀ a, a ∈ records σ' →
         ∃ r, objects σ' !! a = Some r
              ∧ length (lists initial) ≤ modifications r < length (lists σ'))
    ∧ (∀ a b ra rb,
         a ∈ records σ' → b ∈ records σ' →
         objects σ' !! a = Some ra → objects σ' !! b = Some rb →
         modifications ra = modifications rb → a = b).
Proof.
  assert (H : ∃ σ',
            Records.load
              (Some (file_text [line_without_original; line_without_original]))
              initial = (Return tt, σ')).
  { eexists. vm_compute. reflexivity. }
  destruct H as (σ' & H). exists σ'. split; [ exact H | ].
  exact (loaded_records_have_own_logs _ initial σ' H).
Defined.


(** ** Lines that do not load *)

(** X17: [load] of a line that is not JSON raises [ValueError]; of a JSON
    value that is not an object (a number, a string, an array, [true],
    [false] or [null]), [TypeError]; of an object without one of the six
    keys, [KeyError] for the first that is missing, in the order name,
    due date, priority, done, modifications, original. Nothing is created
    in any of these cases. So the empty line and the line [{] raise
    [ValueError], the lines [5] and [[1, 2]] raise [TypeError], and the
    object whose one member is a name raises [KeyError] for the due
    date. *)
Theorem load_raises_on_malformed_line item σ :
  (json.loads item = json.Error → Record.load item σ = (Raise ValueError, σ))
  ∧ (∀ v, json.loads item = json.Ok v → (∀ members, v ≠ json.Object members) →
       Record.load item σ = (Raise TypeError, σ))
  ∧ (∀ members pre key post,
       json.loads item = json.Ok (json.Object members) →
       ["name"; "due_date"; "priority"; "done"; "modifications"; "original"]
       = pre ++ key :: post →
       (∀ k, k ∈ pre → is_Some (json.get k members)) →
       json.get key members = None →
       Record.load item σ = (Raise (KeyError key), σ))
  ∧ Record.load "" σ = (Raise ValueError, σ)
  ∧ Record.load "{" σ = (Raise ValueError, σ)
  ∧ Record.load "5" σ = (Raise TypeError, σ)
  ∧ Record.load "[1, 2]" σ = (Raise TypeError, σ)
  ∧ Record.load "null" σ = (Raise TypeError, σ)
  ∧ Record.load (text (json.dumps_chars (json.Object [ ("name", json.Number "1") ]))) σ
    = (Raise (KeyError "due_date"), σ).
Proof.
  split; [ | split; [ | split ] ].
  - intros Hitem. unfold Record.load. by rewrite Hitem.
  - intros v Hitem Hv. unfold Record.load. rewrite Hitem.
    destruct v as [ | b | literal | s | items | members ]; try reflexivity.
    by destruct (Hv members).
  - intros members pre key post Hitem Hkeys Hpre Hkey.
    unfold Record.load. rewrite Hitem. unfold Record.member.
    assert (Hget : ∀ k, k ∈ pre → ∃ v, json.get k members = Some v).
    { intros k Hk. by apply Hpre. }
    do 6 (destruct pre as [ | ? pre ];
          [ injection Hkeys as <- _; mrun; by rewrite Hkey
          | injection Hkeys as <- Hkeys;
            let v := fresh "v" in
            let E := fresh "E" in
            destruct (Hget _ (list_elem_of_here _ _)) as [v E];
            rewrite E; mrun;
            assert (∀ k, k ∈ pre → ∃ v, json.get k members = Some v)
              by (intros k Hk; apply Hget; by right);
            clear Hget; rename H into Hget ]).
    by destruct pre.
  - unfold Record.load.
    assert (E1 : json.loads "" = json.Error) by (vm_compute; reflexivity).
    assert (E2 : json.loads "{" = json.Error) by (vm_compute; reflexivity).
    assert (E3 : json.loads "5" = json.Ok (json.Number "5"))
      by (vm_compute; reflexivity).
    assert (E4 : json.loads "[1, 2]"
                 = json.Ok (json.Array [json.Number "1"; json.Number "2"]))
      by (vm_compute; reflexivity).
    assert (E5 : json.loads "null" = json.Ok json.Null) by (vm_compute; reflexivity).
    assert (E6 : json.loads
                   (text (json.dumps_chars (json.Object [ ("name", json.Number "1") ])))
                 = json.Ok (json.Object [ ("name", json.Number "1") ]))
      by (vm_compute; reflexivity).
    rewrite E1, E2, E3, E4, E5, E6. repeat split.
Qed.

Lemma load_raises_on_malformed_line_witness :
  Record.load
    (text (json.dumps_chars
             (json.Object [ ("name", json.Str "a"); ("priority", json.Number "1") ])))
    initial
  = (Raise (KeyError "due_date"), initial).
Proof.
  refine (proj1 (proj2 (proj2 (load_raises_on_malformed_line _ initial)))
            [ ("name", json.Str "a"); ("priority", json.Number "1") ]
            ["name"] "due_date" ["priority"; "done"; "modifications"; "original"]
            _ _ _ _).
  - vm_compute. reflexivity.
  - reflexivity.
  - intros k Hk. apply list_elem_of_singleton in Hk as ->. by eexists.
  - reflexivity.
Defined.

(** ** Splitting a spec *)

Lemma split_length_1 sep s : length (split sep s) = 1 ↔ contains sep s = false.
Proof.
  split.
  - intros H%split_single. pose proof (split_no_sep sep s) as Hs.
    rewrite H in Hs. by apply Forall_cons in Hs as [Hs _].
  - intros H. by rewrite split_whole.
Qed.

(** X18: [_split] with the bound 1 returns the spec itself, as the only
    segment, when the spec has no semicolon, and [None] when it has one;
    without a bound, and with the bound 0, it returns all the segments,
    of which there is at least one. *)
Theorem _split_bounds item :
  Records._split item (Some 1)
  = (if contains ";" item then None else Some [item])
  ∧ Records._split item None = Some (split ";" item)
  ∧ Records._split item (Some 0) = Some (split ";" item)
  ∧ split ";" item ≠ [].
Proof.
  split; [ | split; [ | split ] ].
  - rewrite _split_1. destruct (contains ";" item) eqn:Hc.
    + rewrite bool_decide_eq_false_2; [ done | ]. intros Hlen.
      pose proof (split_nonempty ";" item).
      assert (Hone : length (split ";" item) = 1).
      { destruct (split ";" item); [ done | cbn in *; lia ]. }
      apply split_length_1 in Hone. congruence.
    + by rewrite split_whole.
  - unfold Records._split. by rewrite bool_decide_eq_true_2 by (by left).
  - unfold Records._split. by rewrite bool_decide_eq_true_2 by (by right).
  - apply split_nonempty.
Qed.

(** X19: Adding a record from a valid line and removing the record of that
    name in the same run leaves the collection as it was, when no record
    had the name before. *)
Theorem add_then_remove_restores_collection σ line n d p :
  split ";" line = [n; d; p] →
  String_check 20 n = true → Date_check d = true → Priority_check p = true →
  (∀ b, b ∈ records σ → ∃ rb, objects σ !! b = Some rb ∧ name rb ≠ n) →
  ∃ σ',
    (Records.add_all [line];; Records.remove_all [n]) σ = (Return tt, σ')
    ∧ records σ' = records σ ∧ lists σ' = lists σ ∧ stdout σ' = stdout σ.
Proof.
  intros Hsplit Hn Hd Hp Hrs.
  assert (Hsemi : contains ";" n = false).
  { pose proof (split_no_sep ";" line) as Hs. rewrite Hsplit in Hs.
    by apply Forall_cons in Hs as [Hs _]. }
  set (r := mkRecord n d p (VBool false) default_modifications
              (Record.snapshot n d p (VBool false)) ∅).
  exists (mkStore (objects σ ++ [r]) (lists σ) (records σ) (stdout σ)).
  split; [ | done ]. mrun.
  unfold Records.add_all. cbn [for_each]. mrun. rewrite parse_spec.
  unfold parse_outcome. rewrite Hsplit, Hn, Hd, Hp. cbn [negb]. mrun.
  unfold Records.add at 1. mrun. unfold get_records at 1, set_records at 1.
  cbn beta iota. cbn [with_object objects lists records stdout].
  unfold Records.remove_all. cbn [for_each].
  rewrite _split_1, bool_decide_eq_true_2 by (by rewrite split_whole).
  rewrite split_whole by done. mrun.
  rewrite (find_first n (records σ) (length (objects σ)) [] r).
  - mrun. unfold Records.remove. mrun. unfold get_records. cbn [records].
    rewrite list_remove_first.
    + by rewrite app_nil_r.
    + intros Hin. destruct (Hrs _ Hin) as (rb & Hrb & _).
      apply lookup_lt_Some in Hrb. lia.
  - reflexivity.
  - cbn. by rewrite lookup_app_r, Nat.sub_diag.
  - reflexivity.
  - intros b Hb. destruct (Hrs b Hb) as (rb & Hrb & Hne).
    exists rb. split; [ | done ]. cbn. by apply lookup_app_l_Some.
Qed.

Lemma add_then_remove_restores_collection_witness :
  ∃ σ',
    (Records.add_all ["c;2024/05/05;major"];; Records.remove_all ["c"]) example_store
    = (Return tt, σ')
    ∧ records σ' = records example_store ∧ lists σ' = lists example_store
    ∧ stdout σ' = stdout example_store.
Proof.
  apply (add_then_remove_restores_collection example_store
           "c;2024/05/05;major" "c" "2024/05/05" "major"); try reflexivity.
  intros b Hb. cbn in Hb.
  repeat (apply elem_of_cons in Hb as [ -> | Hb ]; [ by eexists | ]).
  by apply elem_of_nil in Hb.
Defined.

